(** * A shallow embedding of the cddpm diffusion pipeline

    The development follows the three source files of the repository:
    - [utils/training_utils.py]: noise schedule, [gather], [q_xt_x0], [p_xt],
      [EMAModel], [generate_image] and [log_hyperparameters];
    - [cddpm.py]: the notebook script (same schedule and diffusion steps,
      the step-by-step forward process, the U-Net at the level of shapes,
      the minimal training loop and the sampling cell);
    - [train.py]: the configurable entry point [training].

    Floating-point tensors are idealised as real numbers ([R]); the losses
    of the notebook loop as exact rationals ([Q]).  Python exceptions are
    explicit values of an error monad, and the process-wide random generator
    of torch is an explicit state that every drawing operation consumes. *)

From Stdlib Require Import Reals Lra Lia ZArith List QArith.
From stdpp Require Import base option list gmap strings pretty.

(** ** Python exceptions and the error monad *)

Module Py.

Inductive exn : Type :=
  | ZeroDivisionError
  | KeyError (key : string)
  | TypeError
  | ValueError (msg : string)
  | IndexError
  | UnboundLocalError
  | RuntimeError.

Inductive result (A : Type) : Type :=
  | Ok (a : A)
  | Raise (e : exn).
Arguments Ok {A} a.
Arguments Raise {A} e.

Definition bind {A B} (m : result A) (k : A -> result B) : result B :=
  match m with
  | Ok a => k a
  | Raise e => Raise e
  end.

#[global] Instance result_ret : MRet result := fun _ a => Ok a.
#[global] Instance result_bind : MBind result := fun _ _ k m => bind m k.

(** [mapM]: run a fallible function over a list, left to right. *)
Fixpoint mapM {A B} (f : A -> result B) (l : list A) : result (list B) :=
  match l with
  | [] => Ok []
  | x :: l' => y ← f x; ys ← mapM f l'; Ok (y :: ys)
  end.

(** [foldM]: a [for] loop threading a state that may raise. *)
Fixpoint foldM {A B} (f : A -> B -> result A) (a : A) (l : list B) : result A :=
  match l with
  | [] => Ok a
  | x :: l' => a' ← f a x; foldM f a' l'
  end.

End Py.
Export Py.

(** ** The noise schedule ([beta], [alpha], [alpha_bar]) *)

Module Schedule.
Local Open Scope R_scope.

(** [torch.linspace(lo, hi, steps)]: [steps] points from [lo] to [hi]
    inclusive, evenly spaced. *)
Definition linspace (lo hi : R) (steps : nat) : list R :=
  map (fun i => lo + INR i * ((hi - lo) / INR (steps - 1))) (seq 0 steps).

(** [torch.cumprod(l, dim=0)]: running products. *)
Fixpoint cumprod_from (acc : R) (l : list R) : list R :=
  match l with
  | [] => []
  | x :: l' => acc * x :: cumprod_from (acc * x) l'
  end.

Definition cumprod (l : list R) : list R := cumprod_from 1 l.

Record schedule : Type := {
  n_steps : nat;
  beta : list R;
  alpha : list R;
  alpha_bar : list R
}.

(** [beta = torch.linspace(beta_start, beta_end, n_steps)],
    [alpha = 1. - beta], [alpha_bar = torch.cumprod(alpha, dim=0)]. *)
Definition build_schedule (n : nat) (beta_start beta_end : R) : schedule :=
  let b := linspace beta_start beta_end n in
  let a := map (fun x => 1 - x) b in
  {| n_steps := n; beta := b; alpha := a; alpha_bar := cumprod a |}.

(** The module-level schedule of [training_utils.py] and of the training
    part of [cddpm.py]: [n_steps = 1000], [beta] from 0.0001 to 0.04. *)
Definition module_schedule : schedule := build_schedule 1000 0.0001 0.04.

(** *** Lengths and indexing *)

Lemma length_linspace lo hi n : length (linspace lo hi n) = n.
Proof. unfold linspace. now rewrite length_map, length_seq. Qed.

Lemma nth_linspace lo hi n i :
  (i < n)%nat ->
  nth i (linspace lo hi n) 0 = lo + INR i * ((hi - lo) / INR (n - 1)).
Proof.
  intros Hi. unfold linspace.
  set (f := fun k : nat => lo + INR k * ((hi - lo) / INR (n - 1))).
  rewrite (nth_indep _ 0 (f 0%nat)) by now rewrite length_map, length_seq.
  rewrite map_nth, seq_nth by assumption. reflexivity.
Qed.

Lemma length_cumprod_from acc l : length (cumprod_from acc l) = length l.
Proof. revert acc. induction l as [|x l IH]; intros acc; simpl; [|rewrite IH]; reflexivity. Qed.

Lemma length_build_beta n bs be : length (beta (build_schedule n bs be)) = n.
Proof. apply length_linspace. Qed.

Lemma length_build_alpha n bs be : length (alpha (build_schedule n bs be)) = n.
Proof. simpl. now rewrite length_map, length_linspace. Qed.

Lemma length_build_alpha_bar n bs be :
  length (alpha_bar (build_schedule n bs be)) = n.
Proof.
  simpl. unfold cumprod.
  now rewrite length_cumprod_from, length_map, length_linspace.
Qed.

Lemma nth_alpha n bs be i :
  (i < n)%nat ->
  nth i (alpha (build_schedule n bs be)) 0
  = 1 - nth i (beta (build_schedule n bs be)) 0.
Proof.
  intros Hi. simpl.
  rewrite (nth_indep _ 0 (1 - 0)) by now rewrite length_map, length_linspace.
  now rewrite (map_nth (fun x => 1 - x)).
Qed.

(** *** Bounds on [beta] *)

Lemma linspace_bounds lo hi n i :
  (2 <= n)%nat -> lo < hi -> (i < n)%nat ->
  lo <= nth i (linspace lo hi n) 0 <= hi.
Proof.
  intros Hn Hlh Hi. rewrite nth_linspace by assumption.
  assert (Hpos : 0 < INR (n - 1)) by (apply lt_0_INR; lia).
  assert (Hi0 : 0 <= INR i) by apply pos_INR.
  assert (Hile : INR i <= INR (n - 1)) by (apply le_INR; lia).
  set (d := INR (n - 1)) in *. set (x := INR i) in *.
  assert (Hq : 0 <= x / d <= 1).
  { split.
    - apply Rmult_le_pos; [assumption | left; now apply Rinv_0_lt_compat].
    - apply (Rmult_le_reg_r d); [assumption|].
      unfold Rdiv. rewrite Rmult_assoc, Rinv_l by lra. lra. }
  replace (x * ((hi - lo) / d)) with ((x / d) * (hi - lo)) by (field; lra).
  nra.
Qed.

(** *** Running products of factors in (0, 1) *)

Lemma cumprod_from_nth_S acc l i :
  (S i < length l)%nat ->
  nth (S i) (cumprod_from acc l) 0
  = nth i (cumprod_from acc l) 0 * nth (S i) l 0.
Proof.
  revert acc i. induction l as [|x l IH]; intros acc i Hlen; simpl in Hlen; [lia|].
  destruct l as [|y l']; [simpl in Hlen; lia|].
  destruct i as [|i].
  - reflexivity.
  - change (nth (S (S i)) (cumprod_from acc (x :: y :: l')) 0)
      with (nth (S i) (cumprod_from (acc * x) (y :: l')) 0).
    change (nth (S i) (cumprod_from acc (x :: y :: l')) 0)
      with (nth i (cumprod_from (acc * x) (y :: l')) 0).
    change (nth (S (S i)) (x :: y :: l') 0) with (nth (S i) (y :: l') 0).
    apply IH. simpl in *. lia.
Qed.

Lemma cumprod_from_pos acc l i :
  0 < acc -> (forall j, (j < length l)%nat -> 0 < nth j l 0) ->
  (i < length l)%nat -> 0 < nth i (cumprod_from acc l) 0.
Proof.
  revert acc i. induction l as [|x l IH]; intros acc i Hacc Hall Hi; simpl in Hi; [lia|].
  assert (Hx : 0 < x) by (apply (Hall 0%nat); simpl; lia).
  destruct i as [|i]; simpl.
  - now apply Rmult_lt_0_compat.
  - apply IH.
    + now apply Rmult_lt_0_compat.
    + intros j Hj. apply (Hall (S j)). simpl. lia.
    + lia.
Qed.

(** *** The schedule invariants *)

Lemma beta_in_unit n bs be t :
  (2 <= n)%nat -> 0 < bs -> bs < be -> be < 1 -> (t < n)%nat ->
  0 < nth t (beta (build_schedule n bs be)) 0 < 1.
Proof.
  intros Hn H0 Hlt H1 Ht.
  pose proof (linspace_bounds bs be n t Hn Hlt Ht) as Hb. simpl. lra.
Qed.

Lemma alpha_in_unit n bs be t :
  (2 <= n)%nat -> 0 < bs -> bs < be -> be < 1 -> (t < n)%nat ->
  0 < nth t (alpha (build_schedule n bs be)) 0 < 1.
Proof.
  intros Hn H0 Hlt H1 Ht. rewrite nth_alpha by assumption.
  pose proof (beta_in_unit n bs be t Hn H0 Hlt H1 Ht). lra.
Qed.

Lemma alpha_bar_pos n bs be t :
  (2 <= n)%nat -> 0 < bs -> bs < be -> be < 1 -> (t < n)%nat ->
  0 < nth t (alpha_bar (build_schedule n bs be)) 0.
Proof.
  intros Hn H0 Hlt H1 Ht.
  change (alpha_bar (build_schedule n bs be))
    with (cumprod_from 1 (alpha (build_schedule n bs be))).
  apply cumprod_from_pos; [lra | | now rewrite length_build_alpha].
  intros j Hj. rewrite length_build_alpha in Hj.
  now apply alpha_in_unit.
Qed.

Lemma alpha_bar_step n bs be i :
  (2 <= n)%nat -> 0 < bs -> bs < be -> be < 1 -> (S i < n)%nat ->
  nth (S i) (alpha_bar (build_schedule n bs be)) 0
  < nth i (alpha_bar (build_schedule n bs be)) 0.
Proof.
  intros Hn H0 Hlt H1 Hi.
  pose proof (alpha_bar_pos n bs be i Hn H0 Hlt H1 ltac:(lia)) as Hp.
  pose proof (alpha_in_unit n bs be (S i) Hn H0 Hlt H1 Hi) as Ha.
  change (alpha_bar (build_schedule n bs be))
    with (cumprod_from 1 (alpha (build_schedule n bs be))) in *.
  rewrite cumprod_from_nth_S by now rewrite length_build_alpha.
  nra.
Qed.

Lemma alpha_bar_below_one n bs be t :
  (2 <= n)%nat -> 0 < bs -> bs < be -> be < 1 -> (t < n)%nat ->
  nth t (alpha_bar (build_schedule n bs be)) 0 < 1.
Proof.
  intros Hn H0 Hlt H1. induction t as [|t IH]; intros Ht.
  - pose proof (alpha_in_unit n bs be 0 Hn H0 Hlt H1 Ht) as Ha.
    change (alpha_bar (build_schedule n bs be))
      with (cumprod_from 1 (alpha (build_schedule n bs be))).
    destruct (alpha (build_schedule n bs be)) as [|a l]; simpl in *; lra.
  - pose proof (alpha_bar_step n bs be t Hn H0 Hlt H1 Ht).
    specialize (IH ltac:(lia)). lra.
Qed.

(** C5.  For every [n_steps >= 2] and [0 < beta_start < beta_end < 1] the
    schedule built from [torch.linspace], [1 - beta] and [torch.cumprod]
    has [beta] and [alpha_bar] of length [n_steps], a strictly decreasing
    [alpha_bar] with [alpha_bar[0] = 1 - beta_start], and [0 < beta_t < 1]
    at every timestep. *)
Theorem build_schedule_invariants (n : nat) (beta_start beta_end : R) :
  (2 <= n)%nat -> 0 < beta_start -> beta_start < beta_end -> beta_end < 1 ->
  let s := build_schedule n beta_start beta_end in
  length (beta s) = n
  /\ length (alpha_bar s) = n
  /\ (forall i j, (i < j)%nat -> (j < n)%nat ->
        nth j (alpha_bar s) 0 < nth i (alpha_bar s) 0)
  /\ nth 0 (alpha_bar s) 0 = 1 - beta_start
  /\ (forall t, (t < n)%nat -> 0 < nth t (beta s) 0 < 1).
Proof.
  intros Hn H0 Hlt H1 s. subst s.
  split; [apply length_build_beta|].
  split; [apply length_build_alpha_bar|].
  split; [|split].
  - intros i j Hij. induction j as [|j IH]; intros Hj; [lia|].
    pose proof (alpha_bar_step n beta_start beta_end j Hn H0 Hlt H1 Hj) as Hs.
    destruct (Nat.eq_dec i j) as [->|Hne]; [exact Hs|].
    specialize (IH ltac:(lia) ltac:(lia)). lra.
  - assert (Hb0 : nth 0 (beta (build_schedule n beta_start beta_end)) 0 = beta_start).
    { simpl. rewrite nth_linspace by lia. simpl. lra. }
    pose proof (nth_alpha n beta_start beta_end 0 ltac:(lia)) as Ha.
    rewrite Hb0 in Ha.
    change (alpha_bar (build_schedule n beta_start beta_end))
      with (cumprod_from 1 (alpha (build_schedule n beta_start beta_end))).
    destruct (alpha (build_schedule n beta_start beta_end)) as [|a l];
      simpl in *; lra.
  - intros t Ht. now apply beta_in_unit.
Qed.

(** The invariants at the schedule the repository really builds in its
    notebook demo, scaled down to three steps. *)
Lemma build_schedule_invariants_witness :
  let s := build_schedule 3 0.0001 0.04 in
  length (beta s) = 3%nat
  /\ length (alpha_bar s) = 3%nat
  /\ (forall i j, (i < j)%nat -> (j < 3)%nat ->
        nth j (alpha_bar s) 0 < nth i (alpha_bar s) 0)
  /\ nth 0 (alpha_bar s) 0 = 1 - 0.0001
  /\ (forall t, (t < 3)%nat -> 0 < nth t (beta s) 0 < 1).
Proof. apply (build_schedule_invariants 3 0.0001 0.04); [lia | lra | lra | lra]. Defined.

End Schedule.

(** ** Tensors, broadcasting and the random generator *)

Module Tensor.
Local Open Scope R_scope.

(** An image batch [(B, C, H, W)] is a list of [B] rows, each the
    flattened [(C, H, W)] block of one sample.  A tensor of per-sample
    coefficients [(B, 1, 1, 1)] is a list of [B] one-element rows. *)
Definition tensor : Type := list (list R).

Definition numel (x : tensor) : nat := list_sum (map length x).

(** torch broadcasting along one dimension: equal sizes are combined
    position by position, a size-1 operand is repeated, anything else is a
    size-mismatch [RuntimeError]. *)
Definition broadcast {A B : Type} (f : A -> A -> result B)
    (xs ys : list A) : result (list B) :=
  if Nat.eqb (length xs) (length ys)
  then mapM (fun p => f (fst p) (snd p)) (combine xs ys)
  else match xs, ys with
       | [x], _ => mapM (f x) ys
       | _, [y] => mapM (fun x => f x y) xs
       | _, _ => Raise RuntimeError
       end.

(** Element-wise binary operators, broadcasting over the batch dimension
    and over the flattened feature dimension. *)
Definition pointwise (op : R -> R -> R) : tensor -> tensor -> result tensor :=
  broadcast (broadcast (fun a b => Ok (op a b))).

Definition tadd := pointwise Rplus.
Definition tsub := pointwise Rminus.
Definition tmul := pointwise Rmult.
Definition tdiv := pointwise Rdiv.

(** [x.sqrt()] / [torch.sqrt(x)] and [1 - x].  In torch a negative
    argument of [sqrt] and a zero divisor give [nan] or [inf], not an
    exception; the real-valued operators agree with them where the
    argument is non-negative and the divisor non-zero, which
    [coefficients_in_domain] below shows for every built schedule. *)
Definition tsqrt (x : tensor) : tensor := map (map sqrt) x.
Definition rsub (c : R) (x : tensor) : tensor := map (map (fun v => c - v)) x.

(** [gather(consts, t)]: [consts.gather(-1, t)] picks [consts[t_b]] for
    every sample (an index outside [0, len) is a [RuntimeError]), then
    [reshape(-1, 1, 1, 1)] makes one singleton row per sample. *)
Definition gather (consts : list R) (t : list Z) : result tensor :=
  mapM (fun i : Z =>
          if ((0 <=? i)%Z && (i <? Z.of_nat (length consts))%Z)%bool
          then Ok [nth (Z.to_nat i) consts 0]
          else Raise RuntimeError) t.

(** The process-wide generator: the streams of standard-normal variates
    and of raw integers it hands out, and how far into each it has got.
    Each drawing operation returns the generator advanced past what it
    consumed, so no draw is ever handed out twice. *)
Record generator : Type := {
  normal_stream : nat -> R;
  normal_pos : nat;
  int_stream : nat -> Z;
  int_pos : nat
}.

(** The [i]-th variate (raw integer) the generator will hand out next. *)
Definition normal_draws (g : generator) (i : nat) : R :=
  normal_stream g (normal_pos g + i).
Definition int_draws (g : generator) (i : nat) : Z :=
  int_stream g (int_pos g + i).

Definition advance_normal (g : generator) (k : nat) : generator :=
  {| normal_stream := normal_stream g;
     normal_pos := normal_pos g + k;
     int_stream := int_stream g;
     int_pos := int_pos g |}.

Definition advance_int (g : generator) (k : nat) : generator :=
  {| normal_stream := normal_stream g;
     normal_pos := normal_pos g;
     int_stream := int_stream g;
     int_pos := int_pos g + k |}.

Fixpoint randn_rows (lens : list nat) (d : nat -> R) : tensor :=
  match lens with
  | [] => []
  | n :: ls => map d (seq 0 n) :: randn_rows ls (fun i => d (n + i)%nat)
  end.

(** [torch.randn_like(x)]: a tensor of the shape of [x], filled in
    row-major order with the next [numel x] normal variates. *)
Definition randn_like (x : tensor) (g : generator) : tensor * generator :=
  (randn_rows (map length x) (normal_draws g), advance_normal g (numel x)).

(** [torch.randn(B, ...)] with [N] entries per sample. *)
Definition randn (B N : nat) (g : generator) : tensor * generator :=
  (randn_rows (repeat N B) (normal_draws g), advance_normal g (B * N)).

(** [torch.randint(high, (B,))]: [B] integers in [[0, high)], each a raw
    draw reduced modulo [high]; [high <= 0] is rejected. *)
Definition randint (high : Z) (B : nat) (g : generator)
  : result (list Z * generator) :=
  if (0 <? high)%Z
  then Ok (map (fun i => (int_draws g i mod high)%Z) (seq 0 B), advance_int g B)
  else Raise RuntimeError.

(** Shapes and element access used to state the specifications. *)
Definition has_shape (B N : nat) (x : tensor) : Prop :=
  length x = B /\ Forall (fun row => length row = N) x.

Definition at2 (x : tensor) (b j : nat) : R := nth j (nth b x []) 0.

(** [Gather(consts, t)[b]], the coefficient of sample [b]. *)
Definition coef_at (consts : list R) (t : list Z) (b : nat) : R :=
  nth (Z.to_nat (nth b t 0%Z)) consts 0.

Definition in_range (n : nat) (t : list Z) : Prop :=
  Forall (fun i => (0 <= i < Z.of_nat n)%Z) t.

(** *** Facts about [mapM], [broadcast] and [gather] *)

Lemma mapM_total {A B} (f : A -> result B) (h : A -> B) (l : list A) :
  Forall (fun x => f x = Ok (h x)) l -> mapM f l = Ok (map h l).
Proof.
  induction 1 as [|x l Hx _ IH]; simpl; [reflexivity|].
  rewrite Hx. simpl. rewrite IH. reflexivity.
Qed.

(** A tensor of per-sample coefficients, shape [(B, 1, 1, 1)]. *)
Definition coefs (cs : list R) : tensor := map (fun c => [c]) cs.

Lemma gather_in_range (consts : list R) (t : list Z) :
  in_range (length consts) t ->
  gather consts t = Ok (coefs (map (fun i => nth (Z.to_nat i) consts 0) t)).
Proof.
  intros Ht. unfold gather, coefs. rewrite map_map. apply mapM_total.
  eapply Forall_impl; [exact Ht|]. intros i Hi. simpl in Hi |- *.
  destruct (Z.leb_spec 0 i); [|lia].
  destruct (Z.ltb_spec i (Z.of_nat (length consts))); [reflexivity|lia].
Qed.

Lemma gather_out_of_range (consts : list R) (i : Z) (t : list Z) :
  ~ (0 <= i < Z.of_nat (length consts))%Z ->
  gather consts (i :: t) = Raise RuntimeError.
Proof.
  intros Hi. unfold gather. simpl.
  destruct (Z.leb_spec 0 i); destruct (Z.ltb_spec i (Z.of_nat (length consts)));
    simpl; try reflexivity; lia.
Qed.

Lemma broadcast_same {A B} (f : A -> A -> result B) (h : A -> A -> B) xs ys :
  length xs = length ys ->
  Forall (fun p => f (fst p) (snd p) = Ok (h (fst p) (snd p))) (combine xs ys) ->
  broadcast f xs ys = Ok (zip_with h xs ys).
Proof.
  intros Hlen Hall. unfold broadcast.
  rewrite Hlen, Nat.eqb_refl.
  rewrite (mapM_total _ (fun p => h (fst p) (snd p))) by assumption.
  f_equal. clear. revert ys.
  induction xs as [|x xs IH]; intros [|y ys]; simpl; try reflexivity.
  now rewrite IH.
Qed.

Lemma broadcast_row_l (op : R -> R -> R) (c : R) (row : list R) :
  broadcast (fun a b => Ok (op a b)) [c] row = Ok (map (op c) row).
Proof.
  unfold broadcast. destruct row as [|y [|y' row]]; try reflexivity.
  simpl. now rewrite (mapM_total _ (op c)) by (apply List.Forall_forall; auto).
Qed.

Lemma broadcast_row_r (op : R -> R -> R) (row : list R) (c : R) :
  broadcast (fun a b => Ok (op a b)) row [c] = Ok (map (fun v => op v c) row).
Proof.
  unfold broadcast. destruct row as [|y [|y' row]]; try reflexivity.
  simpl. now rewrite (mapM_total _ (fun v => op v c)) by (apply List.Forall_forall; auto).
Qed.

Lemma broadcast_rows (op : R -> R -> R) (r1 r2 : list R) :
  length r1 = length r2 ->
  broadcast (fun a b => Ok (op a b)) r1 r2 = Ok (zip_with op r1 r2).
Proof.
  intros Hlen. apply broadcast_same; [assumption|].
  apply List.Forall_forall. auto.
Qed.

(** Scaling every sample by its own coefficient. *)
Definition scale_l (op : R -> R -> R) (cs : list R) (x : tensor) : tensor :=
  zip_with (fun c row => map (op c) row) cs x.
Definition scale_r (op : R -> R -> R) (x : tensor) (cs : list R) : tensor :=
  zip_with (fun row c => map (fun v => op v c) row) x cs.

Lemma Forall_combine_l {A B} (P : A * B -> Prop) (xs : list A) (ys : list B) :
  (forall x y, In x xs -> In y ys -> P (x, y)) -> Forall P (combine xs ys).
Proof.
  intros H. apply List.Forall_forall. intros [x y] Hin.
  apply H; [eapply in_combine_l | eapply in_combine_r]; exact Hin.
Qed.

Lemma zip_with_coefs_l {B C} (f : list R -> B -> C) (cs : list R) (ys : list B) :
  zip_with f (coefs cs) ys = zip_with (fun c y => f [c] y) cs ys.
Proof.
  revert ys. induction cs as [|c cs IH]; intros [|y ys]; simpl; try reflexivity.
  now rewrite <- IH.
Qed.

Lemma zip_with_coefs_r {A C} (f : A -> list R -> C) (xs : list A) (cs : list R) :
  zip_with f xs (coefs cs) = zip_with (fun x c => f x [c]) xs cs.
Proof.
  revert cs. induction xs as [|x xs IH]; intros [|c cs]; simpl; try reflexivity.
  now rewrite <- IH.
Qed.

Lemma pointwise_coef_l (op : R -> R -> R) (cs : list R) (x : tensor) :
  length cs = length x ->
  pointwise op (coefs cs) x = Ok (scale_l op cs x).
Proof.
  intros Hlen. unfold pointwise, scale_l.
  rewrite (broadcast_same _ (fun r1 r2 => map (op (hd 0 r1)) r2)).
  - now rewrite zip_with_coefs_l.
  - unfold coefs. now rewrite length_map.
  - apply Forall_combine_l. intros r row Hr _. simpl.
    unfold coefs in Hr. apply in_map_iff in Hr as [c [<- _]].
    apply broadcast_row_l.
Qed.

Lemma pointwise_coef_r (op : R -> R -> R) (x : tensor) (cs : list R) :
  length x = length cs ->
  pointwise op x (coefs cs) = Ok (scale_r op x cs).
Proof.
  intros Hlen. unfold pointwise, scale_r.
  rewrite (broadcast_same _ (fun r1 r2 => map (fun v => op v (hd 0 r2)) r1)).
  - now rewrite zip_with_coefs_r.
  - unfold coefs. now rewrite length_map.
  - apply Forall_combine_l. intros row r _ Hr. simpl.
    unfold coefs in Hr. apply in_map_iff in Hr as [c [<- _]].
    apply broadcast_row_r.
Qed.

Lemma pointwise_same_shape (op : R -> R -> R) (B N : nat) (x y : tensor) :
  has_shape B N x -> has_shape B N y ->
  pointwise op x y = Ok (zip_with (zip_with op) x y).
Proof.
  intros [Hx Hrx] [Hy Hry]. unfold pointwise.
  apply broadcast_same; [congruence|].
  apply Forall_combine_l. intros r1 r2 H1 H2. simpl.
  apply broadcast_rows.
  rewrite List.Forall_forall in Hrx, Hry.
  rewrite (Hrx r1), (Hry r2); auto.
Qed.

Lemma pointwise_coefs (op : R -> R -> R) (cs ds : list R) :
  length cs = length ds ->
  pointwise op (coefs cs) (coefs ds) = Ok (coefs (zip_with op cs ds)).
Proof.
  intros Hlen. rewrite pointwise_coef_l by (unfold coefs; now rewrite length_map).
  f_equal. unfold scale_l, coefs. clear Hlen. revert ds.
  induction cs as [|c cs IH]; intros [|d ds]; simpl; try reflexivity.
  now rewrite IH.
Qed.

Lemma tsqrt_coefs cs : tsqrt (coefs cs) = coefs (map sqrt cs).
Proof. unfold tsqrt, coefs. rewrite !map_map. reflexivity. Qed.

Lemma rsub_coefs c cs : rsub c (coefs cs) = coefs (map (fun v => c - v) cs).
Proof. unfold rsub, coefs. rewrite !map_map. reflexivity. Qed.

(** *** Shapes and element access *)

Lemma nth_zip_with {A B C} (f : A -> B -> C) xs ys i da db dc :
  (i < length xs)%nat -> (i < length ys)%nat ->
  nth i (zip_with f xs ys) dc = f (nth i xs da) (nth i ys db).
Proof.
  revert ys i. induction xs as [|x xs IH]; intros [|y ys] [|i] Hx Hy;
    simpl in *; try lia; [reflexivity|].
  apply IH; lia.
Qed.

Lemma nth_map' {A B} (f : A -> B) l i da db :
  (i < length l)%nat -> nth i (map f l) db = f (nth i l da).
Proof.
  revert i. induction l as [|x l IH]; intros [|i] Hi; simpl in *; try lia;
    [reflexivity|]. apply IH. lia.
Qed.

Lemma has_shape_row B N x b :
  has_shape B N x -> (b < B)%nat -> length (nth b x []) = N.
Proof.
  intros [Hlen Hrows] Hb. rewrite List.Forall_forall in Hrows.
  apply Hrows. apply nth_In. lia.
Qed.

Lemma has_shape_zip_with B N (f : list R -> list R -> list R) x y :
  has_shape B N x -> has_shape B N y ->
  (forall r1 r2, length r1 = N -> length r2 = N -> length (f r1 r2) = N) ->
  has_shape B N (zip_with f x y).
Proof.
  intros [Hx Hrx] [Hy Hry] Hf. split.
  - rewrite length_zip_with. lia.
  - subst B. clear Hy. revert y Hry.
    induction Hrx as [|r1 x Hr1 _ IH]; intros [|r2 y] Hry; simpl; try constructor.
    + inversion Hry as [|? ? Hr2 Hry']. apply Hf; assumption.
    + inversion Hry as [|? ? Hr2 Hry']. apply IH. assumption.
Qed.

Lemma length_zip_with_same {A} (op : A -> A -> A) (r1 r2 : list A) N :
  length r1 = N -> length r2 = N -> length (zip_with op r1 r2) = N.
Proof. intros. rewrite length_zip_with. lia. Qed.

Lemma has_shape_scale_l op B N cs x :
  length cs = B -> has_shape B N x -> has_shape B N (scale_l op cs x).
Proof.
  intros Hcs [Hx Hrx]. unfold scale_l. split.
  - rewrite length_zip_with. lia.
  - clear Hcs Hx. revert cs.
    induction Hrx as [|r x Hr _ IH]; intros [|c cs]; simpl; try constructor.
    + now rewrite length_map.
    + apply IH.
Qed.

Lemma has_shape_scale_r op B N x cs :
  length cs = B -> has_shape B N x -> has_shape B N (scale_r op x cs).
Proof.
  intros Hcs [Hx Hrx]. unfold scale_r. split.
  - rewrite length_zip_with. lia.
  - clear Hcs Hx. revert cs.
    induction Hrx as [|r x Hr _ IH]; intros [|c cs]; simpl; try constructor.
    + now rewrite length_map.
    + apply IH.
Qed.

Lemma at2_zip_with op B N x y b j :
  has_shape B N x -> has_shape B N y -> (b < B)%nat -> (j < N)%nat ->
  at2 (zip_with (zip_with op) x y) b j = op (at2 x b j) (at2 y b j).
Proof.
  intros Hx Hy Hb Hj. unfold at2.
  rewrite (nth_zip_with _ x y b [] [] []) by (destruct Hx, Hy; lia).
  apply nth_zip_with.
  - rewrite (has_shape_row B N x b); assumption.
  - rewrite (has_shape_row B N y b); assumption.
Qed.

Lemma at2_scale_l op B N cs x b j :
  length cs = B -> has_shape B N x -> (b < B)%nat -> (j < N)%nat ->
  at2 (scale_l op cs x) b j = op (nth b cs 0) (at2 x b j).
Proof.
  intros Hcs Hx Hb Hj. unfold at2, scale_l.
  rewrite (nth_zip_with _ cs x b 0 [] []) by (destruct Hx; lia).
  apply nth_map'. rewrite (has_shape_row B N x b); assumption.
Qed.

Lemma at2_scale_r op B N x cs b j :
  length cs = B -> has_shape B N x -> (b < B)%nat -> (j < N)%nat ->
  at2 (scale_r op x cs) b j = op (at2 x b j) (nth b cs 0).
Proof.
  intros Hcs Hx Hb Hj. unfold at2, scale_r.
  rewrite (nth_zip_with _ x cs b [] 0 []) by (destruct Hx; lia).
  rewrite (nth_map' (fun v => op v (nth b cs 0)) _ j 0 0); [reflexivity|].
  rewrite (has_shape_row B N x b); assumption.
Qed.

Lemma has_shape_randn_rows B N (x : tensor) d :
  has_shape B N x -> has_shape B N (randn_rows (map length x) d).
Proof.
  intros [Hlen Hrows]. subst B. revert d.
  induction Hrows as [|r x Hr _ IH]; intros d; simpl.
  - split; [reflexivity|constructor].
  - destruct (IH (fun i => d (length r + i)%nat)) as [Hl Hf]. split.
    + simpl. now rewrite Hl.
    + constructor; [|assumption]. now rewrite length_map, length_seq.
Qed.

Lemma numel_shape B N x : has_shape B N x -> numel x = (B * N)%nat.
Proof.
  intros [Hlen Hrows]. subst B. unfold numel.
  induction Hrows as [|r x Hr _ IH]; simpl; [reflexivity|].
  rewrite IH, Hr. reflexivity.
Qed.

Lemma at2_randn_rows B N (x : tensor) d b j :
  has_shape B N x -> (b < B)%nat -> (j < N)%nat ->
  at2 (randn_rows (map length x) d) b j = d (b * N + j)%nat.
Proof.
  intros [Hlen Hrows] Hb Hj. subst B. revert d b Hb.
  induction Hrows as [|r x Hr _ IH]; intros d b Hb; simpl in Hb; [lia|].
  destruct b as [|b]; unfold at2; simpl.
  - rewrite (nth_map' d _ j 0%nat 0) by (rewrite length_seq; lia).
    rewrite seq_nth by lia. reflexivity.
  - fold (at2 (randn_rows (map length x) (fun i => d (length r + i)%nat)) b j).
    rewrite IH by lia. f_equal. lia.
Qed.

End Tensor.



(** ** Forward and reverse diffusion steps *)

Module Diffusion.
Import Schedule Tensor.
Local Open Scope R_scope.

(** [q_xt_x0(x0, t)], the training variant: returns [(x_t, noise)]. *)
Definition q_xt_x0 (s : schedule) (x0 : tensor) (t : list Z) (g : generator)
  : result ((tensor * tensor) * generator) :=
  alpha_bar_t ← gather (alpha_bar s) t;
  mean ← tmul (tsqrt alpha_bar_t) x0;
  let std := tsqrt (rsub 1 alpha_bar_t) in
  let '(noise, g') := randn_like x0 g in
  scaled ← tmul std noise;
  x_t ← tadd mean scaled;
  Ok ((x_t, noise), g').

(** [p_xt(xt, noise, t)], one reverse step. *)
Definition p_xt (s : schedule) (xt noise : tensor) (t : list Z) (g : generator)
  : result (tensor * generator) :=
  alpha_t ← gather (alpha s) t;
  alpha_bar_t ← gather (alpha_bar s) t;
  beta_t ← gather (beta s) t;
  eps_coef ← tdiv (rsub 1 alpha_t) (tsqrt (rsub 1 alpha_bar_t));
  en ← tmul eps_coef noise;
  diff ← tsub xt en;
  mu ← tdiv diff (tsqrt alpha_t);
  let '(z, g') := randn_like xt g in
  let std := tsqrt beta_t in
  zs ← tmul z std;
  xt_1 ← tadd mu zs;
  Ok (xt_1, g').

(** A schedule whose three sequences have [n_steps] entries. *)
Definition wf_schedule (s : schedule) : Prop :=
  length (beta s) = n_steps s
  /\ length (alpha s) = n_steps s
  /\ length (alpha_bar s) = n_steps s.

Lemma wf_build_schedule n bs be : wf_schedule (build_schedule n bs be).
Proof.
  split; [apply length_build_beta|].
  split; [apply length_build_alpha | apply length_build_alpha_bar].
Qed.

Lemma nth_gathered (consts : list R) (t : list Z) (b : nat) (f : R -> R) :
  (b < length t)%nat ->
  nth b (map f (map (fun i => nth (Z.to_nat i) consts 0) t)) 0
  = f (coef_at consts t b).
Proof.
  intros Hb. unfold coef_at.
  rewrite (nth_map' f _ b 0 0) by now rewrite length_map.
  f_equal.
  exact (nth_map' (fun i => nth (Z.to_nat i) consts 0) t b 0%Z 0 Hb).
Qed.

(** Reduction of the error monad once a step is known to succeed. *)
Ltac step_ok H := rewrite H; cbn [mbind result_bind bind].

(** C4.  The training variant of the closed-form forward step returns the
    pair [(x_t, noise)]: [noise] is the next block of normal variates of
    the generator, of the shape of [x0] (and the generator moves past it),
    and [x_t = sqrt(alpha_bar_t) * x0 + sqrt(1 - alpha_bar_t) * noise]
    with [alpha_bar_t] gathered from the schedule at [t]. *)
Theorem q_xt_x0_closed_form (s : schedule) (B N : nat)
    (x0 : tensor) (t : list Z) (g : generator) :
  wf_schedule s -> has_shape B N x0 -> length t = B ->
  in_range (n_steps s) t ->
  exists x_t noise,
    q_xt_x0 s x0 t g = Ok ((x_t, noise), advance_normal g (B * N))
    /\ noise = fst (randn_like x0 g)
    /\ has_shape B N noise
    /\ has_shape B N x_t
    /\ forall b j, (b < B)%nat -> (j < N)%nat ->
         at2 noise b j = normal_draws g (b * N + j)%nat
         /\ at2 x_t b j
            = sqrt (coef_at (alpha_bar s) t b) * at2 x0 b j
              + sqrt (1 - coef_at (alpha_bar s) t b) * at2 noise b j.
Proof.
  intros (_ & _ & Hab) Hx Ht Hr.
  set (A := map (fun i => nth (Z.to_nat i) (alpha_bar s) 0) t).
  assert (HA : length A = B) by (unfold A; now rewrite length_map).
  set (noise := randn_rows (map length x0) (normal_draws g)).
  assert (Hn : has_shape B N noise) by now apply has_shape_randn_rows.
  set (mean := scale_l Rmult (map sqrt A) x0).
  set (scaled := scale_l Rmult (map sqrt (map (fun v => 1 - v) A)) noise).
  assert (Hm : has_shape B N mean)
    by (apply has_shape_scale_l; [now rewrite length_map | assumption]).
  assert (Hs : has_shape B N scaled)
    by (apply has_shape_scale_l; [now rewrite !length_map | assumption]).
  exists (zip_with (zip_with Rplus) mean scaled), noise.
  split; [|split; [reflexivity|split; [assumption|split]]].
  - unfold q_xt_x0, tmul, tadd.
    step_ok (gather_in_range (alpha_bar s) t ltac:(now rewrite Hab)).
    fold A. rewrite tsqrt_coefs.
    step_ok (pointwise_coef_l Rmult (map sqrt A) x0
               ltac:(rewrite length_map; destruct Hx; lia)).
    unfold randn_like. fold noise. rewrite rsub_coefs, tsqrt_coefs.
    step_ok (pointwise_coef_l Rmult (map sqrt (map (fun v => 1 - v) A)) noise
               ltac:(rewrite !length_map; destruct Hn; lia)).
    fold mean scaled.
    step_ok (pointwise_same_shape Rplus B N mean scaled Hm Hs).
    now rewrite (numel_shape B N x0 Hx).
  - apply (has_shape_zip_with B N); try assumption.
    intros r1 r2. apply (length_zip_with_same Rplus).
  - intros b j Hb Hj. split.
    + unfold noise. now apply (at2_randn_rows B N).
    + rewrite (at2_zip_with Rplus B N) by assumption.
      unfold mean, scaled.
      rewrite (at2_scale_l Rmult B N) by (rewrite ?length_map; assumption).
      rewrite (at2_scale_l Rmult B N) by (rewrite ?length_map; assumption).
      unfold A. rewrite nth_gathered by lia.
      rewrite map_map.
      rewrite (nth_gathered (alpha_bar s) t b (fun v => sqrt (1 - v))) by lia.
      reflexivity.
Qed.

(** X9.  The coefficients [p_xt] and [q_xt_x0] take square roots of, and
    divide by, are positive for every schedule built within the
    documented bounds. *)
Lemma coefficients_in_domain (n : nat) (bs be : R) (t : list Z) (b : nat) :
  (2 <= n)%nat -> 0 < bs -> bs < be -> be < 1 ->
  in_range n t -> (b < length t)%nat ->
  let s := build_schedule n bs be in
  0 < coef_at (alpha s) t b
  /\ 0 < coef_at (beta s) t b
  /\ 0 < coef_at (alpha_bar s) t b
  /\ 0 < 1 - coef_at (alpha_bar s) t b
  /\ 0 < sqrt (1 - coef_at (alpha_bar s) t b)
  /\ 0 < sqrt (coef_at (alpha s) t b).
Proof.
  intros Hn H0 Hlt H1 Hr Hb s. unfold coef_at.
  assert (Hi : (Z.to_nat (nth b t 0%Z) < n)%nat).
  { unfold in_range in Hr. rewrite List.Forall_forall in Hr.
    specialize (Hr (nth b t 0%Z) (nth_In _ _ Hb)). lia. }
  set (i := Z.to_nat (nth b t 0%Z)) in *.
  pose proof (alpha_in_unit n bs be i Hn H0 Hlt H1 Hi) as Ha.
  pose proof (beta_in_unit n bs be i Hn H0 Hlt H1 Hi) as Hbeta.
  pose proof (alpha_bar_pos n bs be i Hn H0 Hlt H1 Hi) as Hp.
  pose proof (alpha_bar_below_one n bs be i Hn H0 Hlt H1 Hi) as Hlt1.
  fold s in Ha, Hbeta, Hp, Hlt1.
  repeat split; try lra; apply sqrt_lt_R0; lra.
Qed.

(** A generator used to run the steps on concrete inputs. *)
Definition sample_generator : generator :=
  {| normal_stream := fun i => INR i; normal_pos := 0;
     int_stream := fun i => Z.of_nat i; int_pos := 0 |}.

Lemma q_xt_x0_closed_form_witness :
  let s := build_schedule 2 0.0001 0.04 in
  let x0 := [[1; 2]] in
  let t := [0%Z] in
  exists x_t noise,
    q_xt_x0 s x0 t sample_generator
      = Ok ((x_t, noise), advance_normal sample_generator (1 * 2))
    /\ noise = fst (randn_like x0 sample_generator)
    /\ has_shape 1 2 noise
    /\ has_shape 1 2 x_t
    /\ forall b j, (b < 1)%nat -> (j < 2)%nat ->
         at2 noise b j = normal_draws sample_generator (b * 2 + j)%nat
         /\ at2 x_t b j
            = sqrt (coef_at (alpha_bar s) t b) * at2 x0 b j
              + sqrt (1 - coef_at (alpha_bar s) t b) * at2 noise b j.
Proof.
  apply (q_xt_x0_closed_form (build_schedule 2 0.0001 0.04) 1 2
           [[1; 2]] [0%Z] sample_generator).
  - repeat split; reflexivity.
  - split; [reflexivity | repeat constructor].
  - reflexivity.
  - repeat constructor; simpl; lia.
Defined.

(** C3.  One reverse step returns [mu + sqrt(beta_t) * z] with
    [mu = (x_t - eps_coef * predicted_noise) / sqrt(alpha_t)] and
    [eps_coef = (1 - alpha_t) / sqrt(1 - alpha_bar_t)], the coefficients
    gathered from the schedule at [t]; [z] is the next block of normal
    variates of the generator, of the shape of [x_t], drawn on every call
    whatever the timestep (the timestep 0 included). *)
Theorem p_xt_reverse_step (s : schedule) (B N : nat)
    (xt noise : tensor) (t : list Z) (g : generator) :
  wf_schedule s -> has_shape B N xt -> has_shape B N noise ->
  length t = B -> in_range (n_steps s) t ->
  exists xt_1 z,
    p_xt s xt noise t g = Ok (xt_1, advance_normal g (B * N))
    /\ z = fst (randn_like xt g)
    /\ has_shape B N z
    /\ has_shape B N xt_1
    /\ forall b j, (b < B)%nat -> (j < N)%nat ->
         let alpha_t := coef_at (alpha s) t b in
         let alpha_bar_t := coef_at (alpha_bar s) t b in
         let beta_t := coef_at (beta s) t b in
         let eps_coef := (1 - alpha_t) / sqrt (1 - alpha_bar_t) in
         let mu := (at2 xt b j - eps_coef * at2 noise b j) / sqrt alpha_t in
         at2 z b j = normal_draws g (b * N + j)%nat
         /\ at2 xt_1 b j = mu + sqrt beta_t * at2 z b j.
Proof.
  intros (Hb & Ha & Hab) Hx Hnoise Ht Hr.
  set (gat := fun consts => map (fun i => nth (Z.to_nat i) consts 0) t).
  assert (Hg : forall consts, length (gat consts) = B)
    by (intros; unfold gat; now rewrite length_map).
  set (E := zip_with Rdiv (map (fun v => 1 - v) (gat (alpha s)))
                     (map sqrt (map (fun v => 1 - v) (gat (alpha_bar s))))).
  assert (HE : length E = B)
    by (unfold E; rewrite length_zip_with, !length_map, !Hg; lia).
  set (en := scale_l Rmult E noise).
  assert (Hen : has_shape B N en) by now apply has_shape_scale_l.
  set (diff := zip_with (zip_with Rminus) xt en).
  assert (Hdiff : has_shape B N diff).
  { apply (has_shape_zip_with B N); try assumption.
    intros r1 r2. apply (length_zip_with_same Rminus). }
  set (mu := scale_r Rdiv diff (map sqrt (gat (alpha s)))).
  assert (Hmu : has_shape B N mu)
    by (apply has_shape_scale_r; [now rewrite length_map | assumption]).
  set (z := randn_rows (map length xt) (normal_draws g)).
  assert (Hz : has_shape B N z) by now apply has_shape_randn_rows.
  set (zs := scale_r Rmult z (map sqrt (gat (beta s)))).
  assert (Hzs : has_shape B N zs)
    by (apply has_shape_scale_r; [now rewrite length_map | assumption]).
  exists (zip_with (zip_with Rplus) mu zs), z.
  split; [|split; [reflexivity|split; [assumption|split]]].
  - unfold p_xt, tmul, tadd, tsub, tdiv.
    step_ok (gather_in_range (alpha s) t ltac:(now rewrite Ha)).
    step_ok (gather_in_range (alpha_bar s) t ltac:(now rewrite Hab)).
    step_ok (gather_in_range (beta s) t ltac:(now rewrite Hb)).
    fold (gat (alpha s)) (gat (alpha_bar s)) (gat (beta s)).
    rewrite !rsub_coefs, !tsqrt_coefs.
    step_ok (pointwise_coefs Rdiv (map (fun v => 1 - v) (gat (alpha s)))
               (map sqrt (map (fun v => 1 - v) (gat (alpha_bar s))))
               ltac:(now rewrite !length_map, !Hg)).
    fold E.
    step_ok (pointwise_coef_l Rmult E noise ltac:(destruct Hnoise; lia)).
    fold en.
    step_ok (pointwise_same_shape Rminus B N xt en Hx Hen).
    fold diff.
    step_ok (pointwise_coef_r Rdiv diff (map sqrt (gat (alpha s)))
               ltac:(rewrite length_map, Hg; destruct Hdiff; lia)).
    fold mu. unfold randn_like. fold z.
    step_ok (pointwise_coef_r Rmult z (map sqrt (gat (beta s)))
               ltac:(rewrite length_map, Hg; destruct Hz; lia)).
    fold zs.
    step_ok (pointwise_same_shape Rplus B N mu zs Hmu Hzs).
    now rewrite (numel_shape B N xt Hx).
  - apply (has_shape_zip_with B N); try assumption.
    intros r1 r2. apply (length_zip_with_same Rplus).
  - intros b j Hlb Hlj. cbv zeta. split.
    + unfold z. now apply (at2_randn_rows B N).
    + rewrite (at2_zip_with Rplus B N) by assumption.
      unfold mu, zs.
      rewrite (at2_scale_r Rdiv B N) by (rewrite ?length_map; auto).
      rewrite (at2_scale_r Rmult B N) by (rewrite ?length_map; auto).
      unfold diff. rewrite (at2_zip_with Rminus B N) by assumption.
      unfold en. rewrite (at2_scale_l Rmult B N) by assumption.
      unfold E.
      rewrite (nth_zip_with Rdiv _ _ b 0 0 0)
        by (rewrite !length_map, Hg; lia).
      rewrite map_map. unfold gat.
      rewrite !nth_gathered by lia.
      rewrite (Rmult_comm (at2 z b j)). reflexivity.
Qed.

Lemma p_xt_reverse_step_witness :
  let s := build_schedule 2 0.0001 0.04 in
  let xt := [[1; 2]] in
  let noise := [[3; 4]] in
  let t := [0%Z] in
  exists xt_1 z,
    p_xt s xt noise t sample_generator
      = Ok (xt_1, advance_normal sample_generator (1 * 2))
    /\ z = fst (randn_like xt sample_generator)
    /\ has_shape 1 2 z
    /\ has_shape 1 2 xt_1
    /\ forall b j, (b < 1)%nat -> (j < 2)%nat ->
         let alpha_t := coef_at (alpha s) t b in
         let alpha_bar_t := coef_at (alpha_bar s) t b in
         let beta_t := coef_at (beta s) t b in
         let eps_coef := (1 - alpha_t) / sqrt (1 - alpha_bar_t) in
         let mu := (at2 xt b j - eps_coef * at2 noise b j) / sqrt alpha_t in
         at2 z b j = normal_draws sample_generator (b * 2 + j)%nat
         /\ at2 xt_1 b j = mu + sqrt beta_t * at2 z b j.
Proof.
  apply (p_xt_reverse_step (build_schedule 2 0.0001 0.04) 1 2
           [[1; 2]] [[3; 4]] [0%Z] sample_generator).
  - repeat split; reflexivity.
  - split; [reflexivity | repeat constructor].
  - split; [reflexivity | repeat constructor].
  - reflexivity.
  - repeat constructor; simpl; lia.
Defined.

End Diffusion.

(** ** The diffusion steps under broadcasting of the timestep *)

Module DiffusionFacts.
Import Schedule Tensor Diffusion.
Local Open Scope R_scope.

(** A timestep tensor fits a batch of [B] samples when it has one entry
    per sample or a single entry, which torch repeats for every sample. *)
Definition batch_compatible (B : nat) (t : list Z) : Prop :=
  length t = B \/ length t = 1%nat.

(** The entry of a [len]-entry coefficient tensor that applies to
    sample [b]. *)
Definition row_of (len b : nat) : nat := if Nat.eqb len 1 then 0%nat else b.

(** The per-sample coefficients a tensor of [length cs] gathered values
    stands for in a batch of [B] samples: itself, or its single value
    repeated. *)
Definition expand (B : nat) (cs : list R) : list R :=
  if Nat.eqb (length cs) B then cs else repeat (hd 0 cs) B.

Lemma row_of_lt B len b :
  len = B \/ len = 1%nat -> (b < B)%nat -> (row_of len b < len)%nat.
Proof.
  intros H Hb. unfold row_of. destruct (Nat.eqb_spec len 1); lia.
Qed.

Lemma row_of_full B len b : len = B -> (b < B)%nat -> row_of len b = b.
Proof.
  intros H Hb. unfold row_of. destruct (Nat.eqb_spec len 1); lia.
Qed.

Lemma length_expand B cs :
  length cs = B \/ length cs = 1%nat -> length (expand B cs) = B.
Proof.
  intros H. unfold expand. destruct (Nat.eqb_spec (length cs) B); [assumption|].
  apply repeat_length.
Qed.

Lemma nth_expand B cs b :
  length cs = B \/ length cs = 1%nat -> (b < B)%nat ->
  nth b (expand B cs) 0 = nth (row_of (length cs) b) cs 0.
Proof.
  intros H Hb. unfold expand, row_of.
  destruct (Nat.eqb_spec (length cs) B) as [HB|HB].
  - destruct (Nat.eqb_spec (length cs) 1) as [H1|H1]; [|reflexivity].
    assert (b = 0%nat) by lia. now subst.
  - destruct H as [H|H]; [contradiction|]. rewrite H. simpl.
    destruct cs as [|c [|c' cs]]; simpl in H; try discriminate.
    simpl. apply nth_repeat_lt. assumption.
Qed.

Lemma pointwise_single_l (op : R -> R -> R) (c : R) (x : tensor) :
  pointwise op [[c]] x = Ok (map (map (op c)) x).
Proof.
  unfold pointwise. destruct x as [|r [|r' x]].
  - reflexivity.
  - apply (broadcast_same _ (fun r1 r2 => map (op (hd 0 r1)) r2) [[c]] [r]);
      [reflexivity|]. repeat constructor. apply broadcast_row_l.
  - unfold broadcast at 1. cbn [length Nat.eqb].
    apply (mapM_total _ (map (op c))). apply List.Forall_forall.
    intros row _. apply broadcast_row_l.
Qed.

Lemma pointwise_single_r (op : R -> R -> R) (x : tensor) (c : R) :
  pointwise op x [[c]] = Ok (map (map (fun v => op v c)) x).
Proof.
  unfold pointwise. destruct x as [|r [|r' x]].
  - reflexivity.
  - apply (broadcast_same _ (fun r1 r2 => map (fun v => op v (hd 0 r2)) r1) [r] [[c]]);
      [reflexivity|]. repeat constructor. apply broadcast_row_r.
  - unfold broadcast at 1. cbn [length Nat.eqb].
    apply (mapM_total _ (map (fun v => op v c))). apply List.Forall_forall.
    intros row _. apply broadcast_row_r.
Qed.

Lemma scale_l_repeat op c (x : tensor) :
  scale_l op (repeat c (length x)) x = map (map (op c)) x.
Proof.
  unfold scale_l. induction x as [|r x IH]; simpl; [reflexivity|].
  now rewrite IH.
Qed.

Lemma scale_r_repeat op (x : tensor) c :
  scale_r op x (repeat c (length x)) = map (map (fun v => op v c)) x.
Proof.
  unfold scale_r. induction x as [|r x IH]; simpl; [reflexivity|].
  now rewrite IH.
Qed.

Lemma pointwise_expand_l op cs (x : tensor) B :
  length x = B -> length cs = B \/ length cs = 1%nat ->
  pointwise op (coefs cs) x = Ok (scale_l op (expand B cs) x).
Proof.
  intros Hx H. unfold expand.
  destruct (Nat.eqb_spec (length cs) B) as [HB|HB].
  - apply pointwise_coef_l. congruence.
  - destruct H as [H|H]; [contradiction|].
    destruct cs as [|c [|c' cs]]; simpl in H; try discriminate.
    simpl. rewrite pointwise_single_l. subst B. now rewrite scale_l_repeat.
Qed.

Lemma pointwise_expand_r op (x : tensor) cs B :
  length x = B -> length cs = B \/ length cs = 1%nat ->
  pointwise op x (coefs cs) = Ok (scale_r op x (expand B cs)).
Proof.
  intros Hx H. unfold expand.
  destruct (Nat.eqb_spec (length cs) B) as [HB|HB].
  - apply pointwise_coef_r. congruence.
  - destruct H as [H|H]; [contradiction|].
    destruct cs as [|c [|c' cs]]; simpl in H; try discriminate.
    simpl. rewrite pointwise_single_r. subst B. now rewrite scale_r_repeat.
Qed.

(** The gathered value that applies to sample [b]. *)
Lemma nth_expand_gathered (consts : list R) (t : list Z) (f : R -> R) B b :
  batch_compatible B t -> (b < B)%nat ->
  nth b (expand B (map f (map (fun i => nth (Z.to_nat i) consts 0) t))) 0
  = f (coef_at consts t (row_of (length t) b)).
Proof.
  intros Ht Hb.
  rewrite nth_expand; [|rewrite !length_map; exact Ht|assumption].
  rewrite !length_map.
  apply nth_gathered. now apply (row_of_lt B).
Qed.

(** [q_xt_x0] on a batch of [B] samples with a timestep tensor that fits
    it. *)
Lemma q_xt_x0_run (s : schedule) (B N : nat)
    (x0 : tensor) (t : list Z) (g : generator) :
  wf_schedule s -> has_shape B N x0 -> batch_compatible B t ->
  in_range (n_steps s) t ->
  exists x_t,
    q_xt_x0 s x0 t g = Ok ((x_t, fst (randn_like x0 g)), advance_normal g (B * N))
    /\ has_shape B N x_t
    /\ forall b j, (b < B)%nat -> (j < N)%nat ->
         let alpha_bar_t := coef_at (alpha_bar s) t (row_of (length t) b) in
         at2 (fst (randn_like x0 g)) b j = normal_draws g (b * N + j)%nat
         /\ at2 x_t b j
            = sqrt alpha_bar_t * at2 x0 b j
              + sqrt (1 - alpha_bar_t) * normal_draws g (b * N + j)%nat.
Proof.
  intros (_ & _ & Hab) Hx Ht Hr.
  set (A := map (fun i => nth (Z.to_nat i) (alpha_bar s) 0) t).
  assert (HA : forall f : R -> R, length (map f A) = B \/ length (map f A) = 1%nat)
    by (intros f; unfold A; rewrite !length_map; exact Ht).
  set (noise := randn_rows (map length x0) (normal_draws g)).
  assert (Hn : has_shape B N noise) by now apply has_shape_randn_rows.
  set (mean := scale_l Rmult (expand B (map sqrt A)) x0).
  set (scaled := scale_l Rmult (expand B (map sqrt (map (fun v => 1 - v) A))) noise).
  assert (Hm : has_shape B N mean)
    by (apply has_shape_scale_l; [now apply length_expand | assumption]).
  assert (Hs : has_shape B N scaled).
  { apply has_shape_scale_l; [|assumption]. apply length_expand.
    rewrite length_map. apply (HA (fun v => 1 - v)). }
  assert (Hnz : forall b j, (b < B)%nat -> (j < N)%nat ->
                 at2 noise b j = normal_draws g (b * N + j)%nat)
    by (intros b j Hb Hj; unfold noise; now apply (at2_randn_rows B N)).
  exists (zip_with (zip_with Rplus) mean scaled).
  split; [|split].
  - unfold q_xt_x0, tmul, tadd.
    step_ok (gather_in_range (alpha_bar s) t ltac:(now rewrite Hab)).
    fold A. rewrite tsqrt_coefs.
    step_ok (pointwise_expand_l Rmult (map sqrt A) x0 B (proj1 Hx) (HA sqrt)).
    unfold randn_like. fold noise. rewrite rsub_coefs, tsqrt_coefs.
    step_ok (pointwise_expand_l Rmult (map sqrt (map (fun v => 1 - v) A)) noise B
               (proj1 Hn)
               ltac:(rewrite length_map; apply (HA (fun v => 1 - v)))).
    fold mean scaled.
    step_ok (pointwise_same_shape Rplus B N mean scaled Hm Hs).
    cbn [fst]. now rewrite (numel_shape B N x0 Hx).
  - apply (has_shape_zip_with B N); try assumption.
    intros r1 r2. apply (length_zip_with_same Rplus).
  - intros b j Hb Hj. cbv zeta. unfold randn_like. cbn [fst]. fold noise.
    split; [now apply Hnz|].
    rewrite (at2_zip_with Rplus B N) by assumption.
    unfold mean, scaled.
    rewrite (at2_scale_l Rmult B N);
      [|now apply length_expand|assumption|assumption|assumption].
    rewrite (at2_scale_l Rmult B N);
      [|apply length_expand; rewrite length_map; apply (HA (fun v => 1 - v))
       |assumption|assumption|assumption].
    unfold A. rewrite (nth_expand_gathered (alpha_bar s) t sqrt B b Ht Hb).
    rewrite map_map.
    rewrite (nth_expand_gathered (alpha_bar s) t (fun v => sqrt (1 - v)) B b Ht Hb).
    fold A. rewrite Hnz by assumption. reflexivity.
Qed.

(** [p_xt] on a batch of [B] samples with a timestep tensor that fits
    it. *)
Lemma p_xt_run (s : schedule) (B N : nat)
    (xt noise : tensor) (t : list Z) (g : generator) :
  wf_schedule s -> has_shape B N xt -> has_shape B N noise ->
  batch_compatible B t -> in_range (n_steps s) t ->
  exists xt_1,
    p_xt s xt noise t g = Ok (xt_1, advance_normal g (B * N))
    /\ has_shape B N xt_1
    /\ forall b j, (b < B)%nat -> (j < N)%nat ->
         let alpha_t := coef_at (alpha s) t (row_of (length t) b) in
         let alpha_bar_t := coef_at (alpha_bar s) t (row_of (length t) b) in
         let beta_t := coef_at (beta s) t (row_of (length t) b) in
         let eps_coef := (1 - alpha_t) / sqrt (1 - alpha_bar_t) in
         let mu := (at2 xt b j - eps_coef * at2 noise b j) / sqrt alpha_t in
         at2 xt_1 b j = mu + sqrt beta_t * normal_draws g (b * N + j)%nat.
Proof.
  intros (Hb & Ha & Hab) Hx Hnoise Ht Hr.
  set (gat := fun consts => map (fun i => nth (Z.to_nat i) consts 0) t).
  assert (Hg : forall consts, length (gat consts) = length t)
    by (intros; unfold gat; now rewrite length_map).
  set (E := zip_with Rdiv (map (fun v => 1 - v) (gat (alpha s)))
                     (map sqrt (map (fun v => 1 - v) (gat (alpha_bar s))))).
  assert (HE : length E = length t)
    by (unfold E; rewrite length_zip_with, !length_map, !Hg; lia).
  assert (HEc : length E = B \/ length E = 1%nat) by (rewrite HE; exact Ht).
  assert (Hgc : forall consts, length (map sqrt (gat consts)) = B
                               \/ length (map sqrt (gat consts)) = 1%nat)
    by (intros; rewrite length_map, Hg; exact Ht).
  set (en := scale_l Rmult (expand B E) noise).
  assert (Hen : has_shape B N en)
    by (apply has_shape_scale_l; [now apply length_expand | assumption]).
  set (diff := zip_with (zip_with Rminus) xt en).
  assert (Hdiff : has_shape B N diff).
  { apply (has_shape_zip_with B N); try assumption.
    intros r1 r2. apply (length_zip_with_same Rminus). }
  set (mu := scale_r Rdiv diff (expand B (map sqrt (gat (alpha s))))).
  assert (Hmu : has_shape B N mu)
    by (apply has_shape_scale_r; [apply length_expand, Hgc | assumption]).
  set (z := randn_rows (map length xt) (normal_draws g)).
  assert (Hz : has_shape B N z) by now apply has_shape_randn_rows.
  set (zs := scale_r Rmult z (expand B (map sqrt (gat (beta s))))).
  assert (Hzs : has_shape B N zs)
    by (apply has_shape_scale_r; [apply length_expand, Hgc | assumption]).
  exists (zip_with (zip_with Rplus) mu zs).
  split; [|split].
  - unfold p_xt, tmul, tadd, tsub, tdiv.
    step_ok (gather_in_range (alpha s) t ltac:(now rewrite Ha)).
    step_ok (gather_in_range (alpha_bar s) t ltac:(now rewrite Hab)).
    step_ok (gather_in_range (beta s) t ltac:(now rewrite Hb)).
    fold (gat (alpha s)) (gat (alpha_bar s)) (gat (beta s)).
    rewrite !rsub_coefs, !tsqrt_coefs.
    step_ok (pointwise_coefs Rdiv (map (fun v => 1 - v) (gat (alpha s)))
               (map sqrt (map (fun v => 1 - v) (gat (alpha_bar s))))
               ltac:(now rewrite !length_map, !Hg)).
    fold E.
    step_ok (pointwise_expand_l Rmult E noise B (proj1 Hnoise) HEc).
    fold en.
    step_ok (pointwise_same_shape Rminus B N xt en Hx Hen).
    fold diff.
    step_ok (pointwise_expand_r Rdiv diff (map sqrt (gat (alpha s))) B
               (proj1 Hdiff) (Hgc (alpha s))).
    fold mu. unfold randn_like. fold z.
    step_ok (pointwise_expand_r Rmult z (map sqrt (gat (beta s))) B
               (proj1 Hz) (Hgc (beta s))).
    fold zs.
    step_ok (pointwise_same_shape Rplus B N mu zs Hmu Hzs).
    now rewrite (numel_shape B N xt Hx).
  - apply (has_shape_zip_with B N); try assumption.
    intros r1 r2. apply (length_zip_with_same Rplus).
  - intros b j Hlb Hlj. cbv zeta.
    assert (Hrow : (row_of (length t) b < length t)%nat)
      by now apply (row_of_lt B).
    rewrite (at2_zip_with Rplus B N) by assumption.
    unfold mu, zs.
    rewrite (at2_scale_r Rdiv B N);
      [|apply length_expand, Hgc|assumption|assumption|assumption].
    rewrite (at2_scale_r Rmult B N);
      [|apply length_expand, Hgc|assumption|assumption|assumption].
    unfold diff. rewrite (at2_zip_with Rminus B N) by assumption.
    unfold en.
    rewrite (at2_scale_l Rmult B N);
      [|now apply length_expand|assumption|assumption|assumption].
    unfold gat.
    rewrite !(nth_expand_gathered _ t sqrt B b Ht Hlb).
    rewrite (nth_expand B E b HEc Hlb), HE.
    unfold E.
    rewrite (nth_zip_with Rdiv _ _ _ 0 0 0)
      by (rewrite !length_map, ?Hg; lia).
    rewrite map_map. unfold gat.
    rewrite !nth_gathered by assumption.
    unfold z. rewrite (at2_randn_rows B N) by assumption.
    rewrite (Rmult_comm (normal_draws g (b * N + j))). reflexivity.
Qed.

End DiffusionFacts.



(** ** Exponential moving average of the weights ([EMAModel]) *)

Module Ema.
Local Open Scope R_scope.

(** *** Python arithmetic on floats, idealised as reals *)

(** [a / b]: division by zero raises. *)
Definition py_div (a b : R) : result R :=
  if Req_dec_T b 0 then Raise ZeroDivisionError else Ok (a / b).

Definition int_exponent (e : R) : option Z :=
  if Req_dec_T e (IZR (Int_part e)) then Some (Int_part e) else None.

(** [b ** e] on floats.  A zero base with a negative exponent raises.  A
    negative base with a fractional exponent gives a complex number, which
    the comparisons of [min] and [max] in [get_decay] reject: that outcome
    is recorded here as the [TypeError] it ends in. *)
Definition py_pow (b e : R) : result R :=
  if Rlt_dec 0 b then Ok (Rpower b e)
  else if Req_dec_T b 0 then
    (if Rlt_dec e 0 then Raise ZeroDivisionError
     else if Req_dec_T e 0 then Ok 1 else Ok 0)
  else match int_exponent e with
       | Some z => Ok (powerRZ b z)
       | None => Raise TypeError
       end.

(** The builtins [min(a, b)] and [max(a, b)]: the first argument wins ties. *)
Definition py_min (a b : R) : R := if Rlt_dec b a then b else a.
Definition py_max (a b : R) : R := if Rlt_dec a b then b else a.

(** *** Models and the EMA object *)

(** A tensor, as the list of its entries; its length stands for its
    shape. *)
Abbreviation weights := (list R) (only parsing).

Record Param : Type := {
  data : weights;
  requires_grad : bool;
  ndim : nat
}.

(** A live module, as [step] sees it: [named_parameters()] and
    [named_buffers()], in order. *)
Record Model : Type := {
  named_parameters : list (string * Param);
  named_buffers : list (string * weights)
}.

(** [EMAModel]: [averaged_model] is the shadow module, given by the entries
    of its [state_dict()] (parameters and persistent buffers by name). *)
Record EMAModel : Type := {
  averaged_model : gmap string weights;
  update_after_step : Z;
  inv_gamma : R;
  power : R;
  min_value : R;
  max_value : R;
  decay : R;
  optimization_step : Z
}.

(** [copy.deepcopy(model)]: the shadow starts with the values of the
    parameters and buffers of the model. *)
Definition state_dict (m : Model) : gmap string weights :=
  list_to_map (map (fun kp => (fst kp, data (snd kp))) (named_parameters m)
               ++ named_buffers m).

(** [EMAModel.__init__]. *)
Definition init (model : Model) (update_after_step : Z)
    (inv_gamma power min_value max_value : R) : EMAModel :=
  {| averaged_model := state_dict model;
     update_after_step := update_after_step;
     inv_gamma := inv_gamma;
     power := power;
     min_value := min_value;
     max_value := max_value;
     decay := 0;
     optimization_step := 0 |}.

(** [EMAModel(model)] with the default arguments. *)
Definition init_default (model : Model) : EMAModel :=
  init model 0 1 (2 / 3) 0 0.9999.

(** [EMAModel.get_decay]: [value] is computed before the [step <= 0] test. *)
Definition get_decay (self : EMAModel) (optimization_step : Z) : result R :=
  let step := Z.max 0 (optimization_step - update_after_step self - 1) in
  q ← py_div (IZR step) (inv_gamma self);
  p ← py_pow (1 + q) (- power self);
  let value := 1 - p in
  if (step <=? 0)%Z then Ok 0
  else Ok (py_max (min_value self) (py_min value (max_value self))).

(** The source of an in-place operation is broadcast to the shape of its
    destination: on tensors of one dimension it has as many entries as
    the destination, or a single entry that stands for all of them; any
    other source is rejected. *)
Definition broadcast_to (n : nat) (src : weights) : result weights :=
  if Nat.eqb (length src) n then Ok src
  else match src with
       | [v] => Ok (repeat v n)
       | _ => Raise RuntimeError
       end.

(** In-place tensor operations; each returns the new content of the
    destination. *)
Definition copy_ (dst src : weights) : result weights :=
  broadcast_to (length dst) src.

Definition mul_ (t : weights) (c : R) : weights := map (fun v => v * c) t.

Definition add_ (t other : weights) (alpha : R) : result weights :=
  other ← broadcast_to (length t) other;
  Ok (zip_with (fun a b => a + alpha * b) t other).

Definition float_clone (t : weights) : weights := t.
Definition deepcopy (t : weights) : weights := t.

(** The body of the loop over [new_model.named_parameters()].  The state
    is the pair [(ema_params, ema_state_dict)]: [ema_params] holds the
    tensors reachable from [averaged_model.state_dict()], which alias the
    shadow's own storage, so an in-place update is an update of its entry. *)
Definition step_param (decay : R)
    (st : gmap string weights * gmap string weights) (kp : string * Param)
  : result (gmap string weights * gmap string weights) :=
  let '(ema_params, ema_state_dict) := st in
  let '(key, param) := kp in
  let ema_params :=
    match ema_params !! key with
    | Some _ => ema_params
    | None =>
        <[key := if Nat.eqb (ndim param) 1 then float_clone (data param)
                 else deepcopy (data param)]> ema_params
    end in
  let ema_param := default [] (ema_params !! key) in
  if negb (requires_grad param) then
    new ← copy_ ema_param (data param);
    Ok (<[key := new]> ema_params, <[key := new]> ema_state_dict)
  else
    new ← add_ (mul_ ema_param decay) (data param) (1 - decay);
    Ok (<[key := new]> ema_params, <[key := new]> ema_state_dict).

(** The loop over [new_model.named_buffers()]. *)
Definition step_buffer (ema_state_dict : gmap string weights)
    (kb : string * weights) : gmap string weights :=
  <[fst kb := snd kb]> ema_state_dict.

Definition sizes_match (own sd : gmap string weights) : bool :=
  forallb (fun kc : string * weights =>
             match sd !! fst kc with
             | Some v => Nat.eqb (length v) (length (snd kc))
             | None => true
             end) (map_to_list own).

(** [module.load_state_dict(sd, strict=False)] on a module whose own
    entries are [own]: every own entry that [sd] names takes the value in
    [sd] (a size mismatch is a [RuntimeError]); keys of [sd] the module
    does not have are ignored, and own entries [sd] lacks are kept. *)
Definition load_state_dict (own sd : gmap string weights)
  : result (gmap string weights) :=
  if sizes_match own sd
  then Ok (map_imap (fun k cur => Some (default cur (sd !! k))) own)
  else Raise RuntimeError.

(** [EMAModel.step]. *)
Definition step (self : EMAModel) (new_model : Model) : result EMAModel :=
  let ema_state_dict : gmap string weights := ∅ in
  let ema_params := averaged_model self in
  decay ← get_decay self (optimization_step self);
  st ← foldM (step_param decay) (ema_params, ema_state_dict)
         (named_parameters new_model);
  let '(ema_params, ema_state_dict) := st in
  let ema_state_dict :=
    fold_left step_buffer (named_buffers new_model) ema_state_dict in
  let own := map_imap (fun k _ => ema_params !! k) (averaged_model self) in
  loaded ← load_state_dict own ema_state_dict;
  Ok {| averaged_model := loaded;
        update_after_step := update_after_step self;
        inv_gamma := inv_gamma self;
        power := power self;
        min_value := min_value self;
        max_value := max_value self;
        decay := decay;
        optimization_step := optimization_step self + 1 |}.

(** The reading of the specification: [clamp] and the blended value. *)
Definition clamp (v lo hi : R) : R := Rmax lo (Rmin v hi).

Definition blend (d : R) (shadow new_param : weights) : weights :=
  zip_with (fun s n => s * d + n * (1 - d)) shadow new_param.

(** *** The decay schedule *)

Lemma py_div_ok a b : b <> 0 -> py_div a b = Ok (a / b).
Proof. intros Hb. unfold py_div. destruct (Req_dec_T b 0); [contradiction|reflexivity]. Qed.

Lemma py_div_zero a : py_div a 0 = Raise ZeroDivisionError.
Proof. unfold py_div. destruct (Req_dec_T 0 0); [reflexivity|contradiction]. Qed.

Lemma py_pow_pos b e : 0 < b -> py_pow b e = Ok (Rpower b e).
Proof. intros Hb. unfold py_pow. destruct (Rlt_dec 0 b); [reflexivity|contradiction]. Qed.

Lemma py_min_Rmin a b : py_min a b = Rmin a b.
Proof.
  unfold py_min, Rmin. destruct (Rlt_dec b a), (Rle_dec a b); try reflexivity; lra.
Qed.

Lemma py_max_Rmax a b : py_max a b = Rmax a b.
Proof.
  unfold py_max, Rmax. destruct (Rlt_dec a b), (Rle_dec a b); try reflexivity; lra.
Qed.

Lemma get_decay_warmup self s :
  inv_gamma self <> 0 ->
  (Z.max 0 (s - update_after_step self - 1) <= 0)%Z ->
  get_decay self s = Ok 0.
Proof.
  intros Hg Hs. unfold get_decay.
  assert (Hz : Z.max 0 (s - update_after_step self - 1) = 0%Z) by lia.
  rewrite Hz. rewrite py_div_ok by assumption. cbn [mbind result_bind bind].
  rewrite py_pow_pos by (unfold Rdiv; rewrite Rmult_0_l; lra).
  reflexivity.
Qed.

Lemma get_decay_running self s :
  let step := Z.max 0 (s - update_after_step self - 1) in
  inv_gamma self <> 0 ->
  (0 < step)%Z ->
  0 < 1 + IZR step / inv_gamma self ->
  get_decay self s
  = Ok (clamp (1 - Rpower (1 + IZR step / inv_gamma self) (- power self))
              (min_value self) (max_value self)).
Proof.
  intros step Hg Hs Hb. unfold get_decay. fold step.
  rewrite py_div_ok by assumption. cbn [mbind result_bind bind].
  rewrite py_pow_pos by assumption. cbn [mbind result_bind bind].
  destruct (Z.leb_spec step 0); [lia|].
  now rewrite py_min_Rmin, py_max_Rmax.
Qed.

Lemma get_decay_zero_inv_gamma self s :
  inv_gamma self = 0 -> get_decay self s = Raise ZeroDivisionError.
Proof. intros Hg. unfold get_decay. rewrite Hg, py_div_zero. reflexivity. Qed.

(** The closed form of the decay under the default arguments. *)
Definition default_decay (s : Z) : R :=
  let step := Z.max 0 (s - 1) in
  if (step <=? 0)%Z then 0
  else clamp (1 - Rpower (1 + IZR step) (- (2 / 3))) 0 0.9999.

Lemma get_decay_default model s :
  get_decay (init_default model) s = Ok (default_decay s).
Proof.
  unfold default_decay.
  destruct (Z.leb_spec (Z.max 0 (s - 1)) 0) as [Hle|Hlt].
  - apply get_decay_warmup; simpl; [lra|lia].
  - pose proof (get_decay_running (init_default model) s) as H.
    simpl in H. replace (s - 0 - 1)%Z with (s - 1)%Z in H by lia.
    assert (Hpos : 0 < IZR (Z.max 0 (s - 1))) by (apply IZR_lt; lia).
    rewrite H; [|lra|lia|].
    + do 3 f_equal. f_equal. field.
    + unfold Rdiv. rewrite Rinv_1. lra.
Qed.

Lemma clamp_bounds v lo hi : lo <= hi -> lo <= clamp v lo hi <= hi.
Proof.
  intros H. unfold clamp. split; [apply Rmax_l|].
  apply Rmax_lub; [assumption | apply Rmin_r].
Qed.

Lemma clamp_mono v w lo hi : v <= w -> clamp v lo hi <= clamp w lo hi.
Proof.
  intros H. unfold clamp.
  apply Rle_max_compat_l. apply Rle_min_compat_r. assumption.
Qed.

Lemma Rpower_neg_antitone a b p :
  0 <= p -> 0 < a -> a <= b -> Rpower b (- p) <= Rpower a (- p).
Proof.
  intros Hp Ha Hab. rewrite !Rpower_Ropp.
  apply Rinv_le_contravar; [apply exp_pos|].
  apply Rle_Rpower_l; [assumption | split; assumption].
Qed.

Lemma default_decay_bounds s : 0 <= default_decay s <= 0.9999.
Proof.
  unfold default_decay. destruct (Z.leb_spec (Z.max 0 (s - 1)) 0); [lra|].
  apply clamp_bounds. lra.
Qed.

Lemma default_decay_mono s1 s2 :
  (s1 <= s2)%Z -> default_decay s1 <= default_decay s2.
Proof.
  intros Hs. pose proof (default_decay_bounds s2) as Hb2.
  unfold default_decay in *.
  destruct (Z.leb_spec (Z.max 0 (s1 - 1)) 0) as [H1|H1]; [lra|].
  destruct (Z.leb_spec (Z.max 0 (s2 - 1)) 0) as [H2|H2]; [lia|].
  apply clamp_mono.
  assert (H01 : 0 < IZR (Z.max 0 (s1 - 1))) by (apply IZR_lt; lia).
  assert (H12 : IZR (Z.max 0 (s1 - 1)) <= IZR (Z.max 0 (s2 - 1)))
    by (apply IZR_le; lia).
  pose proof (Rpower_neg_antitone (1 + IZR (Z.max 0 (s1 - 1)))
                (1 + IZR (Z.max 0 (s2 - 1))) (2 / 3)
                ltac:(lra) ltac:(lra) ltac:(lra)).
  lra.
Qed.

(** C7, as amended.  When [inv_gamma] is not zero, [get_decay] returns
    0.0 while [step <= 0]; when moreover the base [1 + step/inv_gamma] is
    positive it returns the clamped warm-up value
    [1 - (1 + step/inv_gamma)^(-power)] for [step > 0].  Python evaluates
    that expression before the test on [step], so it has to be defined at
    every step.  With the default arguments [get_decay 0 = 0.0], the
    decay never exceeds 0.9999 and it is non-decreasing in the
    optimisation step. *)
Theorem get_decay_schedule :
  (forall (self : EMAModel) (s : Z),
      let step := Z.max 0 (s - update_after_step self - 1) in
      inv_gamma self <> 0 ->
      ((step <= 0)%Z -> get_decay self s = Ok 0)
      /\ ((0 < step)%Z -> 0 < 1 + IZR step / inv_gamma self ->
          get_decay self s
          = Ok (clamp (1 - Rpower (1 + IZR step / inv_gamma self) (- power self))
                      (min_value self) (max_value self))))
  /\ (forall model, get_decay (init_default model) 0 = Ok 0)
  /\ (forall model s,
        exists d, get_decay (init_default model) s = Ok d /\ 0 <= d <= 0.9999)
  /\ (forall model s1 s2 d1 d2,
        (s1 <= s2)%Z ->
        get_decay (init_default model) s1 = Ok d1 ->
        get_decay (init_default model) s2 = Ok d2 ->
        d1 <= d2).
Proof.
  split; [|split; [|split]].
  - intros self s step Hg. split.
    + intros Hs. now apply get_decay_warmup.
    + intros Hs Hb. now apply get_decay_running.
  - intros model. rewrite get_decay_default. reflexivity.
  - intros model s. exists (default_decay s).
    split; [apply get_decay_default | apply default_decay_bounds].
  - intros model s1 s2 d1 d2 Hs H1 H2.
    rewrite get_decay_default in H1, H2.
    injection H1 as <-. injection H2 as <-.
    now apply default_decay_mono.
Qed.

Definition empty_model : Model :=
  {| named_parameters := []; named_buffers := [] |}.

(** The general part at the default arguments, five steps in. *)
Lemma get_decay_schedule_witness :
  get_decay (init_default empty_model) 5
  = Ok (clamp (1 - Rpower (1 + IZR 4 / 1) (- (2 / 3))) 0 0.9999).
Proof.
  destruct get_decay_schedule as [Hgen _].
  destruct (Hgen (init_default empty_model) 5%Z) as [_ Hrun].
  - simpl. lra.
  - apply Hrun.
    + simpl. lia.
    + change (0 < 1 + IZR 4 / 1). lra.
Defined.

(** C7 as first stated fails where the warm-up expression is undefined.
    With [inv_gamma = 0] the division raises at step 0, where 0.0 was to
    be returned; with [inv_gamma = -1] the base is 0 at step 2 (the
    first step past the warm-up), and raising it to a negative power
    raises where the clamped value was to be returned. *)
Lemma get_decay_undefined_warmup :
  let frozen := init empty_model 0 0 (2 / 3) 0 0.9999 in
  let reversed := init empty_model 0 (-1) (2 / 3) 0 0.9999 in
  ((Z.max 0 (0 - update_after_step frozen - 1) <= 0)%Z
   /\ get_decay frozen 0 = Raise ZeroDivisionError
   /\ get_decay frozen 0 <> Ok 0)
  /\ ((0 < Z.max 0 (2 - update_after_step reversed - 1))%Z
      /\ get_decay reversed 2 = Raise ZeroDivisionError
      /\ get_decay reversed 2
         <> Ok (clamp (1 - Rpower (1 + IZR 1 / inv_gamma reversed)
                                  (- power reversed))
                      (min_value reversed) (max_value reversed))).
Proof.
  cbv zeta.
  assert (H0 : get_decay (init empty_model 0 0 (2 / 3) 0 0.9999) 0
               = Raise ZeroDivisionError)
    by (apply get_decay_zero_inv_gamma; reflexivity).
  assert (H1 : get_decay (init empty_model 0 (-1) (2 / 3) 0 0.9999) 2
               = Raise ZeroDivisionError).
  { unfold get_decay. cbn [update_after_step inv_gamma power init].
    change (Z.max 0 (2 - 0 - 1)) with 1%Z.
    rewrite py_div_ok by lra. cbn [mbind result_bind bind].
    replace (1 + 1 / -1) with 0 by lra.
    unfold py_pow.
    destruct (Rlt_dec 0 0) as [H|_]; [lra|].
    destruct (Req_dec_T 0 0) as [_|H]; [|contradiction].
    destruct (Rlt_dec (- (2 / 3)) 0) as [_|H]; [reflexivity | lra]. }
  split; (split; [simpl; lia|]).
  - split; [exact H0 | rewrite H0; discriminate].
  - split; [exact H1 | rewrite H1; discriminate].
Qed.

(** *** One call of [step] *)

(** The tensor a parameter is blended into: the shadow's, or the seed made
    from the parameter itself when the shadow has none of that name. *)
Definition start_value (P : gmap string weights) (k : string) (p : Param)
  : weights := default (data p) (P !! k).

Definition updated (d : R) (old : weights) (p : Param) : weights :=
  if requires_grad p then blend d old (data p) else data p.

Lemma broadcast_to_same n (src : weights) :
  length src = n -> broadcast_to n src = Ok src.
Proof. intros H. unfold broadcast_to. now rewrite H, Nat.eqb_refl. Qed.

Lemma length_broadcast_to n (src out : weights) :
  broadcast_to n src = Ok out -> length out = n.
Proof.
  unfold broadcast_to. destruct (Nat.eqb_spec (length src) n) as [H|H].
  - now intros [= <-].
  - destruct src as [|v [|w src]]; try discriminate.
    intros [= <-]. apply repeat_length.
Qed.

(** What an in-place operation on [old] reads from the source [src],
    and the sources it accepts. *)
Definition expanded (old src : weights) : weights :=
  match broadcast_to (length old) src with
  | Ok s => s
  | Raise _ => src
  end.

Definition broadcastable (old src : weights) : Prop :=
  length src = length old \/ length src = 1%nat.

Lemma broadcast_to_expanded old src :
  broadcastable old src ->
  broadcast_to (length old) src = Ok (expanded old src).
Proof.
  unfold expanded, broadcast_to. intros [H|H].
  - now rewrite H, Nat.eqb_refl.
  - destruct (length src =? length old); [reflexivity|].
    destruct src as [|v [|w src]]; simpl in H; try discriminate. reflexivity.
Qed.

Lemma broadcast_to_inv old src out :
  broadcast_to (length old) src = Ok out -> broadcastable old src.
Proof.
  unfold broadcast_to, broadcastable.
  destruct (Nat.eqb_spec (length src) (length old)) as [H|H]; [now left|].
  destruct src as [|v [|w src]]; try discriminate. now right.
Qed.

Lemma broadcast_to_fails n src :
  (exists out, broadcast_to n src = Ok out)
  \/ broadcast_to n src = Raise RuntimeError.
Proof.
  unfold broadcast_to. destruct (length src =? n); [left; eauto|].
  destruct src as [|v [|w src]]; eauto.
Qed.

Lemma expanded_same old src : length src = length old -> expanded old src = src.
Proof. intros H. unfold expanded. now rewrite broadcast_to_same. Qed.

Lemma expanded_single old v : expanded old [v] = repeat v (length old).
Proof.
  unfold expanded, broadcast_to. cbn [length].
  destruct (Nat.eqb_spec 1 (length old)) as [H|H]; [|reflexivity].
  now rewrite <- H.
Qed.

(** The value a parameter leaves in the shadow, its source broadcast. *)
Definition updated_from (d : R) (old : weights) (p : Param) : weights :=
  if requires_grad p then blend d old (expanded old (data p))
  else expanded old (data p).

Lemma updated_from_same d old p :
  length old = length (data p) -> updated_from d old p = updated d old p.
Proof.
  intros H. unfold updated_from, updated.
  now rewrite expanded_same by (symmetry; exact H).
Qed.

Lemma zip_mul_blend d (old src : weights) :
  zip_with (fun a b => a + (1 - d) * b) (map (fun v => v * d) old) src
  = blend d old src.
Proof.
  unfold blend. revert src.
  induction old as [|a old IH]; intros [|b src]; simpl; try reflexivity.
  rewrite IH. f_equal. apply Rplus_eq_compat_l, Rmult_comm.
Qed.

Lemma add_mul_broadcast d old n :
  broadcastable old n ->
  add_ (mul_ old d) n (1 - d) = Ok (blend d old (expanded old n)).
Proof.
  intros H. unfold add_, mul_.
  rewrite length_map, (broadcast_to_expanded old n H).
  cbn [mbind result_bind bind]. f_equal. apply zip_mul_blend.
Qed.

Lemma add_mul_blend d old n :
  length old = length n -> add_ (mul_ old d) n (1 - d) = Ok (blend d old n).
Proof.
  intros Hlen. rewrite add_mul_broadcast by (left; symmetry; exact Hlen).
  now rewrite expanded_same by (symmetry; exact Hlen).
Qed.

Lemma copy_broadcast dst src :
  broadcastable dst src -> copy_ dst src = Ok (expanded dst src).
Proof. intros H. unfold copy_. now apply broadcast_to_expanded. Qed.

Lemma copy_same_length dst src :
  length dst = length src -> copy_ dst src = Ok src.
Proof. intros H. unfold copy_. now apply broadcast_to_same. Qed.

Lemma step_param_ok d (P S : gmap string weights) k p :
  broadcastable (start_value P k p) (data p) ->
  step_param d (P, S) (k, p)
  = Ok (<[k := updated_from d (start_value P k p) p]> P,
        <[k := updated_from d (start_value P k p) p]> S).
Proof.
  unfold start_value, updated_from, step_param. intros Hb.
  destruct (P !! k) as [old|] eqn:HP; simpl in Hb.
  - cbv zeta. rewrite HP. simpl. destruct (requires_grad p); simpl.
    + now rewrite add_mul_broadcast.
    + now rewrite copy_broadcast.
  - replace (if Nat.eqb (ndim p) 1 then float_clone (data p) else deepcopy (data p))
      with (data p) by (destruct (Nat.eqb (ndim p) 1); reflexivity).
    cbv zeta. rewrite lookup_insert_eq. simpl. destruct (requires_grad p); simpl.
    + rewrite add_mul_broadcast by assumption. simpl.
      now rewrite insert_insert_eq.
    + rewrite copy_broadcast by assumption. simpl.
      now rewrite insert_insert_eq.
Qed.

Lemma fold_params d (l : list (string * Param)) :
  forall P S : gmap string weights,
  NoDup l.*1 ->
  (forall k p, (k, p) ∈ l -> broadcastable (start_value P k p) (data p)) ->
  exists P' S',
    foldM (step_param d) (P, S) l = Ok (P', S')
    /\ (forall k, k ∉ l.*1 -> P' !! k = P !! k /\ S' !! k = S !! k)
    /\ (forall k p, (k, p) ∈ l ->
          P' !! k = Some (updated_from d (start_value P k p) p)
          /\ S' !! k = Some (updated_from d (start_value P k p) p)).
Proof.
  induction l as [|[k0 p0] l IH]; intros P S Hnd Hlen.
  - exists P, S. split; [reflexivity|]. split; [auto|].
    intros k p Hin. inversion Hin.
  - rewrite fmap_cons in Hnd. apply NoDup_cons in Hnd as [Hk0 Hnd]. simpl in Hk0.
    set (v := updated_from d (start_value P k0 p0) p0).
    destruct (IH (<[k0 := v]> P) (<[k0 := v]> S) Hnd) as (P' & S' & Hrun & Hout & Hin).
    { intros k p Hkp. unfold start_value.
      assert (k <> k0).
      { intros ->. apply Hk0. apply list_elem_of_fmap. exists (k0, p). auto. }
      rewrite lookup_insert_ne by auto.
      apply Hlen. now right. }
    exists P', S'. split; [|split].
    + cbn [foldM]. rewrite step_param_ok by (apply Hlen; left).
      cbn [mbind result_bind bind]. exact Hrun.
    + intros k Hk. rewrite fmap_cons in Hk. simpl in Hk.
      apply not_elem_of_cons in Hk as [Hne Hk].
      destruct (Hout k Hk) as [HP HS].
      rewrite HP, HS, !lookup_insert_ne by auto. auto.
    + intros k p Hkp. apply elem_of_cons in Hkp as [Heq|Hkp].
      * injection Heq as -> ->.
        destruct (Hout k0 Hk0) as [HP HS].
        now rewrite HP, HS, !lookup_insert_eq.
      * assert (k <> k0).
        { intros ->. apply Hk0. apply list_elem_of_fmap. exists (k0, p). auto. }
        destruct (Hin k p Hkp) as [HP HS].
        unfold start_value in HP, HS.
        rewrite lookup_insert_ne in HP, HS by auto. auto.
Qed.

Lemma fold_buffers (l : list (string * weights)) :
  forall S : gmap string weights,
  NoDup l.*1 ->
  (forall k, k ∉ l.*1 -> fold_left step_buffer l S !! k = S !! k)
  /\ (forall k b, (k, b) ∈ l -> fold_left step_buffer l S !! k = Some b).
Proof.
  induction l as [|[k0 b0] l IH]; intros S Hnd.
  - split; [reflexivity|]. intros k b Hin. inversion Hin.
  - rewrite fmap_cons in Hnd. apply NoDup_cons in Hnd as [Hk0 Hnd]. simpl in Hk0.
    destruct (IH (step_buffer S (k0, b0)) Hnd) as [Hout Hin].
    unfold step_buffer in Hout, Hin. simpl in Hout, Hin. split.
    + intros k Hk. rewrite fmap_cons in Hk. simpl in Hk.
      apply not_elem_of_cons in Hk as [Hne Hk]. simpl.
      rewrite Hout by assumption. unfold step_buffer. simpl.
      now rewrite lookup_insert_ne by auto.
    + intros k b Hkb. apply elem_of_cons in Hkb as [Heq|Hkb]; simpl.
      * injection Heq as -> ->. rewrite Hout by assumption.
        unfold step_buffer. simpl. now rewrite lookup_insert_eq.
      * now apply Hin.
Qed.

Lemma sizes_match_intro (own sd : gmap string weights) :
  (forall k cur v, own !! k = Some cur -> sd !! k = Some v ->
                   length v = length cur) ->
  sizes_match own sd = true.
Proof.
  intros H. unfold sizes_match. apply forallb_forall.
  intros [k cur] Hin. apply list_elem_of_In, elem_of_map_to_list in Hin. simpl.
  destruct (sd !! k) as [v|] eqn:Hsd; [|reflexivity].
  apply Nat.eqb_eq. eauto.
Qed.

Lemma load_state_dict_lookup (own sd loaded : gmap string weights) k :
  load_state_dict own sd = Ok loaded ->
  loaded !! k = match own !! k with
                | Some cur => Some (default cur (sd !! k))
                | None => None
                end.
Proof.
  unfold load_state_dict. destruct (sizes_match own sd); [|discriminate].
  intros [= <-]. rewrite map_lookup_imap.
  destruct (own !! k); reflexivity.
Qed.

(** Names of the live model are unique, as torch guarantees. *)
Definition unique_names (m : Model) : Prop :=
  NoDup ((named_parameters m).*1 ++ (named_buffers m).*1).

(** Every tensor the shadow shares a name with has the shape of the live
    one. *)
Definition same_shapes (shadow : gmap string weights) (m : Model) : Prop :=
  (forall k p old, (k, p) ∈ named_parameters m -> shadow !! k = Some old ->
                   length old = length (data p))
  /\ (forall k b old, (k, b) ∈ named_buffers m -> shadow !! k = Some old ->
                      length old = length b).

(** Every live parameter the shadow shares a name with can be broadcast
    to the shadow's tensor, and every shared buffer has its shape. *)
Definition shapes_fit (shadow : gmap string weights) (m : Model) : Prop :=
  (forall k p old, (k, p) ∈ named_parameters m -> shadow !! k = Some old ->
                   broadcastable old (data p))
  /\ (forall k b old, (k, b) ∈ named_buffers m -> shadow !! k = Some old ->
                      length b = length old).

Lemma same_shapes_fit (shadow : gmap string weights) (m : Model) :
  same_shapes shadow m -> shapes_fit shadow m.
Proof.
  intros [Hp Hb]. split.
  - intros k p old Hkp Hold. left. symmetry. eauto.
  - intros k b old Hkb Hold. symmetry. eauto.
Qed.

(** What one call of [step] leaves in the shadow, name by name. *)
Lemma step_spec_broadcast (self : EMAModel) (m : Model) (d : R) :
  get_decay self (optimization_step self) = Ok d ->
  unique_names m ->
  shapes_fit (averaged_model self) m ->
  exists self',
    step self m = Ok self'
    /\ optimization_step self' = (optimization_step self + 1)%Z
    /\ decay self' = d
    /\ (forall k p old, (k, p) ∈ named_parameters m ->
          averaged_model self !! k = Some old ->
          averaged_model self' !! k = Some (updated_from d old p))
    /\ (forall k b old, (k, b) ∈ named_buffers m ->
          averaged_model self !! k = Some old ->
          averaged_model self' !! k = Some b)
    /\ (forall k, averaged_model self !! k = None ->
          averaged_model self' !! k = None)
    /\ (forall k, k ∉ (named_parameters m).*1 -> k ∉ (named_buffers m).*1 ->
          averaged_model self' !! k = averaged_model self !! k).
Proof.
  intros Hd Hnd [Hsp Hsb].
  apply NoDup_app in Hnd as (Hndp & Hdisj & Hndb).
  destruct (fold_params d (named_parameters m) (averaged_model self) ∅ Hndp)
    as (P' & S' & Hrun & Hout & Hin).
  { intros k p Hkp. unfold start_value.
    destruct (averaged_model self !! k) as [old|] eqn:Hk; simpl;
      [eauto | now left]. }
  destruct (fold_buffers (named_buffers m) S' Hndb) as [Hbout Hbin].
  set (S'' := fold_left step_buffer (named_buffers m) S') in *.
  set (own := map_imap (fun k _ => P' !! k) (averaged_model self)).
  assert (Hown : forall k, own !! k
                           = match averaged_model self !! k with
                             | Some _ => P' !! k
                             | None => None
                             end).
  { intros k. unfold own. rewrite map_lookup_imap.
    destruct (averaged_model self !! k); reflexivity. }
  assert (Hparam : forall k p old, (k, p) ∈ named_parameters m ->
            averaged_model self !! k = Some old ->
            own !! k = Some (updated_from d old p)
            /\ S'' !! k = Some (updated_from d old p)).
  { intros k p old Hkp Hk. destruct (Hin k p Hkp) as [HP HS].
    unfold start_value in HP, HS. rewrite Hk in HP, HS. simpl in HP, HS.
    rewrite Hown, Hk. split; [assumption|].
    rewrite Hbout; [assumption|].
    apply Hdisj. apply list_elem_of_fmap. exists (k, p). auto. }
  assert (Hbuf : forall k b old, (k, b) ∈ named_buffers m ->
            averaged_model self !! k = Some old ->
            own !! k = Some old /\ S'' !! k = Some b).
  { intros k b old Hkb Hk. split; [|now apply Hbin].
    rewrite Hown, Hk.
    destruct (Hout k) as [HP _]; [|now rewrite HP].
    intros Hkp. apply (Hdisj k Hkp).
    apply list_elem_of_fmap. exists (k, b). auto. }
  assert (Hother : forall k, k ∉ (named_parameters m).*1 ->
            k ∉ (named_buffers m).*1 ->
            own !! k = averaged_model self !! k /\ S'' !! k = None).
  { intros k Hkp Hkb. destruct (Hout k Hkp) as [HP HS].
    rewrite Hown, HP, Hbout, HS by assumption.
    split; [destruct (averaged_model self !! k); reflexivity | apply lookup_empty]. }
  assert (Hcases : forall k,
            (exists p, (k, p) ∈ named_parameters m)
            \/ (exists b, (k, b) ∈ named_buffers m)
            \/ ((k ∉ (named_parameters m).*1) /\ (k ∉ (named_buffers m).*1))).
  { intros k.
    destruct (decide (k ∈ (named_parameters m).*1)) as [H1|H1].
    - left. apply list_elem_of_fmap in H1 as [[k' p] [-> H1]]. eauto.
    - destruct (decide (k ∈ (named_buffers m).*1)) as [H2|H2].
      + right. left. apply list_elem_of_fmap in H2 as [[k' b] [-> H2]]. eauto.
      + right. right. auto. }
  assert (Hsizes : sizes_match own S'' = true).
  { apply sizes_match_intro. intros k cur v Hc Hv.
    pose proof (Hown k) as Hk. rewrite Hc in Hk.
    destruct (averaged_model self !! k) as [old|] eqn:Hold; [|discriminate].
    destruct (Hcases k) as [[p Hp]|[[b Hb]|[H1 H2]]].
    - destruct (Hparam k p old Hp Hold) as [E1 E2]. congruence.
    - destruct (Hbuf k b old Hb Hold) as [E1 E2].
      assert (v = b) by congruence. assert (cur = old) by congruence.
      subst. eauto.
    - destruct (Hother k H1 H2) as [_ E2]. congruence. }
  assert (Hload : exists loaded, load_state_dict own S'' = Ok loaded).
  { unfold load_state_dict. rewrite Hsizes. eauto. }
  destruct Hload as [loaded Hload].
  pose proof (fun k => load_state_dict_lookup own S'' loaded k Hload) as Hlk.
  eexists. split.
  { unfold step. rewrite Hd. cbn [mbind result_bind bind].
    rewrite Hrun. cbn [mbind result_bind bind].
    fold S''. fold own. rewrite Hload. cbn [mbind result_bind bind].
    reflexivity. }
  cbn [optimization_step decay averaged_model].
  split; [reflexivity|]. split; [reflexivity|].
  split; [|split; [|split]].
  - intros k p old Hp Hold. destruct (Hparam k p old Hp Hold) as [E1 E2].
    now rewrite Hlk, E1, E2.
  - intros k b old Hb Hold. destruct (Hbuf k b old Hb Hold) as [E1 E2].
    now rewrite Hlk, E1, E2.
  - intros k Hnone. now rewrite Hlk, Hown, Hnone.
  - intros k H1 H2. destruct (Hother k H1 H2) as [E1 E2].
    rewrite Hlk, E1, E2. destruct (averaged_model self !! k); reflexivity.
Qed.

Lemma step_spec (self : EMAModel) (m : Model) (d : R) :
  get_decay self (optimization_step self) = Ok d ->
  unique_names m ->
  same_shapes (averaged_model self) m ->
  exists self',
    step self m = Ok self'
    /\ optimization_step self' = (optimization_step self + 1)%Z
    /\ decay self' = d
    /\ (forall k p old, (k, p) ∈ named_parameters m ->
          averaged_model self !! k = Some old ->
          averaged_model self' !! k = Some (updated d old p))
    /\ (forall k b old, (k, b) ∈ named_buffers m ->
          averaged_model self !! k = Some old ->
          averaged_model self' !! k = Some b)
    /\ (forall k, averaged_model self !! k = None ->
          averaged_model self' !! k = None)
    /\ (forall k, k ∉ (named_parameters m).*1 -> k ∉ (named_buffers m).*1 ->
          averaged_model self' !! k = averaged_model self !! k).
Proof.
  intros Hd Hnd Hsh.
  destruct (step_spec_broadcast self m d Hd Hnd (same_shapes_fit _ _ Hsh))
    as (self' & Hrun & Hc & Hdec & Hpar & Hrest).
  exists self'. split; [assumption|]. split; [assumption|].
  split; [assumption|]. split; [|exact Hrest].
  intros k p old Hkp Hold. rewrite (Hpar k p old Hkp Hold).
  destruct Hsh as [Hsp _]. now rewrite (updated_from_same d old p (Hsp k p old Hkp Hold)).
Qed.

Lemma blend_zero (old n : weights) :
  length old = length n -> blend 0 old n = n.
Proof.
  unfold blend. revert n. induction old as [|a old IH]; intros [|b n] Hlen;
    simpl in *; try reflexivity; try discriminate.
  rewrite IH by lia. f_equal. lra.
Qed.

(** C10, as amended.  On the first call ([optimization_step = 0],
    [update_after_step] at its default 0) with an [inv_gamma] that is not
    zero, the decay is 0.0, so a trainable parameter is blended as
    [shadow * 0 + new_param * 1]: after the call every shadow entry of a
    trainable live parameter equals that parameter. *)
Theorem first_step_copies_trainable (self : EMAModel) (m : Model) :
  optimization_step self = 0%Z ->
  update_after_step self = 0%Z ->
  inv_gamma self <> 0 ->
  unique_names m ->
  same_shapes (averaged_model self) m ->
  exists self',
    step self m = Ok self'
    /\ decay self' = 0
    /\ forall k p old,
         (k, p) ∈ named_parameters m ->
         requires_grad p = true ->
         averaged_model self !! k = Some old ->
         averaged_model self' !! k = Some (blend 0 old (data p))
         /\ averaged_model self' !! k = Some (data p).
Proof.
  intros Hstep Huas Hg Hnd Hsh.
  assert (Hd : get_decay self (optimization_step self) = Ok 0).
  { apply get_decay_warmup; [assumption|]. rewrite Hstep, Huas. lia. }
  destruct (step_spec self m 0 Hd Hnd Hsh)
    as (self' & Hrun & _ & Hdec & Hpar & _).
  exists self'. split; [assumption|]. split; [assumption|].
  intros k p old Hkp Hrg Hold.
  rewrite (Hpar k p old Hkp Hold). unfold updated. rewrite Hrg.
  split; [reflexivity|].
  rewrite blend_zero; [reflexivity|].
  destruct Hsh as [Hsp _]. eauto.
Qed.

(** A tracked model with one trainable weight and one buffer, and the same
    model after an optimiser step. *)
Definition tracked_model : Model :=
  {| named_parameters :=
       [("w"%string, {| data := [1; 2]; requires_grad := true; ndim := 1 |})];
     named_buffers := [("n"%string, [3])] |}.

Definition trained_model : Model :=
  {| named_parameters :=
       [("w"%string, {| data := [5; 6]; requires_grad := true; ndim := 1 |})];
     named_buffers := [("n"%string, [7])] |}.

Lemma unique_names_trained : unique_names trained_model.
Proof.
  unfold unique_names. simpl.
  apply NoDup_cons. split; [|apply NoDup_singleton].
  intros H. apply list_elem_of_singleton in H. discriminate.
Qed.

Lemma same_shapes_trained :
  same_shapes (averaged_model (init_default tracked_model)) trained_model.
Proof.
  split.
  - intros k p old Hkp Hold. apply list_elem_of_singleton in Hkp.
    injection Hkp as -> ->. vm_compute in Hold. injection Hold as <-.
    reflexivity.
  - intros k b old Hkb Hold. apply list_elem_of_singleton in Hkb.
    injection Hkb as -> ->. vm_compute in Hold. injection Hold as <-.
    reflexivity.
Qed.

Lemma first_step_copies_trainable_witness :
  exists self',
    step (init_default tracked_model) trained_model = Ok self'
    /\ decay self' = 0
    /\ forall k p old,
         (k, p) ∈ named_parameters trained_model ->
         requires_grad p = true ->
         averaged_model (init_default tracked_model) !! k = Some old ->
         averaged_model self' !! k = Some (blend 0 old (data p))
         /\ averaged_model self' !! k = Some (data p).
Proof.
  apply (first_step_copies_trainable (init_default tracked_model) trained_model).
  - reflexivity.
  - reflexivity.
  - simpl. lra.
  - exact unique_names_trained.
  - exact same_shapes_trained.
Defined.

(** C10 as first stated fails for [inv_gamma = 0]: the first call
    raises in [get_decay], before any parameter is read, and returns no
    updated shadow. *)
Lemma first_step_undefined_warmup :
  let self := init tracked_model 0 0 (2 / 3) 0 0.9999 in
  optimization_step self = 0%Z
  /\ update_after_step self = 0%Z
  /\ get_decay self 0 = Raise ZeroDivisionError
  /\ step self trained_model = Raise ZeroDivisionError
  /\ forall self', step self trained_model <> Ok self'.
Proof.
  cbv zeta.
  assert (H0 : forall s, get_decay (init tracked_model 0 0 (2 / 3) 0 0.9999) s
                         = Raise ZeroDivisionError)
    by (intros s; apply get_decay_zero_inv_gamma; reflexivity).
  assert (H1 : step (init tracked_model 0 0 (2 / 3) 0 0.9999) trained_model
               = Raise ZeroDivisionError)
    by (unfold step; now rewrite H0).
  split; [reflexivity|]. split; [reflexivity|]. split; [apply H0|].
  split; [exact H1|]. intros self'. rewrite H1. discriminate.
Qed.

(** The same model once it has grown a frozen parameter and a buffer the
    tracked model never had. *)
Definition grown_model : Model :=
  {| named_parameters :=
       [("w"%string, {| data := [5; 6]; requires_grad := true; ndim := 1 |});
        ("v"%string, {| data := [8]; requires_grad := false; ndim := 1 |})];
     named_buffers := [("n"%string, [7]); ("steps"%string, [9])] |}.

Lemma unique_names_grown : unique_names grown_model.
Proof.
  unfold unique_names. simpl.
  refine (bool_decide_unpack (NoDup _) _). vm_compute. exact I.
Qed.

Lemma same_shapes_grown :
  same_shapes (averaged_model (init_default tracked_model)) grown_model.
Proof.
  split.
  - intros k p old Hkp Hold.
    apply elem_of_cons in Hkp as [Hkp|Hkp];
      [|apply list_elem_of_singleton in Hkp];
      injection Hkp as -> ->; vm_compute in Hold; [|discriminate].
    injection Hold as <-. reflexivity.
  - intros k b old Hkb Hold.
    apply elem_of_cons in Hkb as [Hkb|Hkb];
      [|apply list_elem_of_singleton in Hkb];
      injection Hkb as -> ->; vm_compute in Hold; [|discriminate].
    injection Hold as <-. reflexivity.
Qed.

(** C8, on a live model with names the shadow lacks.  [step] succeeds and
    counts the call; the tracked weight and buffer are updated, but the
    frozen parameter ["v"] and the buffer ["steps"], seeded or copied into
    [ema_state_dict] only, are dropped by [load_state_dict(strict=False)]:
    the shadow holds no value for them after the call. *)
Theorem step_drops_unseen_names :
  exists self',
    step (init_default tracked_model) grown_model = Ok self'
    /\ optimization_step self' = 1%Z
    /\ averaged_model self' !! "w"%string = Some [5; 6]
    /\ averaged_model self' !! "n"%string = Some [7]
    /\ averaged_model self' !! "v"%string = None
    /\ averaged_model self' !! "steps"%string = None.
Proof.
  assert (Hd : get_decay (init_default tracked_model)
                 (optimization_step (init_default tracked_model)) = Ok 0).
  { apply get_decay_warmup; simpl; [lra|lia]. }
  destruct (step_spec _ _ 0 Hd unique_names_grown same_shapes_grown)
    as (self' & Hrun & Hcount & _ & Hpar & Hbuf & Hnone & _).
  exists self'. split; [assumption|]. split; [assumption|].
  split; [|split; [|split]].
  - rewrite (Hpar "w"%string
               {| data := [5; 6]; requires_grad := true; ndim := 1 |} [1; 2]).
    + unfold updated. cbn [requires_grad data].
      now rewrite (blend_zero [1; 2] [5; 6]).
    + left.
    + reflexivity.
  - apply (Hbuf "n"%string [7] [3]); [left | reflexivity].
  - apply Hnone. reflexivity.
  - apply Hnone. reflexivity.
Qed.

End Ema.

(** ** The conditioned sampling routine ([generate_image]) *)

Module Sampling.
Import Schedule Tensor Diffusion.

(** What the routine does to the outside world: calls of the conditioned
    model and writes of image files. *)
Inductive event (batch hidden : Type) : Type :=
  | Encode (b : batch) (batch_size : nat)
  | Predict (x : tensor) (timesteps : list Z) (h : hidden)
  | SaveImage (img : list R) (fp : string).
Arguments Encode {batch hidden} b batch_size.
Arguments Predict {batch hidden} x timesteps h.
Arguments SaveImage {batch hidden} img fp.

(** [f'{fake_image_path}/img_{it}.png'] *)
Definition img_path (fake_image_path : string) (it : nat) : string :=
  (fake_image_path +:+ "/img_" +:+ pretty it +:+ ".png")%string.

Section GenerateImage.
Context {batch hidden : Type}.
(** [model.get_encoder_hidden_states(batch, batch_size=batch_size)] *)
Variable get_encoder_hidden_states : batch -> nat -> hidden.
(** [model.model(x, timesteps, encoder_hidden_states=h).sample] *)
Variable unet : tensor -> list Z -> hidden -> tensor.

Abbreviation log := (list (event batch hidden)).

(** The body of [for i in range(n_steps)]; the state is the variable
    [x] (unbound before the first iteration), the generator and the
    events so far. *)
Definition inner_step (sch : schedule) (n_steps batch_size im_size : nat)
    (b : batch) (st : option tensor * generator * log) (i : nat)
  : result (option tensor * generator * log) :=
  let '(_, g, events) := st in
  drawn ← randint (Z.of_nat n_steps - Z.of_nat i) batch_size g;
  let '(timesteps, g) := drawn in
  let '(x, g) := randn batch_size (3 * im_size * im_size) g in
  let encoder_hidden_states := get_encoder_hidden_states b batch_size in
  let pred_noise := unet x timesteps encoder_hidden_states in
  let events :=
    events ++ [Encode b batch_size; Predict x timesteps encoder_hidden_states] in
  stepped ← p_xt sch x pred_noise timesteps g;
  let '(x, g) := stepped in
  Ok (Some x, g, events).

(** [x[0]] *)
Definition first_image (x : option tensor) : result (list R) :=
  match x with
  | None => Raise UnboundLocalError
  | Some [] => Raise IndexError
  | Some (img :: _) => Ok img
  end.

(** The body of [for batch in dataloader]; [it] counts the batches. *)
Definition sample_batch (sch : schedule) (n_steps batch_size im_size : nat)
    (fake_image_path : string)
    (st : option tensor * generator * log * nat) (b : batch)
  : result (option tensor * generator * log * nat) :=
  let '(x, g, events, it) := st in
  inner ← foldM (inner_step sch n_steps batch_size im_size b)
            (x, g, events) (seq 0 n_steps);
  let '(x, g, events) := inner in
  img ← first_image x;
  Ok (x, g, events ++ [SaveImage img (img_path fake_image_path it)], S it).

Definition generate_image_with (sch : schedule) (n_steps : nat)
    (fake_image_path : string) (im_size : nat) (dataloader : list batch)
    (batch_size : nat) (g : generator) : result (generator * log) :=
  final ← foldM (sample_batch sch n_steps batch_size im_size fake_image_path)
            (None, g, [], 0%nat) dataloader;
  let '(_, g, events, _) := final in
  Ok (g, events).

(** [generate_image(model, fake_image_path, im_size, dataloader,
    batch_size)]: [n_steps = 1000] and the module-level schedule. *)
Definition generate_image := generate_image_with module_schedule 1000.

(** *** What one inner iteration does, from the generator it starts with *)

Variable batch_size im_size : nat.

Abbreviation features := (3 * im_size * im_size)%nat.

(** The forward contract of the network: the prediction has the shape of
    its input. *)
Hypothesis unet_shape : forall x t h B N,
  has_shape B N x -> has_shape B N (unet x t h).

Section Loop.
Variable sch : schedule.
Variable n_steps : nat.

(** The generator after [j] inner iterations: each draws [batch_size]
    integers and two tensors of normal variates. *)
Definition gen_after (g : generator) (j : nat) : generator :=
  advance_normal (advance_int g (j * batch_size))
                 (j * (2 * (batch_size * features))).

(** The timestep vector of iteration [i]: [torch.randint(n_steps - i, ...)]. *)
Definition fresh_timesteps (i : nat) (g : generator) : list Z :=
  map (fun k => (int_draws g k mod (Z.of_nat n_steps - Z.of_nat i))%Z)
      (seq 0 batch_size).

(** The pure-noise tensor of an iteration: [torch.randn(batch_size, 3,
    im_size, im_size)]. *)
Definition fresh_noise (g : generator) : tensor :=
  randn_rows (repeat features batch_size) (normal_draws g).

(** The value of a reverse step that succeeds. *)
Definition reverse_value (x pred : tensor) (t : list Z) (g : generator) : tensor :=
  match p_xt sch x pred t g with
  | Ok (x', _) => x'
  | Raise _ => []
  end.

(** The generator handed to [p_xt] in an iteration started at [g]. *)
Definition gen_at_reverse (g : generator) : generator :=
  advance_normal (advance_int g batch_size) (batch_size * features).

Definition step_events (b : batch) (i : nat) (g : generator) : log :=
  [Encode b batch_size;
   Predict (fresh_noise g) (fresh_timesteps i g)
           (get_encoder_hidden_states b batch_size)].

(** [x] at the end of iteration [i] started at [g]: one reverse step of
    that iteration's own noise tensor. *)
Definition step_value (b : batch) (i : nat) (g : generator) : tensor :=
  reverse_value (fresh_noise g)
    (unet (fresh_noise g) (fresh_timesteps i g)
          (get_encoder_hidden_states b batch_size))
    (fresh_timesteps i g) (gen_at_reverse g).

Lemma gen_after_0 g : gen_after g 0 = g.
Proof.
  destruct g. unfold gen_after, advance_normal, advance_int. simpl.
  f_equal; lia.
Qed.

Lemma gen_after_S g j : gen_after (gen_after g 1) j = gen_after g (S j).
Proof.
  unfold gen_after, advance_normal, advance_int. simpl. f_equal; lia.
Qed.

Lemma gen_after_plus g j k : gen_after (gen_after g j) k = gen_after g (j + k).
Proof.
  unfold gen_after, advance_normal, advance_int. simpl. f_equal; lia.
Qed.

Lemma has_shape_fresh_rows B N d : has_shape B N (randn_rows (repeat N B) d).
Proof.
  revert d. induction B as [|B IH]; intros d; simpl.
  - split; [reflexivity|constructor].
  - destruct (IH (fun i => d (N + i)%nat)) as [Hl Hf]. split.
    + simpl. now rewrite Hl.
    + constructor; [|assumption]. now rewrite length_map, length_seq.
Qed.

Lemma length_fresh_timesteps i g : length (fresh_timesteps i g) = batch_size.
Proof. unfold fresh_timesteps. now rewrite length_map, length_seq. Qed.

Lemma fresh_timesteps_bounds i g :
  (i < n_steps)%nat ->
  Forall (fun t => (0 <= t < Z.of_nat n_steps - Z.of_nat i)%Z)
         (fresh_timesteps i g).
Proof.
  intros Hi. unfold fresh_timesteps. apply List.Forall_forall.
  intros t Ht. apply in_map_iff in Ht as [k [<- _]].
  apply Z.mod_pos_bound. lia.
Qed.

Lemma fresh_timesteps_in_range i g :
  (i < n_steps)%nat -> (n_steps <= Schedule.n_steps sch)%nat ->
  in_range (Schedule.n_steps sch) (fresh_timesteps i g).
Proof.
  intros Hi Hn. eapply Forall_impl; [apply (fresh_timesteps_bounds i g Hi)|].
  intros t Ht. simpl in Ht |- *. lia.
Qed.

Lemma fresh_timesteps_last g :
  (0 < n_steps)%nat -> fresh_timesteps (n_steps - 1) g = repeat 0%Z batch_size.
Proof.
  intros Hn. unfold fresh_timesteps.
  replace (Z.of_nat n_steps - Z.of_nat (n_steps - 1))%Z with 1%Z by lia.
  generalize 0%nat. induction batch_size as [|B IH]; intros a; simpl;
    [reflexivity|].
  now rewrite Z.mod_1_r, IH.
Qed.

(** A reverse step inside the loop succeeds, and [step_value] is its
    result. *)
Lemma reverse_step_runs b i g :
  wf_schedule sch -> (i < n_steps)%nat -> (n_steps <= Schedule.n_steps sch)%nat ->
  p_xt sch (fresh_noise g)
       (unet (fresh_noise g) (fresh_timesteps i g)
             (get_encoder_hidden_states b batch_size))
       (fresh_timesteps i g) (gen_at_reverse g)
  = Ok (step_value b i g, gen_after g 1)
  /\ has_shape batch_size features (step_value b i g).
Proof.
  intros Hwf Hi Hn.
  pose proof (has_shape_fresh_rows batch_size features (normal_draws g)) as Hx.
  fold (fresh_noise g) in Hx.
  destruct (DiffusionFacts.p_xt_run sch batch_size features (fresh_noise g)
              (unet (fresh_noise g) (fresh_timesteps i g)
                    (get_encoder_hidden_states b batch_size))
              (fresh_timesteps i g) (gen_at_reverse g) Hwf Hx
              (unet_shape _ _ _ _ _ Hx)
              (or_introl (length_fresh_timesteps i g))
              (fresh_timesteps_in_range i g Hi Hn))
    as (x' & Hrun & Hshape & _).
  unfold step_value, reverse_value. rewrite Hrun. split; [|assumption].
  do 2 f_equal. unfold gen_at_reverse, gen_after, advance_normal, advance_int.
  simpl. f_equal; lia.
Qed.

Lemma inner_step_spec b xo g ev i :
  wf_schedule sch -> (i < n_steps)%nat -> (n_steps <= Schedule.n_steps sch)%nat ->
  inner_step sch n_steps batch_size im_size b (xo, g, ev) i
  = Ok (Some (step_value b i g), gen_after g 1, ev ++ step_events b i g).
Proof.
  intros Hwf Hi Hn. unfold inner_step, randint.
  destruct (Z.ltb_spec 0 (Z.of_nat n_steps - Z.of_nat i)); [|lia].
  cbn [mbind result_bind bind]. unfold randn.
  change (map (fun k => (int_draws g k mod (Z.of_nat n_steps - Z.of_nat i))%Z)
              (seq 0 batch_size)) with (fresh_timesteps i g).
  change (randn_rows (repeat features batch_size)
            (normal_draws (advance_int g batch_size))) with (fresh_noise g).
  change (advance_normal (advance_int g batch_size) (batch_size * features))
    with (gen_at_reverse g).
  destruct (reverse_step_runs b i g Hwf Hi Hn) as [Hrun _].
  rewrite Hrun. reflexivity.
Qed.

(** The events of one batch and the value of [x] it ends with. *)
Definition loop_events (b : batch) (g : generator) (a k : nat) : log :=
  flat_map (fun j => step_events b (a + j) (gen_after g j)) (seq 0 k).

Definition final_value (b : batch) (g : generator) : tensor :=
  step_value b (n_steps - 1) (gen_after g (n_steps - 1)).

Definition batch_events (fake_image_path : string) (b : batch) (it : nat)
    (g : generator) : log :=
  loop_events b g 0 n_steps
  ++ [SaveImage (hd [] (final_value b g)) (img_path fake_image_path it)].

Lemma flat_map_seq_S {A} (f : nat -> list A) k :
  flat_map f (seq 0 (S k)) = f 0%nat ++ flat_map (fun j => f (S j)) (seq 0 k).
Proof.
  simpl. f_equal. rewrite <- seq_shift. rewrite flat_map_concat_map, map_map.
  now rewrite <- flat_map_concat_map.
Qed.

Lemma inner_loop_spec b k :
  wf_schedule sch -> (n_steps <= Schedule.n_steps sch)%nat ->
  forall a xo g ev,
  (a + k <= n_steps)%nat ->
  foldM (inner_step sch n_steps batch_size im_size b) (xo, g, ev) (seq a k)
  = Ok (match k with
        | O => xo
        | S k' => Some (step_value b (a + k') (gen_after g k'))
        end,
        gen_after g k, ev ++ loop_events b g a k).
Proof.
  intros Hwf Hn. induction k as [|k IH]; intros a xo g ev Hak.
  - simpl. rewrite gen_after_0. unfold loop_events. simpl.
    now rewrite app_nil_r.
  - cbn [seq foldM]. rewrite inner_step_spec by (auto; lia).
    cbn [mbind result_bind bind]. rewrite IH by lia.
    f_equal. f_equal; [f_equal|].
    + destruct k as [|k'].
      * now rewrite Nat.add_0_r, gen_after_0.
      * rewrite gen_after_S. do 2 f_equal. lia.
    + apply gen_after_S.
    + rewrite <- app_assoc. f_equal. unfold loop_events.
      rewrite flat_map_seq_S. rewrite Nat.add_0_r, gen_after_0. f_equal.
      apply flat_map_ext. intros j. rewrite gen_after_S. f_equal. lia.
Qed.

Lemma sample_batch_spec fake b xo g ev it :
  wf_schedule sch -> (n_steps <= Schedule.n_steps sch)%nat ->
  (0 < n_steps)%nat -> (0 < batch_size)%nat ->
  sample_batch sch n_steps batch_size im_size fake (xo, g, ev, it) b
  = Ok (Some (final_value b g), gen_after g n_steps,
        ev ++ batch_events fake b it g, S it).
Proof.
  intros Hwf Hn Hpos HB. unfold sample_batch.
  rewrite (inner_loop_spec b n_steps Hwf Hn 0 xo g ev) by lia.
  cbn [mbind result_bind bind].
  assert (Hfv : match n_steps with
                | O => xo
                | S k' => Some (step_value b (0 + k') (gen_after g k'))
                end = Some (final_value b g)).
  { unfold final_value. destruct n_steps as [|k']; [lia|].
    simpl. now rewrite Nat.sub_0_r. }
  rewrite Hfv.
  destruct (reverse_step_runs b (n_steps - 1) (gen_after g (n_steps - 1)) Hwf
              ltac:(lia) Hn) as [_ [Hlen _]].
  fold (final_value b g) in Hlen.
  destruct (final_value b g) as [|img rest] eqn:Hv; [simpl in Hlen; lia|].
  simpl. unfold batch_events. rewrite Hv. simpl.
  now rewrite <- app_assoc.
Qed.

(** The events of a whole run: batch [k] starts at the generator
    [k * n_steps] iterations in. *)
Definition run_events (fake_image_path : string) (g : generator) (it0 : nat)
    (dataloader : list batch) : log :=
  concat (imap (fun k b => batch_events fake_image_path b (it0 + k)
                             (gen_after g (k * n_steps))) dataloader).

Lemma batches_spec fake dataloader :
  wf_schedule sch -> (n_steps <= Schedule.n_steps sch)%nat ->
  (0 < n_steps)%nat -> (0 < batch_size)%nat ->
  forall xo g ev it,
  exists xo',
    foldM (sample_batch sch n_steps batch_size im_size fake)
      (xo, g, ev, it) dataloader
    = Ok (xo', gen_after g (length dataloader * n_steps),
          ev ++ run_events fake g it dataloader,
          (it + length dataloader)%nat).
Proof.
  intros Hwf Hn Hpos HB.
  induction dataloader as [|b rest IH]; intros xo g ev it.
  - exists xo. simpl. rewrite gen_after_0. unfold run_events. simpl.
    now rewrite app_nil_r, Nat.add_0_r.
  - cbn [foldM]. rewrite sample_batch_spec by assumption.
    cbn [mbind result_bind bind].
    destruct (IH (Some (final_value b g)) (gen_after g n_steps)
                (ev ++ batch_events fake b it g) (S it)) as [xo' Hrun].
    exists xo'. rewrite Hrun.
    assert (Hg : gen_after (gen_after g n_steps) (length rest * n_steps)
                 = gen_after g (length (b :: rest) * n_steps)).
    { rewrite gen_after_plus. reflexivity. }
    assert (Hev : run_events fake g it (b :: rest)
                  = batch_events fake b it g
                    ++ run_events fake (gen_after g n_steps) (S it) rest).
    { unfold run_events. rewrite imap_cons. simpl.
      rewrite Nat.add_0_r, gen_after_0. f_equal. f_equal.
      apply imap_ext. intros k b' _. simpl.
      rewrite gen_after_plus. f_equal; try lia; f_equal; lia. }
    rewrite Hg, Hev, <- app_assoc.
    replace (S it + length rest)%nat with (it + length (b :: rest))%nat
      by (simpl; lia).
    reflexivity.
Qed.

Lemma generate_image_with_spec fake dataloader g :
  wf_schedule sch -> (n_steps <= Schedule.n_steps sch)%nat ->
  (0 < n_steps)%nat -> (0 < batch_size)%nat ->
  generate_image_with sch n_steps fake im_size dataloader batch_size g
  = Ok (gen_after g (length dataloader * n_steps),
        run_events fake g 0 dataloader).
Proof.
  intros Hwf Hn Hpos HB. unfold generate_image_with.
  destruct (batches_spec fake dataloader Hwf Hn Hpos HB None g [] 0%nat)
    as [xo' Hrun].
  rewrite Hrun. reflexivity.
Qed.

(** The image files a run writes, in order. *)
Definition saved_images (events : log) : list (string * list R) :=
  omap (fun e => match e with
                 | SaveImage img fp => Some (fp, img)
                 | _ => None
                 end) events.

Lemma saved_images_app e1 e2 :
  saved_images (e1 ++ e2) = saved_images e1 ++ saved_images e2.
Proof. apply omap_app. Qed.

Lemma saved_images_loop b g a k : saved_images (loop_events b g a k) = [].
Proof.
  unfold loop_events. generalize (seq 0 k). intros l.
  induction l as [|j l IH]; [reflexivity|].
  simpl. exact IH.
Qed.

Lemma saved_images_batch fake b it g :
  saved_images (batch_events fake b it g)
  = [(img_path fake it, hd [] (final_value b g))].
Proof.
  unfold batch_events. now rewrite saved_images_app, saved_images_loop.
Qed.

Lemma saved_images_concat (F : nat -> batch -> log)
    (G : nat -> batch -> string * list R) (l : list batch) :
  (forall k b, saved_images (F k b) = [G k b]) ->
  saved_images (concat (imap F l)) = imap G l.
Proof.
  revert F G. induction l as [|b l IH]; intros F G HFG; [reflexivity|].
  rewrite !imap_cons. cbn [concat]. rewrite saved_images_app, HFG.
  simpl. f_equal. apply IH. intros k b'. apply HFG.
Qed.

Lemma saved_images_run fake g it0 dataloader :
  saved_images (run_events fake g it0 dataloader)
  = imap (fun k b => (img_path fake (it0 + k),
                      hd [] (final_value b (gen_after g (k * n_steps)))))
         dataloader.
Proof.
  unfold run_events. apply saved_images_concat.
  intros k b. apply saved_images_batch.
Qed.

End Loop.

Lemma module_schedule_wf : wf_schedule module_schedule.
Proof. apply wf_build_schedule. Qed.

Lemma module_schedule_steps : (1000 <= Schedule.n_steps module_schedule)%nat.
Proof. unfold module_schedule, build_schedule. cbn [Schedule.n_steps]. lia. Qed.

Lemma at2_fresh_noise g r j :
  (r < batch_size)%nat -> (j < features)%nat ->
  at2 (fresh_noise g) r j = normal_draws g (r * features + j)%nat.
Proof.
  intros Hr Hj. unfold fresh_noise.
  pose proof (at2_randn_rows batch_size features
                (repeat (repeat 0%R features) batch_size) (normal_draws g) r j) as H.
  rewrite map_repeat, repeat_length in H. apply H; try assumption.
  split; [apply repeat_length|].
  apply List.Forall_forall. intros row Hrow.
  apply repeat_spec in Hrow. subst row. apply repeat_length.
Qed.


(** C9.  At inner step [i] the timesteps are drawn from
    [[0, n_steps - i)], so at the last iteration ([i = 999]) every
    timestep is 0; and since [x] is drawn anew in every iteration, the image
    written for a batch is the first image of ONE reverse step, at
    timestep 0, of the noise tensor drawn in that last iteration: nothing
    computed in the 999 iterations before it enters the result. *)
Theorem generate_image_last_iteration (fake_image_path : string)
    (dataloader : list batch) (g : generator) :
  (0 < batch_size)%nat ->
  (forall i gi, (i < 1000)%nat ->
     Forall (fun t => (0 <= t < 1000 - Z.of_nat i)%Z) (fresh_timesteps 1000 i gi))
  /\ (forall gi, fresh_timesteps 1000 999 gi = repeat 0%Z batch_size)
  /\ exists g' events,
       generate_image fake_image_path im_size dataloader batch_size g
       = Ok (g', events)
       /\ saved_images events
          = imap (fun k b =>
              let gl := gen_after g (k * 1000 + 999) in
              let x0 := fresh_noise gl in
              let zeros := repeat 0%Z batch_size in
              (img_path fake_image_path k,
               hd [] (reverse_value module_schedule x0
                        (unet x0 zeros (get_encoder_hidden_states b batch_size))
                        zeros (gen_at_reverse gl)))) dataloader
       /\ (forall (b : batch) (gl : generator),
             let x0 := fresh_noise gl in
             let zeros := repeat 0%Z batch_size in
             p_xt module_schedule x0
               (unet x0 zeros (get_encoder_hidden_states b batch_size))
               zeros (gen_at_reverse gl)
             = Ok (reverse_value module_schedule x0
                     (unet x0 zeros (get_encoder_hidden_states b batch_size))
                     zeros (gen_at_reverse gl),
                   gen_after gl 1)
             /\ forall r j, (r < batch_size)%nat -> (j < features)%nat ->
                  at2 x0 r j = normal_draws gl (r * features + j)%nat).
Proof.
  intros HB.
  assert (Hlast : forall gi, fresh_timesteps 1000 999 gi = repeat 0%Z batch_size).
  { intros gi. apply (fresh_timesteps_last 1000 gi). lia. }
  split; [|split; [exact Hlast|]].
  - intros i gi Hi.
    eapply Forall_impl; [apply (fresh_timesteps_bounds 1000 i gi Hi)|].
    intros t Ht. simpl in Ht. lia.
  - exists (gen_after g (length dataloader * 1000)),
           (run_events module_schedule 1000 fake_image_path g 0 dataloader).
    split; [|split].
    + unfold generate_image.
      apply generate_image_with_spec;
        [apply module_schedule_wf | apply module_schedule_steps | lia | assumption].
    + rewrite saved_images_run. apply imap_ext. intros k b _.
      cbv zeta. unfold final_value.
      change (1000 - 1)%nat with 999%nat.
      rewrite gen_after_plus. unfold step_value. rewrite Hlast. reflexivity.
    + intros b gl x0 zeros.
      pose proof (reverse_step_runs module_schedule 1000 b 999 gl
                    module_schedule_wf ltac:(lia) module_schedule_steps)
        as [Hrun _].
      unfold step_value in Hrun. rewrite Hlast in Hrun.
      split; [exact Hrun|].
      intros r j. apply at2_fresh_noise.
Qed.

End GenerateImage.

(** A one-sample run: the batches and hidden states are trivial and the
    network returns its input. *)
Definition echo_net (x : tensor) (t : list Z) (h : unit) : tensor := x.

Lemma echo_net_shape x t h B N :
  has_shape B N x -> has_shape B N (echo_net x t h).
Proof. exact (fun H => H). Qed.


Lemma generate_image_last_iteration_witness :
  fresh_timesteps 1 1000 999 sample_generator = [0%Z]
  /\ exists g' events,
       generate_image (fun (_ : unit) (_ : nat) => tt) echo_net "out" 1 [tt] 1
         sample_generator
       = Ok (g', events)
       /\ length (saved_images events) = 1%nat.
Proof.
  destruct (generate_image_last_iteration (fun (_ : unit) (_ : nat) => tt)
              echo_net 1 1 echo_net_shape "out" [tt] sample_generator
              ltac:(lia)) as (_ & Hlast & g' & events & Hrun & Hsaved & _).
  split; [apply Hlast|].
  exists g', events. split; [exact Hrun|].
  rewrite Hsaved. reflexivity.
Defined.





End Sampling.

(** ** The minimal training loop of the notebook script ([cddpm.py]) *)

Module Notebook.
Local Open Scope Q_scope.

(** [PATH = './model_ddpm.pt'] *)
Definition PATH : string := "./model_ddpm.pt".

(** The variables of the script the loop writes: the list [losses], the
    variable [prev_loss] (unbound before the loop), and the epochs at
    whose end [torch.save(unet.state_dict(), PATH)] ran. *)
Record loop_state : Type := {
  losses : list Q;
  prev_loss : option Q;
  saved : list nat
}.

Definition initial_state : loop_state :=
  {| losses := []; prev_loss := None; saved := [] |}.

(** A statement of the script runs on these variables and may raise: it
    gives the state it has reached, with its value or the exception. *)
Definition script (A : Type) : Type := loop_state -> loop_state * result A.

Definition unit_script {A} (a : A) : script A := fun st => (st, Ok a).

Definition then_script {A B} (m : script A) (k : A -> script B) : script B :=
  fun st =>
    match m st with
    | (st', Ok a) => k a st'
    | (st', Raise e) => (st', Raise e)
    end.

#[global] Instance script_ret : MRet script := @unit_script.
#[global] Instance script_bind : MBind script :=
  fun _ _ k m => then_script m k.

(** A pure computation that may raise, as a statement. *)
Definition lift {A} (r : result A) : script A := fun st => (st, r).

(** [for x in l: body(x)] *)
Fixpoint for_each {B} (body : B -> script unit) (l : list B) : script unit :=
  match l with
  | [] => mret tt
  | x :: l' => _ ← body x; for_each body l'
  end.

(** [prev_loss = v] *)
Definition set_prev_loss (v : Q) : script unit :=
  fun st =>
    ({| losses := losses st; prev_loss := Some v; saved := saved st |}, Ok tt).

(** [losses.append(v)] *)
Definition append_loss (v : Q) : script unit :=
  fun st =>
    ({| losses := losses st ++ [v]; prev_loss := prev_loss st;
        saved := saved st |}, Ok tt).

(** [torch.save(unet.state_dict(), PATH)], at the end of [epoch]. *)
Definition torch_save (epoch : nat) : script unit :=
  fun st =>
    ({| losses := losses st; prev_loss := prev_loss st;
        saved := saved st ++ [epoch] |}, Ok tt).

(** Reading [prev_loss]. *)
Definition read_prev_loss : script Q :=
  fun st =>
    match prev_loss st with
    | Some v => (st, Ok v)
    | None => (st, Raise UnboundLocalError)
    end.

(** [train_loss / it] with [it = len(train_loader)]. *)
Definition average (train_loss : Q) (it : nat) : result Q :=
  match it with
  | O => Raise ZeroDivisionError
  | S _ => Ok (train_loss / inject_Z (Z.of_nat it))
  end.

(** [train_loss = 0] then [train_loss += loss.item()] for every batch. *)
Definition accumulate (batch_losses : list Q) : Q :=
  fold_left Qplus batch_losses 0.

(** [unet.training()]: [UNet] defines [__init__] and [forward] only, so
    [unet.training] is the boolean attribute of [nn.Module], and calling
    it raises. *)
Definition unet_training_call : script unit := lift (Raise TypeError).

(** The statements of the loop body that follow [unet.training()].
    [batch_losses epoch] are the values [loss.item()] of the batches of
    this epoch, one per batch of the loader. *)
Definition epoch_rest (batch_losses : nat -> list Q) (epoch : nat)
  : script unit :=
  let it := length (batch_losses epoch) in
  _ ← set_prev_loss 1000000;
  let train_loss := accumulate (batch_losses epoch) in
  mean ← lift (average train_loss it);
  _ ← append_loss mean;
  prev ← read_prev_loss;
  _ ← (if Qlt_le_dec mean prev then torch_save epoch else mret tt);
  set_prev_loss mean.

(** The loop body. *)
Definition epoch_as_written (batch_losses : nat -> list Q) (epoch : nat)
  : script unit :=
  _ ← unet_training_call;
  epoch_rest batch_losses epoch.

(** [for epoch in range(epochs)], started on the variables as the script
    has them before the loop. *)
Definition training_loop (epochs : nat) (batch_losses : nat -> list Q)
  : loop_state * result unit :=
  for_each (epoch_as_written batch_losses) (seq 0 epochs) initial_state.

(** The average loss of an epoch, as the loop computes it. *)
Definition epoch_loss (batch_losses : nat -> list Q) (e : nat) : Q :=
  accumulate (batch_losses e) / inject_Z (Z.of_nat (length (batch_losses e))).

Lemma foldM_app {A B} (f : A -> B -> result A) (a : A) (l1 l2 : list B) :
  foldM f a (l1 ++ l2) = (a' ← foldM f a l1; foldM f a' l2).
Proof.
  revert a. induction l1 as [|x l1 IH]; intros a; simpl; [reflexivity|].
  destruct (f a x) as [a'|e]; simpl; [apply IH | reflexivity].
Qed.

(** The loop never gets past the first statement of its first epoch:
    whatever the losses would be, it ends in the [TypeError] of
    [unet.training()] with no loss recorded and nothing saved. *)
Lemma training_loop_stops (epochs : nat) (batch_losses : nat -> list Q) :
  training_loop (S epochs) batch_losses = (initial_state, Raise TypeError).
Proof. reflexivity. Qed.

(** The statements after the mode call compare the loss of the epoch
    with the sentinel assigned a few lines earlier, not with the value
    [prev_loss] had when the epoch started. *)
Lemma epoch_rest_compares_with_sentinel (batch_losses : nat -> list Q)
    (epoch : nat) (st : loop_state) :
  batch_losses epoch <> [] ->
  epoch_rest batch_losses epoch st
  = ({| losses := losses st ++ [epoch_loss batch_losses epoch];
        prev_loss := Some (epoch_loss batch_losses epoch);
        saved := if Qlt_le_dec (epoch_loss batch_losses epoch) 1000000
                 then saved st ++ [epoch] else saved st |}, Ok tt).
Proof.
  intros Hne. unfold epoch_rest, epoch_loss, average.
  destruct (batch_losses epoch) as [|l ls] eqn:Hl; [contradiction|].
  cbn [length]. unfold mbind, script_bind, then_script, set_prev_loss, lift,
    append_loss, read_prev_loss. cbn [prev_loss losses saved].
  destruct (Qlt_le_dec _ 1000000); reflexivity.
Qed.

(** Two epochs of one batch each, with losses 2 then 1. *)
Definition falling_losses (epoch : nat) : list Q :=
  match epoch with
  | O => [2]
  | _ => [1]
  end.

(** C2, on a run whose loss falls from epoch 0 to epoch 1, so that the
    weights are to be saved at the end of epoch 1.  The loop stops in
    epoch 0, at [unet.training()]: no loss is recorded and
    [torch.save] never runs. *)
Theorem falling_loss_is_not_saved :
  epoch_loss falling_losses 1 < epoch_loss falling_losses 0
  /\ exists st,
       training_loop 2 falling_losses = (st, Raise TypeError)
       /\ losses st = []
       /\ saved st = [].
Proof.
  split; [reflexivity|].
  exists initial_state. split; [reflexivity|]. split; reflexivity.
Qed.

End Notebook.

(** ** The configurable entry point ([train.py]) *)

Module Entry.

(** JSON values, as [json.load] returns them. *)
#[local] Unset Elimination Schemes.
Inductive pyval : Type :=
  | PNone
  | PBool (b : bool)
  | PInt (z : Z)
  | PFloat (q : Q)
  | PStr (s : string)
  | PList (l : list pyval)
  | PDict (d : list (string * pyval)).
#[local] Set Elimination Schemes.

(** The configuration: the entries of the JSON object, by key. *)
Definition config : Type := list (string * pyval).

(** Truth value of an object in a condition. *)
Definition truthy (v : pyval) : bool :=
  match v with
  | PNone => false
  | PBool b => b
  | PInt z => negb (Z.eqb z 0)
  | PFloat q => negb (Qeq_bool q 0)
  | PStr s => negb (String.eqb s "")
  | PList l => negb (Nat.eqb (length l) 0)
  | PDict d => negb (Nat.eqb (length d) 0)
  end.

Fixpoint assoc (key : string) (d : list (string * pyval)) : option pyval :=
  match d with
  | [] => None
  | (k, v) :: d' => if String.eqb k key then Some v else assoc key d'
  end.

(** [cfg.get(key)] *)
Definition get (cfg : config) (key : string) : pyval :=
  default PNone (assoc key cfg).

(** [v[key]] with a string key: a missing key of a dict is a [KeyError],
    and [None], numbers, strings and lists reject the subscript with a
    [TypeError]. *)
Definition subscript (v : pyval) (key : string) : result pyval :=
  match v with
  | PDict d =>
      match assoc key d with
      | Some x => Ok x
      | None => Raise (KeyError key)
      end
  | _ => Raise TypeError
  end.

(** [ckpt_path == ""] *)
Definition is_empty_string (v : pyval) : bool :=
  match v with
  | PStr s => String.eqb s ""
  | _ => false
  end.

(** Calls on the trainer. *)
Inductive action : Type :=
  | Fit
  | SaveCheckpoint (dir : pyval)      (* f"{dir}/final.ckpt" *)
  | Test (ckpt_path : pyval).

(** How a call of [training] ends: what it did to the trainer, and the
    exception it raised if it did not return. *)
Definition outcome : Type := (list action * option exn)%type.

(** The keys read with [cfg[...]] while the data module, the model and the
    callbacks are built, in order. *)
Definition setup_keys : list string :=
  ["seed"; "dataset_path"; "image_size"; "image_size"; "batch_size"; "lr";
   "output_dir"; "mse_loss_lambda"; "identity_consistency_loss_lambda";
   "ckpt_path"]%string.

(** The checkpoint path of the test phase ([if cfg.get("test")],
    lines 167-174). *)
Definition resolve_ckpt_path (cfg : config) (best_model_path : string)
  : result pyval :=
  if truthy (get cfg "ckpt_path") && negb (truthy (get cfg "train")) then
    Ok (get cfg "ckpt_path")
  else
    nested ← subscript (get cfg "trainer") "ckpt_path";
    if truthy nested && negb (truthy (get cfg "train")) then Ok PNone
    else Ok (PStr best_model_path).

(** [training(cfg)].  The collaborators built from the configuration are
    taken to succeed; [best_model_path] is what
    [trainer.checkpoint_callback.best_model_path] holds when it is read. *)
Definition training (cfg : config) (best_model_path : string) : outcome :=
  match mapM (subscript (PDict cfg)) setup_keys with
  | Raise e => ([], Some e)
  | Ok _ =>
    match subscript (PDict cfg) "training" with
    | Raise e => ([], Some e)
    | Ok flag =>
      let fitted :=
        if truthy flag then [Fit; SaveCheckpoint (get cfg "ckpt_path")] else [] in
      if truthy (get cfg "test") then
        match resolve_ckpt_path cfg best_model_path with
        | Raise e => (fitted, Some e)
        | Ok ckpt_path =>
            if is_empty_string ckpt_path then (fitted, Some (ValueError ""))
            else (fitted ++ [Test ckpt_path], None)
        end
      else (fitted, None)
    end
  end.

(** *** The precedence the code implements *)

Lemma resolve_explicit cfg best :
  truthy (get cfg "ckpt_path") = true -> truthy (get cfg "train") = false ->
  resolve_ckpt_path cfg best = Ok (get cfg "ckpt_path").
Proof. intros H1 H2. unfold resolve_ckpt_path. now rewrite H1, H2. Qed.

Lemma resolve_nested cfg best nested :
  truthy (get cfg "ckpt_path") = false ->
  truthy (get cfg "train") = false ->
  subscript (get cfg "trainer") "ckpt_path" = Ok nested ->
  truthy nested = true ->
  resolve_ckpt_path cfg best = Ok PNone.
Proof.
  intros H1 H2 H3 H4. unfold resolve_ckpt_path.
  rewrite H1, H2, H3. simpl. now rewrite H4.
Qed.

Lemma resolve_best cfg best nested :
  subscript (get cfg "trainer") "ckpt_path" = Ok nested ->
  truthy (get cfg "train") = true
  \/ (truthy (get cfg "ckpt_path") = false /\ truthy nested = false) ->
  resolve_ckpt_path cfg best = Ok (PStr best).
Proof.
  intros H3 [H2|[H1 H4]]; unfold resolve_ckpt_path.
  - rewrite H2, H3, andb_false_r. simpl. now rewrite andb_false_r.
  - rewrite H1, H3. simpl. now rewrite H4.
Qed.

Lemma resolve_no_trainer cfg best :
  truthy (get cfg "ckpt_path") && negb (truthy (get cfg "train")) = false ->
  assoc "trainer" cfg = None ->
  resolve_ckpt_path cfg best = Raise TypeError.
Proof.
  intros H1 H2. unfold resolve_ckpt_path. rewrite H1.
  unfold get. now rewrite H2.
Qed.

(** The guard before the test: once a path [p] is resolved, the call
    raises [ValueError] without testing exactly when [p] is the empty
    string, and otherwise tests against [p]. *)
Lemma empty_path_guard cfg best flag p :
  (exists vs, mapM (subscript (PDict cfg)) setup_keys = Ok vs) ->
  subscript (PDict cfg) "training" = Ok flag ->
  truthy (get cfg "test") = true ->
  resolve_ckpt_path cfg best = Ok p ->
  let fitted :=
    if truthy flag then [Fit; SaveCheckpoint (get cfg "ckpt_path")] else [] in
  (p = PStr "" -> training cfg best = (fitted, Some (ValueError "")))
  /\ (p <> PStr "" -> training cfg best = (fitted ++ [Test p], None)).
Proof.
  intros [vs Hsetup] Hflag Htest Hres fitted. unfold training.
  rewrite Hsetup, Hflag, Htest, Hres. fold fitted. split.
  - intros ->. reflexivity.
  - intros Hp. destruct p as [| | | |s| |]; try reflexivity.
    destruct s; [contradiction|reflexivity].
Qed.

(** A configuration that trains and then tests, with the checkpoint
    directory set as [training] needs it for [final.ckpt]. *)
Definition fit_and_test : config :=
  [("seed", PInt 42); ("dataset_path", PStr "/data");
   ("image_size", PInt 112); ("batch_size", PInt 8); ("lr", PFloat (1 # 10000));
   ("output_dir", PStr "/out"); ("mse_loss_lambda", PInt 1);
   ("identity_consistency_loss_lambda", PInt 1);
   ("ckpt_path", PStr "/ckpts"); ("training", PBool true);
   ("test", PBool true); ("prefix", PStr "run");
   ("project_task", PStr "faces")]%string.

(** C1, on a configuration that trains and tests.  The run is gated by
    [cfg["training"]] but the test phase asks [cfg.get("train")], a key
    the configuration does not have: the model is fitted, and the test
    then runs against the configured directory ["/ckpts"], not against
    the best checkpoint of the fit. *)
Theorem test_after_fit_skips_best_checkpoint :
  training fit_and_test "/ckpts/best.ckpt"
  = ([Fit; SaveCheckpoint (PStr "/ckpts"); Test (PStr "/ckpts")], None).
Proof. reflexivity. Qed.

End Entry.

(** ** The notebook's forward steps, and how the diffusion steps fail and
    compose *)

Module DiffusionProps.
Import Schedule Tensor Diffusion DiffusionFacts.
Local Open Scope R_scope.

(** The first schedule of [cddpm.py]: [n_steps = 100], [beta] from 0.0001
    to 0.04. *)
Definition demo_schedule : schedule := build_schedule 100 0.0001 0.04.

(** [q_xt_xtminus1(xtm1, t)]: one forward step,
    [sqrt(1 - beta_t) * xtm1 + sqrt(beta_t) * torch.randn( *xtm1.shape)]. *)
Definition q_xt_xtminus1 (s : schedule) (xtm1 : tensor) (t : list Z)
    (g : generator) : result (tensor * generator) :=
  beta_t ← gather (beta s) t;
  mean ← tmul (tsqrt (rsub 1 beta_t)) xtm1;
  let std := tsqrt beta_t in
  let '(noise, g') := randn_like xtm1 g in
  scaled ← tmul std noise;
  x_t ← tadd mean scaled;
  Ok (x_t, g').

(** [q_xt_x0(x0, t)] as first defined in [cddpm.py]: the noised image
    alone. *)
Definition q_xt_x0_demo (s : schedule) (x0 : tensor) (t : list Z)
    (g : generator) : result (tensor * generator) :=
  alpha_bar_t ← gather (alpha_bar s) t;
  mean ← tmul (tsqrt alpha_bar_t) x0;
  let std := tsqrt (rsub 1 alpha_bar_t) in
  let '(noise, g') := randn_like x0 g in
  scaled ← tmul std noise;
  x_t ← tadd mean scaled;
  Ok (x_t, g').

(** The first [T] iterations of the notebook's forward loop
    [for t in range(n_steps): x = q_xt_xtminus1(x, torch.tensor(t))]. *)
Definition forward_loop (s : schedule) (T : nat) (x : tensor) (g : generator)
  : result (tensor * generator) :=
  foldM (fun st t => q_xt_xtminus1 s (fst st) [Z.of_nat t] (snd st))
        (x, g) (seq 0 T).

(** [alpha_bar] of the step before [i], with the empty product 1 before
    step 0. *)
Definition alpha_bar_prev (s : schedule) (i : nat) : R :=
  match i with
  | O => 1
  | S k => nth k (alpha_bar s) 0
  end.

(** [sum_{k < T} f k] *)
Definition sum_upto (f : nat -> R) (T : nat) : R :=
  fold_right Rplus 0 (map f (seq 0 T)).

Lemma gather_not_in_range (consts : list R) (t : list Z) :
  ~ in_range (length consts) t -> gather consts t = Raise RuntimeError.
Proof.
  unfold in_range, gather. induction t as [|i t IH]; intros Hn.
  - exfalso. apply Hn. constructor.
  - cbn [mapM].
    destruct (Z.leb_spec 0 i); destruct (Z.ltb_spec i (Z.of_nat (length consts)));
      cbn [andb]; try reflexivity.
    rewrite IH; [reflexivity|].
    intros Ht. apply Hn. constructor; [lia | exact Ht].
Qed.

Lemma in_range_dec (n : nat) (t : list Z) : {in_range n t} + {~ in_range n t}.
Proof.
  unfold in_range. apply List.Forall_dec. intros i.
  destruct (Z_le_dec 0 i); destruct (Z_lt_dec i (Z.of_nat n));
    [left; lia | right; lia | right; lia | right; lia].
Qed.

Lemma broadcast_mismatch {A B} (f : A -> A -> result B) (xs ys : list A) :
  (2 <= length xs)%nat -> (2 <= length ys)%nat -> length xs <> length ys ->
  broadcast f xs ys = Raise RuntimeError.
Proof.
  intros Hx Hy Hne. unfold broadcast.
  destruct (Nat.eqb_spec (length xs) (length ys)); [contradiction|].
  destruct xs as [|x [|x' xs]]; simpl in Hx; try lia.
  destruct ys as [|y [|y' ys]]; simpl in Hy; try lia.
  reflexivity.
Qed.

(** [q_xt_xtminus1] on a batch of [B] samples with a timestep tensor that
    fits it. *)
Lemma q_xt_xtminus1_run (s : schedule) (B N : nat)
    (x : tensor) (t : list Z) (g : generator) :
  wf_schedule s -> has_shape B N x -> batch_compatible B t ->
  in_range (n_steps s) t ->
  exists x_t,
    q_xt_xtminus1 s x t g = Ok (x_t, advance_normal g (B * N))
    /\ has_shape B N x_t
    /\ forall b j, (b < B)%nat -> (j < N)%nat ->
         let beta_t := coef_at (beta s) t (row_of (length t) b) in
         at2 x_t b j
         = sqrt (1 - beta_t) * at2 x b j
           + sqrt beta_t * normal_draws g (b * N + j)%nat.
Proof.
  intros (Hb & _ & _) Hx Ht Hr.
  set (A := map (fun i => nth (Z.to_nat i) (beta s) 0) t).
  assert (HA : forall f : R -> R, length (map f A) = B \/ length (map f A) = 1%nat)
    by (intros f; unfold A; rewrite !length_map; exact Ht).
  set (noise := randn_rows (map length x) (normal_draws g)).
  assert (Hn : has_shape B N noise) by now apply has_shape_randn_rows.
  set (mean := scale_l Rmult (expand B (map sqrt (map (fun v => 1 - v) A))) x).
  set (scaled := scale_l Rmult (expand B (map sqrt A)) noise).
  assert (Hm : has_shape B N mean).
  { apply has_shape_scale_l; [|assumption]. apply length_expand.
    rewrite length_map. apply (HA (fun v => 1 - v)). }
  assert (Hs : has_shape B N scaled)
    by (apply has_shape_scale_l; [now apply length_expand | assumption]).
  exists (zip_with (zip_with Rplus) mean scaled).
  split; [|split].
  - unfold q_xt_xtminus1, tmul, tadd.
    step_ok (gather_in_range (beta s) t ltac:(now rewrite Hb)).
    fold A. rewrite rsub_coefs, !tsqrt_coefs.
    step_ok (pointwise_expand_l Rmult (map sqrt (map (fun v => 1 - v) A)) x B
               (proj1 Hx)
               ltac:(rewrite length_map; apply (HA (fun v => 1 - v)))).
    unfold randn_like. fold noise.
    step_ok (pointwise_expand_l Rmult (map sqrt A) noise B (proj1 Hn) (HA sqrt)).
    fold mean scaled.
    step_ok (pointwise_same_shape Rplus B N mean scaled Hm Hs).
    now rewrite (numel_shape B N x Hx).
  - apply (has_shape_zip_with B N); try assumption.
    intros r1 r2. apply (length_zip_with_same Rplus).
  - intros b j Hlb Hlj. cbv zeta.
    rewrite (at2_zip_with Rplus B N) by assumption.
    unfold mean, scaled.
    rewrite (at2_scale_l Rmult B N);
      [|apply length_expand; rewrite length_map; apply (HA (fun v => 1 - v))
       |assumption|assumption|assumption].
    rewrite (at2_scale_l Rmult B N);
      [|now apply length_expand|assumption|assumption|assumption].
    unfold A. rewrite (nth_expand_gathered (beta s) t sqrt B b Ht Hlb).
    rewrite map_map.
    rewrite (nth_expand_gathered (beta s) t (fun v => sqrt (1 - v)) B b Ht Hlb).
    unfold noise. rewrite (at2_randn_rows B N) by assumption. reflexivity.
Qed.

(** *** Generator bookkeeping and finite sums *)

Lemma advance_normal_0 g : advance_normal g 0 = g.
Proof. destruct g. unfold advance_normal. simpl. f_equal. lia. Qed.

Lemma advance_normal_add g a b :
  advance_normal (advance_normal g a) b = advance_normal g (a + b).
Proof. unfold advance_normal. simpl. f_equal. lia. Qed.

Lemma normal_draws_advance g a i :
  normal_draws (advance_normal g a) i = normal_draws g (a + i)%nat.
Proof. unfold normal_draws, advance_normal. simpl. f_equal. lia. Qed.

Lemma sum_upto_S f T : sum_upto f (S T) = sum_upto f T + f T.
Proof.
  unfold sum_upto. rewrite seq_S, map_app, fold_right_app. simpl.
  generalize (map f (seq 0 T)). intros l.
  induction l as [|a l IH]; simpl; [lra|]. rewrite IH. lra.
Qed.

Lemma sum_upto_ext f h T :
  (forall k, (k < T)%nat -> f k = h k) -> sum_upto f T = sum_upto h T.
Proof.
  induction T as [|T IH]; intros H; [reflexivity|].
  rewrite !sum_upto_S, IH, (H T) by (intros; try apply H; lia). reflexivity.
Qed.

Lemma sum_upto_scale c f T :
  sum_upto (fun k => c * f k) T = c * sum_upto f T.
Proof.
  induction T as [|T IH]; [unfold sum_upto; simpl; lra|].
  rewrite !sum_upto_S, IH. lra.
Qed.

(** *** The schedule as running products *)

Section BuiltSchedule.
Variables (n : nat) (bs be : R).
Hypothesis Hn : (2 <= n)%nat.
Hypothesis H0 : 0 < bs.
Hypothesis Hlt : bs < be.
Hypothesis H1 : be < 1.

Let s := build_schedule n bs be.

Lemma alpha_bar_factor i :
  (i < n)%nat ->
  nth i (alpha_bar s) 0 = alpha_bar_prev s i * nth i (alpha s) 0.
Proof.
  intros Hi. destruct i as [|k]; unfold alpha_bar_prev.
  - change (alpha_bar s) with (cumprod_from 1 (alpha s)).
    pose proof (length_build_alpha n bs be) as Hlen. fold s in Hlen.
    destruct (alpha s) as [|a l]; simpl in *; [lia|reflexivity].
  - change (alpha_bar s) with (cumprod_from 1 (alpha s)).
    apply cumprod_from_nth_S. unfold s. now rewrite length_build_alpha.
Qed.

Lemma alpha_bar_prev_pos i : (i <= n)%nat -> 0 < alpha_bar_prev s i.
Proof.
  intros Hi. destruct i as [|k]; simpl; [lra|].
  apply alpha_bar_pos; try assumption; lia.
Qed.

(** The algebra behind a reverse step taken from an exactly noised
    image. *)
Lemma posterior_mean_algebra (a p x e : R) :
  0 < a -> 0 < p -> a * p < 1 ->
  (sqrt (p * a) * x + sqrt (1 - p * a) * e
   - (1 - a) / sqrt (1 - p * a) * e) / sqrt a
  = sqrt p * x + sqrt a * (1 - p) / sqrt (1 - p * a) * e.
Proof.
  intros Ha Hp Hap.
  rewrite sqrt_mult by lra.
  assert (Hu : 0 < sqrt a) by now apply sqrt_lt_R0.
  assert (Hv : 0 < sqrt (1 - p * a)) by (apply sqrt_lt_R0; lra).
  assert (Huu : sqrt a * sqrt a = a) by (apply sqrt_sqrt; lra).
  assert (Hvv : sqrt (1 - p * a) * sqrt (1 - p * a) = 1 - p * a)
    by (apply sqrt_sqrt; lra).
  set (u := sqrt a) in *. set (v := sqrt (1 - p * a)) in *.
  set (w := sqrt p).
  assert (He : (v - (1 - a) / v) / u = u * (1 - p) / v).
  { apply (Rmult_eq_reg_r (u * v)); [|nra].
    replace ((v - (1 - a) / v) / u * (u * v)) with (v * v - (1 - a))
      by (field; lra).
    replace (u * (1 - p) / v * (u * v)) with (u * u * (1 - p))
      by (field; lra).
    rewrite Hvv, Huu. ring. }
  replace ((w * u * x + v * e - (1 - a) / v * e) / u)
    with (w * x + (v - (1 - a) / v) / u * e) by (field; lra).
  now rewrite He.
Qed.

(** The weight of the noise drawn at step [k] in the image after [T]
    forward steps. *)
Fixpoint noise_weight (T k : nat) : R :=
  match T with
  | O => 0
  | S T' => if Nat.eqb k T' then sqrt (nth T' (beta s) 0)
            else sqrt (nth T' (alpha s) 0) * noise_weight T' k
  end.

Lemma forward_loop_spec (B N : nat) (x0 : tensor) (g : generator) (T : nat) :
  has_shape B N x0 -> (T <= n)%nat ->
  exists x_T,
    forward_loop s T x0 g = Ok (x_T, advance_normal g (T * (B * N)))
    /\ has_shape B N x_T
    /\ (forall b j, (b < B)%nat -> (j < N)%nat ->
          at2 x_T b j
          = sqrt (alpha_bar_prev s T) * at2 x0 b j
            + sum_upto (fun k => noise_weight T k
                                 * normal_draws g (k * (B * N) + (b * N + j))%nat) T)
    /\ sum_upto (fun k => noise_weight T k * noise_weight T k) T
       = 1 - alpha_bar_prev s T.
Proof.
  intros Hx. induction T as [|T IH]; intros HT.
  - exists x0. unfold forward_loop. simpl. rewrite advance_normal_0.
    split; [reflexivity|]. split; [assumption|]. split.
    + intros b j _ _. unfold sum_upto. simpl. rewrite sqrt_1. lra.
    + unfold sum_upto. simpl. lra.
  - destruct (IH ltac:(lia)) as (xT & Hrun & HxT & Hval & Hsq).
    assert (Hr : in_range (Schedule.n_steps s) [Z.of_nat T])
      by (repeat constructor; simpl; lia).
    destruct (q_xt_xtminus1_run s B N xT [Z.of_nat T]
                (advance_normal g (T * (B * N)))
                (wf_build_schedule n bs be) HxT (or_intror eq_refl) Hr)
      as (x' & Hstep & Hx' & Hval').
    pose proof (alpha_in_unit n bs be T Hn H0 Hlt H1 ltac:(lia)) as Ha.
    pose proof (beta_in_unit n bs be T Hn H0 Hlt H1 ltac:(lia)) as Hbeta.
    pose proof (nth_alpha n bs be T ltac:(lia)) as Hab.
    pose proof (alpha_bar_prev_pos T ltac:(lia)) as Hp.
    fold s in Ha, Hbeta, Hab.
    assert (Hw : forall k, (k < T)%nat ->
              noise_weight (S T) k = sqrt (nth T (alpha s) 0) * noise_weight T k).
    { intros k Hk. simpl. destruct (Nat.eqb_spec k T); [lia|reflexivity]. }
    assert (HwT : noise_weight (S T) T = sqrt (nth T (beta s) 0))
      by (simpl; now rewrite Nat.eqb_refl).
    exists x'. split; [|split; [assumption|split]].
    + unfold forward_loop in *. rewrite seq_S, Notebook.foldM_app, Hrun.
      cbn [mbind result_bind bind foldM fst snd Nat.add].
      rewrite Hstep. cbn [mbind result_bind bind].
      rewrite advance_normal_add. do 3 f_equal. lia.
    + intros b j Hb Hj. rewrite (Hval' b j Hb Hj). cbv zeta.
      change (coef_at (beta s) [Z.of_nat T] (row_of (length [Z.of_nat T]) b))
        with (nth (Z.to_nat (Z.of_nat T)) (beta s) 0).
      rewrite Nat2Z.id, (Hval b j Hb Hj), normal_draws_advance.
      rewrite sum_upto_S, HwT.
      rewrite (sum_upto_ext
                 (fun k => noise_weight (S T) k
                           * normal_draws g (k * (B * N) + (b * N + j))%nat)
                 (fun k => sqrt (nth T (alpha s) 0)
                           * (noise_weight T k
                              * normal_draws g (k * (B * N) + (b * N + j))%nat)) T)
        by (intros k Hk; cbv beta; rewrite (Hw k Hk); ring).
      rewrite sum_upto_scale.
      change (alpha_bar_prev s (S T)) with (nth T (alpha_bar s) 0).
      rewrite (alpha_bar_factor T) by lia.
      rewrite sqrt_mult by lra.
      replace (1 - nth T (beta s) 0) with (nth T (alpha s) 0) by lra.
      ring.
    + rewrite sum_upto_S, HwT.
      rewrite (sum_upto_ext _
                 (fun k => nth T (alpha s) 0
                           * (noise_weight T k * noise_weight T k)) T).
      * rewrite sum_upto_scale, Hsq, sqrt_sqrt by lra.
        change (alpha_bar_prev s (S T)) with (nth T (alpha_bar s) 0).
        rewrite (alpha_bar_factor T) by lia. lra.
      * intros k Hk. cbv beta. rewrite (Hw k Hk).
        transitivity (sqrt (nth T (alpha s) 0) * sqrt (nth T (alpha s) 0)
                      * (noise_weight T k * noise_weight T k)); [ring|].
        rewrite sqrt_sqrt by lra. reflexivity.
Qed.

End BuiltSchedule.

(** X1.  [gather] checks every index: when all the timesteps lie in
    [[0, len(consts))] it returns one singleton row per timestep holding
    [consts[t_b]]; as soon as one timestep is negative or too large it
    raises a [RuntimeError] (a negative index does not count from the
    end). *)
Theorem gather_checks_every_index (consts : list R) (t : list Z) :
  (in_range (length consts) t
   /\ gather consts t = Ok (map (fun i => [nth (Z.to_nat i) consts 0]) t))
  \/ (~ in_range (length consts) t
      /\ gather consts t = Raise RuntimeError).
Proof.
  destruct (in_range_dec (length consts) t) as [Hin|Hout].
  - left. split; [assumption|]. rewrite gather_in_range by assumption.
    unfold coefs. now rewrite map_map.
  - right. split; [assumption | now apply gather_not_in_range].
Qed.

(** X2.  A timestep outside the schedule makes both diffusion steps
    raise a [RuntimeError], whatever the image tensors are. *)
Theorem steps_reject_timestep_out_of_schedule (s : schedule)
    (x noise : tensor) (t : list Z) (g : generator) :
  wf_schedule s -> ~ in_range (n_steps s) t ->
  q_xt_x0 s x t g = Raise RuntimeError
  /\ p_xt s x noise t g = Raise RuntimeError.
Proof.
  intros (_ & Ha & Hab) Hout. split.
  - unfold q_xt_x0.
    rewrite (gather_not_in_range (alpha_bar s) t) by now rewrite Hab.
    reflexivity.
  - unfold p_xt.
    rewrite (gather_not_in_range (alpha s) t) by now rewrite Ha.
    reflexivity.
Qed.

Lemma steps_reject_timestep_out_of_schedule_witness :
  q_xt_x0 module_schedule [[1; 2]] [1000%Z] sample_generator
    = Raise RuntimeError
  /\ p_xt module_schedule [[1; 2]] [[3; 4]] [1000%Z] sample_generator
    = Raise RuntimeError.
Proof.
  apply (steps_reject_timestep_out_of_schedule module_schedule
           [[1; 2]] [[3; 4]] [1000%Z] sample_generator).
  - apply wf_build_schedule.
  - intros H. inversion H as [|? ? Hi _]. simpl in Hi. lia.
Defined.

(** X3.  A timestep tensor must have one entry per sample or a single
    entry: with at least two samples and at least two timesteps whose
    numbers differ, both diffusion steps raise a [RuntimeError]. *)
Theorem steps_reject_mismatched_timesteps (s : schedule) (B N : nat)
    (x noise : tensor) (t : list Z) (g : generator) :
  wf_schedule s -> has_shape B N x -> has_shape B N noise ->
  in_range (n_steps s) t ->
  (2 <= B)%nat -> (2 <= length t)%nat -> length t <> B ->
  q_xt_x0 s x t g = Raise RuntimeError
  /\ p_xt s x noise t g = Raise RuntimeError.
Proof.
  intros (Hb & Ha & Hab) [Hx _] [Hn _] Hr HB Ht Hne.
  set (gat := fun consts => map (fun i => nth (Z.to_nat i) consts 0) t).
  assert (Hg : forall consts, length (gat consts) = length t)
    by (intros; unfold gat; now rewrite length_map).
  split.
  - unfold q_xt_x0, tmul.
    step_ok (gather_in_range (alpha_bar s) t ltac:(now rewrite Hab)).
    fold (gat (alpha_bar s)). rewrite tsqrt_coefs. unfold pointwise.
    rewrite broadcast_mismatch; [reflexivity| | |];
      unfold coefs; rewrite ?length_map, ?Hg; lia.
  - unfold p_xt, tmul, tdiv.
    step_ok (gather_in_range (alpha s) t ltac:(now rewrite Ha)).
    step_ok (gather_in_range (alpha_bar s) t ltac:(now rewrite Hab)).
    step_ok (gather_in_range (beta s) t ltac:(now rewrite Hb)).
    fold (gat (alpha s)) (gat (alpha_bar s)) (gat (beta s)).
    rewrite !rsub_coefs, !tsqrt_coefs.
    step_ok (pointwise_coefs Rdiv (map (fun v => 1 - v) (gat (alpha s)))
               (map sqrt (map (fun v => 1 - v) (gat (alpha_bar s))))
               ltac:(now rewrite !length_map, !Hg)).
    unfold pointwise.
    rewrite broadcast_mismatch; [reflexivity| | |];
      unfold coefs; rewrite ?length_map, ?length_zip_with, ?length_map, ?Hg; lia.
Qed.

Lemma steps_reject_mismatched_timesteps_witness :
  q_xt_x0 module_schedule [[1]; [2]; [3]] [0%Z; 1%Z] sample_generator
    = Raise RuntimeError
  /\ p_xt module_schedule [[1]; [2]; [3]] [[4]; [5]; [6]] [0%Z; 1%Z]
       sample_generator
    = Raise RuntimeError.
Proof.
  apply (steps_reject_mismatched_timesteps module_schedule 3 1
           [[1]; [2]; [3]] [[4]; [5]; [6]] [0%Z; 1%Z] sample_generator).
  - apply wf_build_schedule.
  - split; [reflexivity | repeat constructor].
  - split; [reflexivity | repeat constructor].
  - repeat constructor; simpl; lia.
  - lia.
  - simpl. lia.
  - simpl. lia.
Defined.

(** X4.  The sampling loop of [cddpm.py] hands [p_xt] one timestep for
    the whole batch ([t.unsqueeze(0)]): the step succeeds for any batch
    size and applies the coefficients of that one timestep to every
    sample, each entry with its own fresh normal variate. *)
Theorem p_xt_single_timestep (s : schedule) (B N : nat)
    (xt noise : tensor) (t0 : Z) (g : generator) :
  wf_schedule s -> has_shape B N xt -> has_shape B N noise ->
  (0 <= t0 < Z.of_nat (n_steps s))%Z ->
  exists xt_1,
    p_xt s xt noise [t0] g = Ok (xt_1, advance_normal g (B * N))
    /\ has_shape B N xt_1
    /\ forall b j, (b < B)%nat -> (j < N)%nat ->
         let alpha_t := nth (Z.to_nat t0) (alpha s) 0 in
         let alpha_bar_t := nth (Z.to_nat t0) (alpha_bar s) 0 in
         let beta_t := nth (Z.to_nat t0) (beta s) 0 in
         let eps_coef := (1 - alpha_t) / sqrt (1 - alpha_bar_t) in
         let mu := (at2 xt b j - eps_coef * at2 noise b j) / sqrt alpha_t in
         at2 xt_1 b j = mu + sqrt beta_t * normal_draws g (b * N + j)%nat.
Proof.
  intros Hwf Hx Hn Ht.
  assert (Hr : in_range (n_steps s) [t0]) by (repeat constructor; lia).
  exact (p_xt_run s B N xt noise [t0] g Hwf Hx Hn (or_intror eq_refl) Hr).
Qed.

Lemma p_xt_single_timestep_witness :
  let s := build_schedule 2 0.0001 0.04 in
  let xt := [[1; 2]; [3; 4]; [5; 6]] in
  let noise := [[0; 1]; [1; 0]; [1; 1]] in
  exists xt_1,
    p_xt s xt noise [1%Z] sample_generator
      = Ok (xt_1, advance_normal sample_generator (3 * 2))
    /\ has_shape 3 2 xt_1
    /\ forall b j, (b < 3)%nat -> (j < 2)%nat ->
         let alpha_t := nth (Z.to_nat 1) (alpha s) 0 in
         let alpha_bar_t := nth (Z.to_nat 1) (alpha_bar s) 0 in
         let beta_t := nth (Z.to_nat 1) (beta s) 0 in
         let eps_coef := (1 - alpha_t) / sqrt (1 - alpha_bar_t) in
         let mu := (at2 xt b j - eps_coef * at2 noise b j) / sqrt alpha_t in
         at2 xt_1 b j
         = mu + sqrt beta_t * normal_draws sample_generator (b * 2 + j)%nat.
Proof.
  apply (p_xt_single_timestep (build_schedule 2 0.0001 0.04) 3 2
           [[1; 2]; [3; 4]; [5; 6]] [[0; 1]; [1; 0]; [1; 1]] 1%Z
           sample_generator).
  - repeat split; reflexivity.
  - split; [reflexivity | repeat constructor].
  - split; [reflexivity | repeat constructor].
  - simpl. lia.
Defined.

(** X5.  One forward step of the notebook, called with one timestep for
    the whole batch: it returns
    [sqrt(1 - beta_t) * x + sqrt(beta_t) * z] with [z] the next block of
    normal variates, and on a schedule built within the documented
    bounds the two squared coefficients add up to one (the step keeps
    unit variance). *)
Theorem q_xt_xtminus1_step (n : nat) (bs be : R) (B N : nat)
    (x : tensor) (t0 : nat) (g : generator) :
  (2 <= n)%nat -> 0 < bs -> bs < be -> be < 1 ->
  has_shape B N x -> (t0 < n)%nat ->
  let s := build_schedule n bs be in
  let beta_t := nth t0 (beta s) 0 in
  exists x_t,
    q_xt_xtminus1 s x [Z.of_nat t0] g = Ok (x_t, advance_normal g (B * N))
    /\ has_shape B N x_t
    /\ (forall b j, (b < B)%nat -> (j < N)%nat ->
          at2 x_t b j
          = sqrt (1 - beta_t) * at2 x b j
            + sqrt beta_t * normal_draws g (b * N + j)%nat)
    /\ sqrt (1 - beta_t) * sqrt (1 - beta_t) + sqrt beta_t * sqrt beta_t = 1.
Proof.
  intros Hn H0 Hlt H1 Hx Ht s beta_t.
  assert (Hr : in_range (n_steps s) [Z.of_nat t0])
    by (repeat constructor; simpl; lia).
  destruct (q_xt_xtminus1_run s B N x [Z.of_nat t0] g
              (wf_build_schedule n bs be) Hx (or_intror eq_refl) Hr)
    as (x_t & Hrun & Hshape & Hval).
  exists x_t. split; [assumption|]. split; [assumption|]. split.
  - intros b j Hb Hj. rewrite (Hval b j Hb Hj). cbv zeta.
    change (coef_at (beta s) [Z.of_nat t0] (row_of (length [Z.of_nat t0]) b))
      with (nth (Z.to_nat (Z.of_nat t0)) (beta s) 0).
    now rewrite Nat2Z.id.
  - pose proof (beta_in_unit n bs be t0 Hn H0 Hlt H1 Ht) as Hbeta.
    fold s in Hbeta. fold beta_t in Hbeta.
    rewrite !sqrt_sqrt by lra. lra.
Qed.

Lemma q_xt_xtminus1_step_witness :
  let s := build_schedule 100 0.0001 0.04 in
  let beta_t := nth 20 (beta s) 0 in
  exists x_t,
    q_xt_xtminus1 s [[1; 2]; [3; 4]] [Z.of_nat 20] sample_generator
      = Ok (x_t, advance_normal sample_generator (2 * 2))
    /\ has_shape 2 2 x_t
    /\ (forall b j, (b < 2)%nat -> (j < 2)%nat ->
          at2 x_t b j
          = sqrt (1 - beta_t) * at2 [[1; 2]; [3; 4]] b j
            + sqrt beta_t * normal_draws sample_generator (b * 2 + j)%nat)
    /\ sqrt (1 - beta_t) * sqrt (1 - beta_t) + sqrt beta_t * sqrt beta_t = 1.
Proof.
  apply (q_xt_xtminus1_step 100 0.0001 0.04 2 2 [[1; 2]; [3; 4]] 20
           sample_generator); try lra; try lia.
  split; [reflexivity | repeat constructor].
Defined.

(** X6.  Iterating the notebook's forward step from [x0] for the
    timesteps [0 .. T-1] gives, entry by entry, a linear combination of
    [x0] and of the [T] noise tensors drawn on the way: the coefficient
    of [x0] is [sqrt(alpha_bar_{T-1})] (1 for [T = 0]) and the squared
    weights of the noises add up to [1 - alpha_bar_{T-1}], which are the
    mean coefficient and the variance [q_xt_x0] uses at [T - 1]. *)
Theorem forward_loop_closed_form (n : nat) (bs be : R) (B N : nat)
    (x0 : tensor) (g : generator) (T : nat) :
  (2 <= n)%nat -> 0 < bs -> bs < be -> be < 1 ->
  has_shape B N x0 -> (T <= n)%nat ->
  let s := build_schedule n bs be in
  exists x_T w,
    forward_loop s T x0 g = Ok (x_T, advance_normal g (T * (B * N)))
    /\ has_shape B N x_T
    /\ (forall b j, (b < B)%nat -> (j < N)%nat ->
          at2 x_T b j
          = sqrt (alpha_bar_prev s T) * at2 x0 b j
            + sum_upto (fun k => w k * normal_draws g (k * (B * N) + (b * N + j))%nat) T)
    /\ sum_upto (fun k => w k * w k) T = 1 - alpha_bar_prev s T.
Proof.
  intros Hn H0 Hlt H1 Hx HT s.
  destruct (forward_loop_spec n bs be Hn H0 Hlt H1 B N x0 g T Hx HT)
    as (x_T & Hrun & Hshape & Hval & Hsq).
  exists x_T, (noise_weight n bs be T).
  split; [assumption|]. split; [assumption|]. split; assumption.
Qed.

Lemma forward_loop_closed_form_witness :
  let s := build_schedule 100 0.0001 0.04 in
  exists x_T w,
    forward_loop s 100 [[1; 2]] sample_generator
      = Ok (x_T, advance_normal sample_generator (100 * (1 * 2)))
    /\ has_shape 1 2 x_T
    /\ (forall b j, (b < 1)%nat -> (j < 2)%nat ->
          at2 x_T b j
          = sqrt (alpha_bar_prev s 100) * at2 [[1; 2]] b j
            + sum_upto (fun k => w k * normal_draws sample_generator
                                        (k * (1 * 2) + (b * 2 + j))%nat) 100)
    /\ sum_upto (fun k => w k * w k) 100 = 1 - alpha_bar_prev s 100.
Proof.
  apply (forward_loop_closed_form 100 0.0001 0.04 1 2 [[1; 2]]
           sample_generator 100); try lra; try lia.
  split; [reflexivity | repeat constructor].
Defined.

(** X7.  A reverse step taken from an image that [q_xt_x0] has just
    noised, and given that very noise as the prediction, returns
    [sqrt(alpha_bar_{t-1}) * x0
     + sqrt(alpha_t) * (1 - alpha_bar_{t-1}) / sqrt(1 - alpha_bar_t) * noise
     + sqrt(beta_t) * z]
    with [z] the variates drawn after the noise: at [t = 0] this is
    [x0 + sqrt(beta_0) * z], and for [t >= 1] the coefficient of the
    noise is positive, so the noise does not cancel. *)
Theorem reverse_of_forward_with_true_noise (n : nat) (bs be : R) (B N : nat)
    (x0 : tensor) (t : list Z) (g : generator) :
  (2 <= n)%nat -> 0 < bs -> bs < be -> be < 1 ->
  has_shape B N x0 -> length t = B -> in_range n t ->
  let s := build_schedule n bs be in
  exists x_t eps g1 x',
    q_xt_x0 s x0 t g = Ok ((x_t, eps), g1)
    /\ p_xt s x_t eps t g1 = Ok (x', advance_normal g (B * N + B * N))
    /\ forall b j, (b < B)%nat -> (j < N)%nat ->
         let i := Z.to_nat (nth b t 0%Z) in
         let z := normal_draws g (B * N + (b * N + j))%nat in
         at2 eps b j = normal_draws g (b * N + j)%nat
         /\ at2 x' b j
            = sqrt (alpha_bar_prev s i) * at2 x0 b j
              + sqrt (nth i (alpha s) 0) * (1 - alpha_bar_prev s i)
                / sqrt (1 - nth i (alpha_bar s) 0) * at2 eps b j
              + sqrt (nth i (beta s) 0) * z
         /\ (i = 0%nat ->
             at2 x' b j = at2 x0 b j + sqrt (nth 0 (beta s) 0) * z)
         /\ (i <> 0%nat ->
             0 < sqrt (nth i (alpha s) 0) * (1 - alpha_bar_prev s i)
                 / sqrt (1 - nth i (alpha_bar s) 0)).
Proof.
  intros Hn H0 Hlt H1 Hx Ht Hr s.
  pose proof (wf_build_schedule n bs be) as Hwf. fold s in Hwf.
  destruct (q_xt_x0_run s B N x0 t g Hwf Hx (or_introl Ht) Hr)
    as (x_t & Hq & Hxt & Hqv).
  assert (Heps : has_shape B N (fst (randn_like x0 g)))
    by (unfold randn_like; cbn [fst]; now apply has_shape_randn_rows).
  destruct (p_xt_run s B N x_t (fst (randn_like x0 g)) t
              (advance_normal g (B * N)) Hwf Hxt Heps (or_introl Ht) Hr)
    as (x' & Hp & _ & Hpv).
  exists x_t, (fst (randn_like x0 g)), (advance_normal g (B * N)), x'.
  split; [assumption|]. split.
  - rewrite Hp. now rewrite advance_normal_add.
  - intros b j Hb Hj. cbv zeta.
    destruct (Hqv b j Hb Hj) as [He Hv]. cbv zeta in Hv.
    specialize (Hpv b j Hb Hj). cbv zeta in Hpv.
    rewrite (row_of_full B (length t) b Ht Hb) in Hv, Hpv.
    unfold coef_at in Hv, Hpv.
    assert (Hi : (Z.to_nat (nth b t 0%Z) < n)%nat).
    { assert (Hbt : (b < length t)%nat) by lia.
      unfold in_range in Hr. rewrite List.Forall_forall in Hr.
      specialize (Hr (nth b t 0%Z) (nth_In t 0%Z Hbt)). lia. }
    set (i := Z.to_nat (nth b t 0%Z)) in *.
    pose proof (alpha_in_unit n bs be i Hn H0 Hlt H1 Hi) as Ha.
    pose proof (alpha_bar_below_one n bs be i Hn H0 Hlt H1 Hi) as Hb1.
    pose proof (alpha_bar_prev_pos n bs be Hn H0 Hlt H1 i ltac:(lia)) as Hpp.
    pose proof (alpha_bar_factor n bs be Hn i Hi) as Hf.
    fold s in Ha, Hb1, Hpp, Hf.
    assert (Hmain :
      at2 x' b j
      = sqrt (alpha_bar_prev s i) * at2 x0 b j
        + sqrt (nth i (alpha s) 0) * (1 - alpha_bar_prev s i)
          / sqrt (1 - nth i (alpha_bar s) 0) * at2 (fst (randn_like x0 g)) b j
        + sqrt (nth i (beta s) 0) * normal_draws g (B * N + (b * N + j))%nat).
    { rewrite Hpv, Hv, normal_draws_advance, <- He, Hf.
      rewrite posterior_mean_algebra by (try assumption; lra).
      reflexivity. }
    split; [assumption|]. split; [assumption|]. split.
    + intros Hz. rewrite Hmain, Hz. cbn [alpha_bar_prev].
      rewrite sqrt_1. unfold Rdiv. ring.
    + intros Hnz. destruct i as [|k] eqn:Ei; [contradiction|].
      cbn [alpha_bar_prev].
      pose proof (alpha_bar_below_one n bs be k Hn H0 Hlt H1 ltac:(lia)) as Hk.
      fold s in Hk.
      apply Rdiv_lt_0_compat; [|apply sqrt_lt_R0; lra].
      apply Rmult_lt_0_compat; [apply sqrt_lt_R0; lra | lra].
Qed.

Lemma reverse_of_forward_with_true_noise_witness :
  let s := build_schedule 3 0.0001 0.04 in
  let x0 := [[1; 2]; [3; 4]] in
  let t := [0%Z; 2%Z] in
  let g := sample_generator in
  exists x_t eps g1 x',
    q_xt_x0 s x0 t g = Ok ((x_t, eps), g1)
    /\ p_xt s x_t eps t g1 = Ok (x', advance_normal g (2 * 2 + 2 * 2))
    /\ forall b j, (b < 2)%nat -> (j < 2)%nat ->
         let i := Z.to_nat (nth b t 0%Z) in
         let z := normal_draws g (2 * 2 + (b * 2 + j))%nat in
         at2 eps b j = normal_draws g (b * 2 + j)%nat
         /\ at2 x' b j
            = sqrt (alpha_bar_prev s i) * at2 x0 b j
              + sqrt (nth i (alpha s) 0) * (1 - alpha_bar_prev s i)
                / sqrt (1 - nth i (alpha_bar s) 0) * at2 eps b j
              + sqrt (nth i (beta s) 0) * z
         /\ (i = 0%nat ->
             at2 x' b j = at2 x0 b j + sqrt (nth 0 (beta s) 0) * z)
         /\ (i <> 0%nat ->
             0 < sqrt (nth i (alpha s) 0) * (1 - alpha_bar_prev s i)
                 / sqrt (1 - nth i (alpha_bar s) 0)).
Proof.
  apply (reverse_of_forward_with_true_noise 3 0.0001 0.04 2 2
           [[1; 2]; [3; 4]] [0%Z; 2%Z] sample_generator); try lra; try lia.
  - split; [reflexivity | repeat constructor].
  - reflexivity.
  - repeat constructor; simpl; lia.
Defined.

(** X8.  The first [q_xt_x0] of the notebook returns exactly the noised
    image the training variant returns, consumes the same variates, and
    fails in the same cases; it only drops the noise. *)
Theorem q_xt_x0_demo_is_first_component (s : schedule) (x0 : tensor)
    (t : list Z) (g : generator) :
  q_xt_x0_demo s x0 t g
  = (r ← q_xt_x0 s x0 t g; Ok (fst (fst r), snd r)).
Proof.
  unfold q_xt_x0_demo, q_xt_x0.
  destruct (gather (alpha_bar s) t) as [abar|e]; [|reflexivity].
  cbn [mbind result_bind bind].
  destruct (tmul (tsqrt abar) x0) as [mean|e]; [|reflexivity].
  cbn [mbind result_bind bind].
  destruct (randn_like x0 g) as [noise g'].
  destruct (tmul (tsqrt (rsub 1 abar)) noise) as [scaled|e]; [|reflexivity].
  cbn [mbind result_bind bind].
  destruct (tadd mean scaled) as [x_t|e]; reflexivity.
Qed.

Lemma coefficients_in_domain_witness :
  let s := build_schedule 1000 0.0001 0.04 in
  let t := [999%Z; 0%Z] in
  0 < coef_at (alpha s) t 0
  /\ 0 < coef_at (beta s) t 0
  /\ 0 < coef_at (alpha_bar s) t 0
  /\ 0 < 1 - coef_at (alpha_bar s) t 0
  /\ 0 < sqrt (1 - coef_at (alpha_bar s) t 0)
  /\ 0 < sqrt (coef_at (alpha s) t 0).
Proof.
  apply (coefficients_in_domain 1000 0.0001 0.04 [999%Z; 0%Z] 0);
    try lra; try lia.
  - repeat constructor; lia.
  - simpl. lia.
Defined.

End DiffusionProps.

(** ** More on [EMAModel]: invariants of [step] and the general decay *)

Module EmaProps.
Import Ema.
Local Open Scope R_scope.

(** [step] of [get_decay]: the number of updates past the warm-up start. *)
Definition running_step (self : EMAModel) (s : Z) : Z :=
  Z.max 0 (s - update_after_step self - 1).

(** The decay [get_decay] returns when [inv_gamma] is positive. *)
Definition decay_value (self : EMAModel) (s : Z) : R :=
  if (running_step self s <=? 0)%Z then 0
  else clamp (1 - Rpower (1 + IZR (running_step self s) / inv_gamma self)
                         (- power self))
             (min_value self) (max_value self).

(** Every tensor of [P] is still in [P'], with its shape. *)
Definition keeps_shapes (P P' : gmap string weights) : Prop :=
  forall k old, P !! k = Some old ->
    exists new, P' !! k = Some new /\ length new = length old.

(** No name is added. *)
Definition adds_no_name (P P' : gmap string weights) : Prop :=
  forall k, P !! k = None -> P' !! k = None.

(** A sequence of calls of [step], one per live model. *)
Definition steps (self : EMAModel) (ms : list Model) : result EMAModel :=
  foldM step self ms.

Lemma get_decay_value self s :
  0 < inv_gamma self -> get_decay self s = Ok (decay_value self s).
Proof.
  intros Hg. unfold decay_value, running_step.
  destruct (Z.leb_spec (Z.max 0 (s - update_after_step self - 1)) 0) as [H|H].
  - apply get_decay_warmup; [lra | assumption].
  - apply get_decay_running; [lra | assumption |].
    assert (0 < IZR (Z.max 0 (s - update_after_step self - 1)))
      by (apply IZR_lt; lia).
    assert (0 < IZR (Z.max 0 (s - update_after_step self - 1)) / inv_gamma self)
      by (apply Rdiv_lt_0_compat; assumption).
    lra.
Qed.

Lemma decay_value_bounds self s :
  0 <= min_value self -> min_value self <= max_value self ->
  0 <= decay_value self s <= max_value self.
Proof.
  intros H0 Hle. unfold decay_value.
  destruct (Z.leb_spec (running_step self s) 0); [lra|].
  pose proof (clamp_bounds
                (1 - Rpower (1 + IZR (running_step self s) / inv_gamma self)
                            (- power self))
                (min_value self) (max_value self) Hle).
  lra.
Qed.

Lemma decay_value_mono self s1 s2 :
  0 < inv_gamma self -> 0 <= power self -> 0 <= min_value self ->
  (s1 <= s2)%Z -> decay_value self s1 <= decay_value self s2.
Proof.
  intros Hg Hp Hm Hs. unfold decay_value, running_step.
  set (a := Z.max 0 (s1 - update_after_step self - 1)).
  set (b := Z.max 0 (s2 - update_after_step self - 1)).
  assert (Hab : (a <= b)%Z) by (unfold a, b; lia).
  destruct (Z.leb_spec a 0) as [Ha|Ha]; destruct (Z.leb_spec b 0) as [Hb|Hb].
  - lra.
  - unfold clamp. apply Rle_trans with (min_value self); [assumption|].
    apply Rmax_l.
  - lia.
  - apply clamp_mono.
    assert (0 < IZR a) by (apply IZR_lt; lia).
    assert (IZR a <= IZR b) by (apply IZR_le; lia).
    assert (0 < IZR a / inv_gamma self) by (apply Rdiv_lt_0_compat; assumption).
    assert (IZR a / inv_gamma self <= IZR b / inv_gamma self).
    { unfold Rdiv. apply Rmult_le_compat_r; [|assumption].
      left. now apply Rinv_0_lt_compat. }
    pose proof (Rpower_neg_antitone (1 + IZR a / inv_gamma self)
                  (1 + IZR b / inv_gamma self) (power self)
                  Hp ltac:(lra) ltac:(lra)).
    lra.
Qed.

(** *** What [step] never changes *)

Lemma keeps_shapes_refl P : keeps_shapes P P.
Proof. intros k old H. eauto. Qed.

Lemma keeps_shapes_trans P Q S :
  keeps_shapes P Q -> keeps_shapes Q S -> keeps_shapes P S.
Proof.
  intros H1 H2 k old Hk.
  destruct (H1 k old Hk) as (mid & Hmid & Hl1).
  destruct (H2 k mid Hmid) as (new & Hnew & Hl2).
  exists new. split; [assumption | congruence].
Qed.

Lemma keeps_shapes_insert (P : gmap string weights) key cur new :
  P !! key = Some cur -> length new = length cur ->
  keeps_shapes P (<[key := new]> P).
Proof.
  intros HP Hlen k old Hk. destruct (decide (k = key)) as [->|Hne].
  - rewrite lookup_insert_eq. exists new. split; [reflexivity | congruence].
  - rewrite lookup_insert_ne by auto. eauto.
Qed.

Lemma keeps_shapes_fresh (P : gmap string weights) key seed new :
  P !! key = None -> keeps_shapes P (<[key := new]> (<[key := seed]> P)).
Proof.
  intros HP k old Hk. assert (k <> key) by congruence.
  rewrite !lookup_insert_ne by auto. eauto.
Qed.

Lemma step_param_keeps_shapes d (P S : gmap string weights) kp P1 S1 :
  step_param d (P, S) kp = Ok (P1, S1) -> keeps_shapes P P1.
Proof.
  destruct kp as [key param]. unfold step_param.
  destruct (P !! key) as [cur|] eqn:HP.
  - cbv zeta. rewrite HP. simpl.
    destruct (requires_grad param); simpl.
    + unfold add_, mul_. rewrite length_map.
      destruct (broadcast_to (length cur) (data param)) as [src|] eqn:Hb;
        [|discriminate].
      apply length_broadcast_to in Hb.
      simpl. intros [= <- _].
      apply (keeps_shapes_insert P key cur); [assumption|].
      rewrite length_zip_with, length_map. lia.
    + unfold copy_.
      destruct (broadcast_to (length cur) (data param)) as [src|] eqn:Hb;
        [|discriminate].
      apply length_broadcast_to in Hb.
      simpl. intros [= <- _].
      apply (keeps_shapes_insert P key cur); [assumption | congruence].
  - cbv zeta. rewrite lookup_insert_eq. simpl.
    destruct (requires_grad param); simpl.
    + destruct (add_ _ _ _) as [new|]; simpl; [|discriminate].
      intros [= <- _]. now apply keeps_shapes_fresh.
    + destruct (copy_ _ _) as [new|]; simpl; [|discriminate].
      intros [= <- _]. now apply keeps_shapes_fresh.
Qed.

Lemma fold_params_keeps_shapes d (l : list (string * Param)) :
  forall P S P' S',
  foldM (step_param d) (P, S) l = Ok (P', S') -> keeps_shapes P P'.
Proof.
  induction l as [|kp l IH]; intros P S P' S' H.
  - injection H as <- _. apply keeps_shapes_refl.
  - cbn [foldM] in H.
    destruct (step_param d (P, S) kp) as [[P1 S1]|e] eqn:E; simpl in H;
      [|discriminate].
    eapply keeps_shapes_trans;
      [eapply step_param_keeps_shapes; exact E | eapply IH; exact H].
Qed.

Lemma sizes_match_elim (own sd : gmap string weights) k cur v :
  sizes_match own sd = true -> own !! k = Some cur -> sd !! k = Some v ->
  length v = length cur.
Proof.
  unfold sizes_match. rewrite forallb_forall. intros H Hc Hv.
  assert (Hin : In (k, cur) (map_to_list own))
    by (apply list_elem_of_In, elem_of_map_to_list; assumption).
  specialize (H _ Hin). simpl in H. rewrite Hv in H.
  now apply Nat.eqb_eq in H.
Qed.

(** Whatever the live model is, a call of [step] that returns has counted
    itself, kept the settings, added or removed no name of the shadow and
    changed no shape. *)
Lemma step_invariants (self self' : EMAModel) (m : Model) :
  step self m = Ok self' ->
  optimization_step self' = (optimization_step self + 1)%Z
  /\ get_decay self (optimization_step self) = Ok (decay self')
  /\ (update_after_step self' = update_after_step self
      /\ inv_gamma self' = inv_gamma self
      /\ power self' = power self
      /\ min_value self' = min_value self
      /\ max_value self' = max_value self)
  /\ adds_no_name (averaged_model self) (averaged_model self')
  /\ keeps_shapes (averaged_model self) (averaged_model self').
Proof.
  unfold step. intros H.
  destruct (get_decay self (optimization_step self)) as [d|] eqn:Hd;
    simpl in H; [|discriminate].
  destruct (foldM (step_param d) (averaged_model self, ∅) (named_parameters m))
    as [[P' S']|] eqn:Hf; simpl in H; [|discriminate].
  set (S'' := fold_left step_buffer (named_buffers m) S') in *.
  set (own := map_imap (fun k _ => P' !! k) (averaged_model self)) in *.
  destruct (load_state_dict own S'') as [loaded|] eqn:Hl; simpl in H;
    [|discriminate].
  injection H as <-. cbn.
  pose proof (fun k => load_state_dict_lookup own S'' loaded k Hl) as Hlk.
  assert (Hown : forall k, own !! k
                           = match averaged_model self !! k with
                             | Some _ => P' !! k
                             | None => None
                             end).
  { intros k. unfold own. rewrite map_lookup_imap.
    destruct (averaged_model self !! k); reflexivity. }
  assert (Hsz : sizes_match own S'' = true).
  { unfold load_state_dict in Hl. destruct (sizes_match own S'');
      [reflexivity | discriminate]. }
  split; [reflexivity|]. split; [reflexivity|].
  split; [repeat split|]. split.
  - intros k Hk. now rewrite Hlk, Hown, Hk.
  - intros k old Hk.
    destruct (fold_params_keeps_shapes d _ _ _ _ _ Hf k old Hk)
      as (cur & Hcur & Hlen).
    assert (Ho : own !! k = Some cur) by now rewrite Hown, Hk.
    rewrite Hlk, Ho. eexists. split; [reflexivity|].
    destruct (S'' !! k) as [v|] eqn:Hv; simpl; [|assumption].
    rewrite (sizes_match_elim own S'' k cur v Hsz Ho Hv). assumption.
Qed.

Lemma same_shapes_kept (A A' : gmap string weights) (m : Model) :
  adds_no_name A A' -> keeps_shapes A A' -> same_shapes A m -> same_shapes A' m.
Proof.
  intros Hno Hk [Hp Hb]. split.
  - intros k p new Hkp Hnew.
    destruct (A !! k) as [old|] eqn:Hold.
    + destruct (Hk k old Hold) as (new' & Hn' & Hl).
      assert (new' = new) by congruence. subst.
      rewrite Hl. eauto.
    + rewrite (Hno k Hold) in Hnew. discriminate.
  - intros k b new Hkb Hnew.
    destruct (A !! k) as [old|] eqn:Hold.
    + destruct (Hk k old Hold) as (new' & Hn' & Hl).
      assert (new' = new) by congruence. subst.
      rewrite Hl. eauto.
    + rewrite (Hno k Hold) in Hnew. discriminate.
Qed.

Lemma steps_spec (ms : list Model) :
  forall self : EMAModel,
  0 < inv_gamma self ->
  Forall (fun m => unique_names m /\ same_shapes (averaged_model self) m) ms ->
  exists self',
    steps self ms = Ok self'
    /\ optimization_step self'
       = (optimization_step self + Z.of_nat (length ms))%Z
    /\ inv_gamma self' = inv_gamma self
    /\ adds_no_name (averaged_model self) (averaged_model self')
    /\ keeps_shapes (averaged_model self) (averaged_model self').
Proof.
  unfold steps.
  induction ms as [|m ms IH]; intros self Hg Hall.
  - exists self. split; [reflexivity|]. split; [simpl; lia|].
    split; [reflexivity|]. split; [intros k H; exact H | apply keeps_shapes_refl].
  - apply List.Forall_cons_iff in Hall as [[Hu Hs] Hall].
    destruct (step_spec self m _ (get_decay_value self _ Hg) Hu Hs)
      as (self1 & Hrun & _).
    destruct (step_invariants self self1 m Hrun)
      as (Hc1 & _ & (_ & Hg1 & _) & Hno1 & Hk1).
    destruct (IH self1) as (self' & Hrun' & Hc & Hg' & Hno & Hk).
    { now rewrite Hg1. }
    { eapply Forall_impl; [exact Hall|]. intros m' [Hu' Hs']. simpl.
      split; [assumption|]. now apply (same_shapes_kept (averaged_model self)). }
    exists self'. cbn [foldM]. rewrite Hrun. cbn [mbind result_bind bind].
    split; [assumption|]. split; [rewrite Hc, Hc1; cbn [length]; lia|].
    split; [congruence|]. split.
    + intros k Hnone. apply Hno, Hno1, Hnone.
    + eapply keeps_shapes_trans; eassumption.
Qed.

(** *** When [step] returns *)

Lemma step_param_fails d st kp :
  (exists st', step_param d st kp = Ok st')
  \/ step_param d st kp = Raise RuntimeError.
Proof.
  destruct st as [P S], kp as [key param]. unfold step_param. cbv zeta.
  destruct (negb (requires_grad param)).
  - unfold copy_.
    destruct (broadcast_to_fails
                (length (default [] (match P !! key with
                                     | Some _ => P
                                     | None => <[key := if Nat.eqb (ndim param) 1
                                                        then float_clone (data param)
                                                        else deepcopy (data param)]> P
                                     end !! key)))
                (data param)) as [[out E]|E]; rewrite E; [left; eauto | now right].
  - unfold add_.
    destruct (broadcast_to_fails
                (length (mul_ (default [] (match P !! key with
                                           | Some _ => P
                                           | None => <[key := if Nat.eqb (ndim param) 1
                                                              then float_clone (data param)
                                                              else deepcopy (data param)]> P
                                           end !! key)) d))
                (data param)) as [[out E]|E]; rewrite E; [left; eauto | now right].
Qed.

Lemma fold_params_fails d (l : list (string * Param)) :
  forall st,
  (exists st', foldM (step_param d) st l = Ok st')
  \/ foldM (step_param d) st l = Raise RuntimeError.
Proof.
  induction l as [|kp l IH]; intros st; [left; eauto|].
  cbn [foldM].
  destruct (step_param_fails d st kp) as [[st' E]|E]; rewrite E;
    cbn [mbind result_bind bind]; [apply IH | now right].
Qed.

(** Past [get_decay], a call of [step] returns or raises a
    [RuntimeError]. *)
Lemma step_fails (self : EMAModel) (m : Model) d :
  get_decay self (optimization_step self) = Ok d ->
  (exists self', step self m = Ok self') \/ step self m = Raise RuntimeError.
Proof.
  intros Hd. unfold step. rewrite Hd. cbn [mbind result_bind bind].
  destruct (fold_params_fails d (named_parameters m) (averaged_model self, ∅))
    as [[[P' S'] E]|E]; rewrite E; cbn [mbind result_bind bind]; [|now right].
  unfold load_state_dict. destruct (sizes_match _ _); [left; eauto | now right].
Qed.

Lemma step_param_broadcastable d (P S : gmap string weights) key param st' old :
  step_param d (P, S) (key, param) = Ok st' -> P !! key = Some old ->
  broadcastable old (data param).
Proof.
  unfold step_param. intros H HP. cbv zeta in H. rewrite HP in H.
  rewrite HP in H. simpl in H.
  destruct (requires_grad param); simpl in H.
  - unfold add_, mul_ in H. rewrite length_map in H.
    destruct (broadcast_to (length old) (data param)) as [src|] eqn:Hb;
      [|discriminate].
    now apply broadcast_to_inv in Hb.
  - unfold copy_ in H.
    destruct (broadcast_to (length old) (data param)) as [src|] eqn:Hb;
      [|discriminate].
    now apply broadcast_to_inv in Hb.
Qed.

Lemma broadcastable_length old old' src :
  length old' = length old -> broadcastable old src -> broadcastable old' src.
Proof. unfold broadcastable. intros ->. auto. Qed.

Lemma fold_params_broadcastable d (l : list (string * Param)) :
  forall P S st',
  foldM (step_param d) (P, S) l = Ok st' ->
  forall k p old, (k, p) ∈ l -> P !! k = Some old -> broadcastable old (data p).
Proof.
  induction l as [|[k0 p0] l IH]; intros P S st' H k p old Hin Hold;
    [inversion Hin|].
  cbn [foldM] in H.
  destruct (step_param d (P, S) (k0, p0)) as [[P1 S1]|e] eqn:E; simpl in H;
    [|discriminate].
  apply elem_of_cons in Hin as [Heq|Hin].
  - injection Heq as -> ->. exact (step_param_broadcastable _ _ _ _ _ _ _ E Hold).
  - destruct (step_param_keeps_shapes d P S (k0, p0) P1 S1 E k old Hold)
      as (old1 & Hold1 & Hlen).
    apply (broadcastable_length old1); [congruence|].
    exact (IH P1 S1 st' H k p old1 Hin Hold1).
Qed.

(** A call of [step] returns only if the shapes fit. *)
Lemma step_ok_shapes_fit (self self' : EMAModel) (m : Model) :
  unique_names m -> step self m = Ok self' ->
  shapes_fit (averaged_model self) m.
Proof.
  intros Hu H. unfold step in H.
  destruct (get_decay self (optimization_step self)) as [d|] eqn:Hd;
    simpl in H; [|discriminate].
  destruct (foldM (step_param d) (averaged_model self, ∅) (named_parameters m))
    as [[P' S']|] eqn:Hf; simpl in H; [|discriminate].
  set (S'' := fold_left step_buffer (named_buffers m) S') in *.
  set (own := map_imap (fun k _ => P' !! k) (averaged_model self)) in *.
  destruct (load_state_dict own S'') as [loaded|] eqn:Hl; simpl in H;
    [|discriminate].
  split.
  - intros k p old Hkp Hold.
    exact (fold_params_broadcastable d _ _ _ _ Hf k p old Hkp Hold).
  - intros k b old Hkb Hold.
    apply NoDup_app in Hu as (_ & _ & Hndb).
    destruct (fold_buffers (named_buffers m) S' Hndb) as [_ Hbin].
    destruct (fold_params_keeps_shapes d _ _ _ _ _ Hf k old Hold)
      as (cur & Hcur & Hlen).
    assert (Ho : own !! k = Some cur).
    { unfold own. rewrite map_lookup_imap, Hold. exact Hcur. }
    assert (Hsz : sizes_match own S'' = true).
    { unfold load_state_dict in Hl. destruct (sizes_match own S'');
        [reflexivity | discriminate]. }
    rewrite (sizes_match_elim own S'' k cur b Hsz Ho (Hbin k b Hkb)).
    exact Hlen.
Qed.

Lemma blend_repeat d (old : weights) v :
  blend d old (repeat v (length old))
  = map (fun a => a * d + v * (1 - d)) old.
Proof.
  unfold blend. induction old as [|a old IH]; [reflexivity|].
  cbn [length repeat zip_with map]. now rewrite IH.
Qed.

(** A live model whose weight has a single entry, where the shadow's has
    two. *)
Definition narrow_model : Model :=
  {| named_parameters :=
       [("w"%string, {| data := [5]; requires_grad := true; ndim := 1 |})];
     named_buffers := [("n"%string, [7])] |}.

Lemma unique_names_narrow : unique_names narrow_model.
Proof.
  unfold unique_names. simpl.
  apply NoDup_cons. split; [|apply NoDup_singleton].
  intros H. apply list_elem_of_singleton in H. discriminate.
Qed.

Lemma shapes_fit_narrow :
  shapes_fit (averaged_model (init_default tracked_model)) narrow_model.
Proof.
  split.
  - intros k p old Hkp Hold. apply list_elem_of_singleton in Hkp.
    injection Hkp as -> ->. now right.
  - intros k b old Hkb Hold. apply list_elem_of_singleton in Hkb.
    injection Hkb as -> ->. vm_compute in Hold. injection Hold as <-.
    reflexivity.
Qed.

(** X10.  A call of [step] that returns, whatever the live model is, has
    counted itself, stored the decay [get_decay] gave, kept the five
    settings, and left the layout of the shadow alone: no name is added,
    none is removed, and every tensor keeps its shape. *)
Theorem step_keeps_names_and_shapes (self self' : EMAModel) (m : Model) :
  step self m = Ok self' ->
  optimization_step self' = (optimization_step self + 1)%Z
  /\ get_decay self (optimization_step self) = Ok (decay self')
  /\ (update_after_step self' = update_after_step self
      /\ inv_gamma self' = inv_gamma self
      /\ power self' = power self
      /\ min_value self' = min_value self
      /\ max_value self' = max_value self)
  /\ (forall k, averaged_model self !! k = None ->
                averaged_model self' !! k = None)
  /\ (forall k old, averaged_model self !! k = Some old ->
        exists new, averaged_model self' !! k = Some new
                    /\ length new = length old).
Proof. exact (step_invariants self self' m). Qed.

Lemma step_keeps_names_and_shapes_witness :
  exists self',
    step (init_default tracked_model) narrow_model = Ok self'
    /\ optimization_step self' = (0 + 1)%Z
    /\ (forall k, averaged_model (init_default tracked_model) !! k = None ->
                  averaged_model self' !! k = None)
    /\ (forall k old,
          averaged_model (init_default tracked_model) !! k = Some old ->
          exists new, averaged_model self' !! k = Some new
                      /\ length new = length old).
Proof.
  destruct (step_spec_broadcast (init_default tracked_model) narrow_model _
              (get_decay_value (init_default tracked_model) 0 ltac:(simpl; lra))
              unique_names_narrow shapes_fit_narrow)
    as (self' & Hrun & _).
  exists self'. split; [exact Hrun|].
  destruct (step_keeps_names_and_shapes _ _ _ Hrun)
    as (Hc & _ & _ & Hno & Hk).
  split; [exact Hc|]. split; [exact Hno | exact Hk].
Defined.

(** X11.  With a positive [inv_gamma], unique live names and matching
    shapes, [step] succeeds and, with [d] the decay of this call, every
    entry the shadow shares with the live model is updated: a trainable
    parameter to [shadow * d + param * (1 - d)], a frozen parameter and a
    buffer to the live value; every other entry of the shadow is left
    as it is. *)
Theorem step_updates_tracked_entries (self : EMAModel) (m : Model) :
  0 < inv_gamma self -> unique_names m ->
  same_shapes (averaged_model self) m ->
  let d := decay_value self (optimization_step self) in
  exists self',
    step self m = Ok self'
    /\ decay self' = d
    /\ (forall k p old, (k, p) ∈ named_parameters m ->
          averaged_model self !! k = Some old ->
          averaged_model self' !! k
          = Some (if requires_grad p then blend d old (data p) else data p))
    /\ (forall k b old, (k, b) ∈ named_buffers m ->
          averaged_model self !! k = Some old ->
          averaged_model self' !! k = Some b)
    /\ (forall k, k ∉ (named_parameters m).*1 -> k ∉ (named_buffers m).*1 ->
          averaged_model self' !! k = averaged_model self !! k).
Proof.
  intros Hg Hu Hs d.
  destruct (step_spec self m d (get_decay_value self _ Hg) Hu Hs)
    as (self' & Hrun & _ & Hd & Hpar & Hbuf & _ & Hother).
  exists self'. split; [assumption|]. split; [assumption|].
  split; [exact Hpar|]. split; [exact Hbuf | exact Hother].
Qed.

Lemma step_updates_tracked_entries_witness :
  let self := init_default tracked_model in
  let m := trained_model in
  let d := decay_value self (optimization_step self) in
  exists self',
    step self m = Ok self'
    /\ decay self' = d
    /\ (forall k p old, (k, p) ∈ named_parameters m ->
          averaged_model self !! k = Some old ->
          averaged_model self' !! k
          = Some (if requires_grad p then blend d old (data p) else data p))
    /\ (forall k b old, (k, b) ∈ named_buffers m ->
          averaged_model self !! k = Some old ->
          averaged_model self' !! k = Some b)
    /\ (forall k, k ∉ (named_parameters m).*1 -> k ∉ (named_buffers m).*1 ->
          averaged_model self' !! k = averaged_model self !! k).
Proof.
  apply (step_updates_tracked_entries (init_default tracked_model) trained_model).
  - simpl. lra.
  - exact unique_names_trained.
  - exact same_shapes_trained.
Defined.

(** X12.  Any sequence of calls of [step], on live models with unique
    names whose shapes match the shadow the sequence starts from, runs to
    the end when [inv_gamma] is positive: the counter has advanced by the
    number of calls and the shadow has the names and shapes it started
    with. *)
Theorem steps_count_and_keep_layout (self : EMAModel) (ms : list Model) :
  0 < inv_gamma self ->
  Forall (fun m => unique_names m /\ same_shapes (averaged_model self) m) ms ->
  exists self',
    steps self ms = Ok self'
    /\ optimization_step self'
       = (optimization_step self + Z.of_nat (length ms))%Z
    /\ (forall k, averaged_model self !! k = None ->
                  averaged_model self' !! k = None)
    /\ (forall k old, averaged_model self !! k = Some old ->
          exists new, averaged_model self' !! k = Some new
                      /\ length new = length old).
Proof.
  intros Hg Hall.
  destruct (steps_spec ms self Hg Hall) as (self' & Hrun & Hc & _ & Hno & Hk).
  exists self'. split; [assumption|]. split; [assumption|].
  split; [exact Hno | exact Hk].
Qed.

Lemma steps_count_and_keep_layout_witness :
  let self := init_default tracked_model in
  let ms := [trained_model; grown_model; trained_model] in
  exists self',
    steps self ms = Ok self'
    /\ optimization_step self'
       = (optimization_step self + Z.of_nat (length ms))%Z
    /\ (forall k, averaged_model self !! k = None ->
                  averaged_model self' !! k = None)
    /\ (forall k old, averaged_model self !! k = Some old ->
          exists new, averaged_model self' !! k = Some new
                      /\ length new = length old).
Proof.
  apply (steps_count_and_keep_layout (init_default tracked_model)
           [trained_model; grown_model; trained_model]).
  - simpl. lra.
  - apply List.Forall_cons;
      [split; [exact unique_names_trained | exact same_shapes_trained]|].
    apply List.Forall_cons;
      [split; [exact unique_names_grown | exact same_shapes_grown]|].
    apply List.Forall_cons;
      [split; [exact unique_names_trained | exact same_shapes_trained]|].
    apply List.Forall_nil.
Defined.

(** X13.  With the default arguments the first two calls of [step] both
    run with decay 0: after the second call every trainable entry of the
    shadow equals the weights of the second live model, whatever the
    first one was.  Averaging starts with the third call, whose decay
    is positive. *)
Theorem second_step_still_copies (m0 m1 m2 : Model) :
  unique_names m1 -> unique_names m2 ->
  same_shapes (state_dict m0) m1 -> same_shapes (state_dict m0) m2 ->
  exists e1 e2 d3,
    step (init_default m0) m1 = Ok e1
    /\ step e1 m2 = Ok e2
    /\ decay e1 = 0 /\ decay e2 = 0
    /\ (forall k p old, (k, p) ∈ named_parameters m2 ->
          requires_grad p = true ->
          state_dict m0 !! k = Some old ->
          averaged_model e2 !! k = Some (data p))
    /\ get_decay e2 (optimization_step e2) = Ok d3
    /\ 0 < d3.
Proof.
  intros Hu1 Hu2 Hs1 Hs2.
  assert (Hg0 : 0 < inv_gamma (init_default m0)) by (simpl; lra).
  destruct (step_spec (init_default m0) m1 _
              (get_decay_value (init_default m0) _ Hg0) Hu1 Hs1)
    as (e1 & Hrun1 & _ & Hd1 & _).
  destruct (step_invariants _ _ _ Hrun1)
    as (Hc1 & _ & (Hua1 & Hig1 & Hpw1 & Hmn1 & Hmx1) & Hno1 & Hk1).
  cbn in Hc1, Hua1, Hig1, Hpw1, Hmn1, Hmx1, Hd1.
  assert (Hg1 : 0 < inv_gamma e1) by (rewrite Hig1; lra).
  assert (Hs2' : same_shapes (averaged_model e1) m2)
    by now apply (same_shapes_kept (state_dict m0)).
  destruct (step_spec e1 m2 _ (get_decay_value e1 _ Hg1) Hu2 Hs2')
    as (e2 & Hrun2 & _ & Hd2 & Hpar2 & _).
  destruct (step_invariants _ _ _ Hrun2)
    as (Hc2 & _ & (Hua2 & Hig2 & Hpw2 & Hmn2 & Hmx2) & _).
  assert (Hz1 : decay_value e1 (optimization_step e1) = 0).
  { unfold decay_value, running_step. rewrite Hc1, Hua1. reflexivity. }
  assert (Hg2 : 0 < inv_gamma e2) by (rewrite Hig2; assumption).
  exists e1, e2, (decay_value e2 (optimization_step e2)).
  split; [assumption|]. split; [assumption|].
  split; [exact Hd1|]. split; [now rewrite Hd2|].
  split; [|split; [now apply get_decay_value|]].
  - intros k p old Hkp Hrg Hold.
    destruct (Hk1 k old Hold) as (old1 & Hold1 & _).
    rewrite (Hpar2 k p old1 Hkp Hold1), Hz1. unfold updated. rewrite Hrg.
    rewrite blend_zero; [reflexivity|].
    destruct Hs2' as [Hsp _]. eauto.
  - unfold decay_value, running_step.
    rewrite Hc2, Hc1, Hua2, Hua1, Hig2, Hig1, Hpw2, Hpw1, Hmn2, Hmn1, Hmx2, Hmx1.
    change (Z.max 0 (0 + 1 + 1 - 0 - 1)) with 1%Z. cbn [Z.leb Z.compare].
    assert (Hlt : Rpower (1 + 1 / 1) (- (2 / 3)) < 1).
    { pose proof (Rpower_lt (1 + 1 / 1) (- (2 / 3)) 0 ltac:(lra) ltac:(lra))
        as Hpw.
      rewrite Rpower_O in Hpw by lra. exact Hpw. }
    unfold clamp. apply Rlt_le_trans with
      (Rmin (1 - Rpower (1 + 1 / 1) (- (2 / 3))) 0.9999); [|apply Rmax_r].
    apply Rmin_glb_lt; lra.
Qed.

Lemma second_step_still_copies_witness :
  exists e1 e2 d3,
    step (init_default tracked_model) grown_model = Ok e1
    /\ step e1 trained_model = Ok e2
    /\ decay e1 = 0 /\ decay e2 = 0
    /\ (forall k p old, (k, p) ∈ named_parameters trained_model ->
          requires_grad p = true ->
          state_dict tracked_model !! k = Some old ->
          averaged_model e2 !! k = Some (data p))
    /\ get_decay e2 (optimization_step e2) = Ok d3
    /\ 0 < d3.
Proof.
  apply (second_step_still_copies tracked_model grown_model trained_model).
  - exact unique_names_grown.
  - exact unique_names_trained.
  - exact same_shapes_grown.
  - exact same_shapes_trained.
Defined.

(** X15.  For any settings with a positive [inv_gamma], a non-negative
    [power] and [0 <= min_value <= max_value], [get_decay] returns a
    decay in [[0, max_value]] at every step; it is 0 up to step
    [update_after_step + 1] (where [min_value] is ignored) and at least
    [min_value] afterwards; and it never decreases as the step grows. *)
Theorem get_decay_bounded_and_monotone (self : EMAModel) :
  0 < inv_gamma self -> 0 <= power self ->
  0 <= min_value self -> min_value self <= max_value self ->
  (forall s, exists d,
      get_decay self s = Ok d
      /\ 0 <= d <= max_value self
      /\ ((s <= update_after_step self + 1)%Z -> d = 0)
      /\ ((update_after_step self + 1 < s)%Z -> min_value self <= d))
  /\ (forall s1 s2 d1 d2, (s1 <= s2)%Z ->
        get_decay self s1 = Ok d1 -> get_decay self s2 = Ok d2 -> d1 <= d2).
Proof.
  intros Hg Hp H0 Hle. split.
  - intros s. exists (decay_value self s).
    split; [now apply get_decay_value|].
    split; [now apply decay_value_bounds|].
    unfold decay_value, running_step. split; intros Hs.
    + destruct (Z.leb_spec (Z.max 0 (s - update_after_step self - 1)) 0);
        [reflexivity | lia].
    + destruct (Z.leb_spec (Z.max 0 (s - update_after_step self - 1)) 0);
        [lia|]. unfold clamp. apply Rmax_l.
  - intros s1 s2 d1 d2 Hs E1 E2.
    rewrite get_decay_value in E1, E2 by assumption.
    injection E1 as <-. injection E2 as <-.
    now apply decay_value_mono.
Qed.

Lemma get_decay_bounded_and_monotone_witness :
  let self := init empty_model 10 2 (3 / 4) 0.1 0.999 in
  (forall s, exists d,
      get_decay self s = Ok d
      /\ 0 <= d <= max_value self
      /\ ((s <= update_after_step self + 1)%Z -> d = 0)
      /\ ((update_after_step self + 1 < s)%Z -> min_value self <= d))
  /\ (forall s1 s2 d1 d2, (s1 <= s2)%Z ->
        get_decay self s1 = Ok d1 -> get_decay self s2 = Ok d2 -> d1 <= d2).
Proof.
  apply (get_decay_bounded_and_monotone
           (init empty_model 10 2 (3 / 4) 0.1 0.999)); simpl; lra.
Defined.

(** X16.  [inv_gamma = 0] makes every call fail: the warm-up value is
    computed before the test on the step, so [get_decay] raises
    [ZeroDivisionError] even at the steps where it would return 0, and
    [step] raises with it. *)
Theorem zero_inv_gamma_always_raises (self : EMAModel) (m : Model) (s : Z) :
  inv_gamma self = 0 ->
  get_decay self s = Raise ZeroDivisionError
  /\ step self m = Raise ZeroDivisionError.
Proof.
  intros Hg. split; [now apply get_decay_zero_inv_gamma|].
  unfold step. now rewrite get_decay_zero_inv_gamma.
Qed.

Lemma zero_inv_gamma_always_raises_witness :
  get_decay (init tracked_model 0 0 (2 / 3) 0 0.9999) 0
    = Raise ZeroDivisionError
  /\ step (init tracked_model 0 0 (2 / 3) 0 0.9999) trained_model
    = Raise ZeroDivisionError.
Proof.
  apply (zero_inv_gamma_always_raises
           (init tracked_model 0 0 (2 / 3) 0 0.9999) trained_model 0).
  reflexivity.
Defined.

(** X30.  With a positive [inv_gamma] and unique live names, [step]
    returns exactly when the shapes fit: every live parameter the shadow
    shares a name with has the shadow tensor's size or a single entry,
    and every shared buffer has the shadow buffer's size.  Otherwise it
    raises a [RuntimeError].  A single entry [v] is broadcast: a
    trainable shadow tensor becomes [a * d + v * (1 - d)] entry by
    entry, a frozen one is filled with [v]. *)
Theorem step_returns_iff_shapes_fit (self : EMAModel) (m : Model) :
  0 < inv_gamma self -> unique_names m ->
  let d := decay_value self (optimization_step self) in
  ((exists self', step self m = Ok self')
   <-> shapes_fit (averaged_model self) m)
  /\ (~ shapes_fit (averaged_model self) m ->
      step self m = Raise RuntimeError)
  /\ (forall self' k p old v,
        step self m = Ok self' ->
        (k, p) ∈ named_parameters m ->
        averaged_model self !! k = Some old ->
        data p = [v] ->
        averaged_model self' !! k
        = Some (if requires_grad p
                then map (fun a => a * d + v * (1 - d)) old
                else repeat v (length old))).
Proof.
  intros Hg Hu d.
  pose proof (get_decay_value self (optimization_step self) Hg) as Hd.
  fold d in Hd.
  assert (Hiff : (exists self', step self m = Ok self')
                 <-> shapes_fit (averaged_model self) m).
  { split.
    - intros [self' Hrun]. exact (step_ok_shapes_fit self self' m Hu Hrun).
    - intros Hfit.
      destruct (step_spec_broadcast self m d Hd Hu Hfit) as (self' & Hrun & _).
      eauto. }
  split; [exact Hiff|]. split.
  - intros Hno. destruct (step_fails self m d Hd) as [Hok|Hraise];
      [|exact Hraise].
    exfalso. apply Hno, Hiff, Hok.
  - intros self' k p old v Hrun Hkp Hold Hv.
    assert (Hfit : shapes_fit (averaged_model self) m)
      by (apply Hiff; eauto).
    destruct (step_spec_broadcast self m d Hd Hu Hfit)
      as (self'' & Hrun' & _ & _ & Hpar & _).
    assert (self'' = self') by congruence. subst self''.
    rewrite (Hpar k p old Hkp Hold). unfold updated_from.
    rewrite Hv, expanded_single, blend_repeat. reflexivity.
Qed.

Lemma step_returns_iff_shapes_fit_witness :
  exists self',
    step (init_default tracked_model) narrow_model = Ok self'
    /\ averaged_model self' !! "w"%string = Some [5; 5].
Proof.
  destruct (step_returns_iff_shapes_fit (init_default tracked_model)
              narrow_model ltac:(simpl; lra) unique_names_narrow)
    as (Hiff & _ & Hval).
  destruct (proj2 Hiff shapes_fit_narrow) as [self' Hrun].
  exists self'. split; [exact Hrun|].
  rewrite (Hval self' "w"%string
             {| data := [5]; requires_grad := true; ndim := 1 |} [1; 2] 5
             Hrun ltac:(left) eq_refl eq_refl).
  cbn [requires_grad map]. unfold decay_value, running_step.
  cbn [optimization_step update_after_step init_default init].
  change (Z.max 0 (0 - 0 - 1) <=? 0)%Z with true. cbv iota.
  f_equal. f_equal; [lra|]. f_equal. lra.
Defined.

End EmaProps.

(** ** More on [training]: required keys, and the shape of a run *)

Module EntryProps.
Import Entry.

(** The keys [training] reads with [cfg[...]] before it touches the
    trainer, in the order it reads them. *)
Definition required_keys : list string := setup_keys ++ ["training"%string].

Definition missing (cfg : config) (key : string) : bool :=
  match assoc key cfg with
  | Some _ => false
  | None => true
  end.

(** The first required key the configuration lacks, if any. *)
Definition first_missing (cfg : config) : option string :=
  find (missing cfg) required_keys.

Definition is_test (a : action) : bool :=
  match a with
  | Test _ => true
  | _ => false
  end.

Lemma subscript_keys (cfg : config) (keys : list string) :
  mapM (subscript (PDict cfg)) keys
  = match find (missing cfg) keys with
    | Some k => Raise (KeyError k)
    | None => Ok (map (get cfg) keys)
    end.
Proof.
  induction keys as [|k keys IH]; [reflexivity|].
  cbn [mapM find]. destruct (assoc k cfg) as [v|] eqn:Hk.
  - assert (Hs : subscript (PDict cfg) k = Ok v)
      by (unfold subscript; now rewrite Hk).
    assert (Hm : missing cfg k = false) by (unfold missing; now rewrite Hk).
    rewrite Hs, Hm. cbn [mbind result_bind bind]. rewrite IH.
    destruct (find (missing cfg) keys); [reflexivity|].
    cbn [mbind result_bind bind map]. unfold get at 2. now rewrite Hk.
  - assert (Hs : subscript (PDict cfg) k = Raise (KeyError k))
      by (unfold subscript; now rewrite Hk).
    assert (Hm : missing cfg k = true) by (unfold missing; now rewrite Hk).
    now rewrite Hs, Hm.
Qed.

Lemma find_app_none {A} (f : A -> bool) (l1 l2 : list A) :
  find f l1 = None -> find f (l1 ++ l2) = find f l2.
Proof.
  induction l1 as [|x l1 IH]; [reflexivity|]. simpl.
  destruct (f x); [discriminate | exact IH].
Qed.

Lemma find_app_some {A} (f : A -> bool) (l1 l2 : list A) x :
  find f l1 = Some x -> find f (l1 ++ l2) = Some x.
Proof.
  induction l1 as [|y l1 IH]; [discriminate|]. simpl.
  destruct (f y); [trivial | exact IH].
Qed.

(** The actions of a run, by the flags and the resolved path. *)
Lemma training_cases (cfg : config) (best : string) :
  match first_missing cfg with
  | Some k => training cfg best = ([], Some (KeyError k))
  | None =>
      exists flag,
        assoc "training" cfg = Some flag
        /\ let fitted :=
             if truthy flag then [Fit; SaveCheckpoint (get cfg "ckpt_path")]
             else [] in
           training cfg best
           = if truthy (get cfg "test") then
               match resolve_ckpt_path cfg best with
               | Raise e => (fitted, Some e)
               | Ok p => if is_empty_string p then (fitted, Some (ValueError ""))
                         else (fitted ++ [Test p], None)
               end
             else (fitted, None)
  end.
Proof.
  unfold first_missing, required_keys, training.
  rewrite subscript_keys.
  destruct (find (missing cfg) setup_keys) as [k|] eqn:Hs.
  - rewrite (find_app_some _ _ _ _ Hs). reflexivity.
  - rewrite (find_app_none _ _ _ Hs). cbn [find]. unfold missing.
    unfold subscript.
    destruct (assoc "training" cfg) as [flag|]; [|reflexivity].
    exists flag. split; reflexivity.
Qed.

(** A configuration without the learning rate. *)
Definition no_lr : config :=
  [("seed", PInt 42); ("dataset_path", PStr "/data");
   ("image_size", PInt 112); ("batch_size", PInt 8);
   ("output_dir", PStr "/out"); ("training", PBool true);
   ("test", PBool true)]%string.

(** A configuration that trains and tests and says so under both
    ["training"] and ["train"]. *)
Definition fit_and_test_flagged : config :=
  [("seed", PInt 42); ("dataset_path", PStr "/data");
   ("image_size", PInt 112); ("batch_size", PInt 8); ("lr", PFloat (1 # 10000));
   ("output_dir", PStr "/out"); ("mse_loss_lambda", PInt 1);
   ("identity_consistency_loss_lambda", PInt 1);
   ("ckpt_path", PStr "/ckpts"); ("training", PBool true);
   ("train", PBool true); ("test", PBool true)]%string.

(** X18.  [training] reads ten keys with [cfg[...]] before it touches
    the trainer (seed, dataset_path, image_size, batch_size, lr,
    output_dir, mse_loss_lambda, identity_consistency_loss_lambda,
    ckpt_path, training, in this order): the first one the configuration
    lacks ends the call with a [KeyError] for that key, and nothing is
    fitted, saved or tested. *)
Theorem training_requires_keys (cfg : config) (best : string) (k : string) :
  first_missing cfg = Some k ->
  training cfg best = ([], Some (KeyError k)).
Proof.
  intros H. pose proof (training_cases cfg best) as Hc.
  now rewrite H in Hc.
Qed.

Lemma training_requires_keys_witness :
  training no_lr "/ckpts/best.ckpt" = ([], Some (KeyError "lr")).
Proof.
  apply (training_requires_keys no_lr "/ckpts/best.ckpt" "lr").
  reflexivity.
Defined.

(** X19.  Every run of [training] has the same shape: either nothing or
    a fit followed by the save of [final.ckpt], then at most one test.
    A test only runs when [cfg.get("test")] is truthy, never against the
    empty path, and it is the last thing the call does: a call that
    raises has run no test. *)
Theorem training_trace_shape (cfg : config) (best : string) :
  exists fitted tested,
    fst (training cfg best) = fitted ++ tested
    /\ (fitted = [] \/ fitted = [Fit; SaveCheckpoint (get cfg "ckpt_path")])
    /\ (tested = []
        \/ exists p, tested = [Test p]
                     /\ is_empty_string p = false
                     /\ truthy (get cfg "test") = true
                     /\ snd (training cfg best) = None).
Proof.
  pose proof (training_cases cfg best) as Hc.
  destruct (first_missing cfg) as [k|].
  - exists [], []. rewrite Hc. auto.
  - destruct Hc as (flag & _ & Hc). cbv zeta in Hc.
    set (fitted := if truthy flag
                   then [Fit; SaveCheckpoint (get cfg "ckpt_path")] else []) in *.
    assert (Hf : fitted = [] \/ fitted = [Fit; SaveCheckpoint (get cfg "ckpt_path")])
      by (unfold fitted; destruct (truthy flag); auto).
    destruct (truthy (get cfg "test")) eqn:Ht.
    + destruct (resolve_ckpt_path cfg best) as [p|e].
      * destruct (is_empty_string p) eqn:Hp.
        -- exists fitted, []. rewrite Hc, app_nil_r. auto.
        -- exists fitted, [Test p]. rewrite Hc. split; [reflexivity|].
           split; [assumption|]. right. exists p. auto.
      * exists fitted, []. rewrite Hc, app_nil_r. auto.
    + exists fitted, []. rewrite Hc, app_nil_r. auto.
Qed.

(** X20.  The test phase needs a [trainer] entry unless the explicit
    path applies: with no ["trainer"] key in the configuration, a run
    that tests and does not take [cfg.get("ckpt_path")] (because it is
    empty or because [cfg.get("train")] is truthy) fits and saves as the
    ["training"] flag says and then raises [TypeError]; the best
    checkpoint of the fit is never reached. *)
Theorem test_needs_trainer_entry (cfg : config) (best : string) :
  first_missing cfg = None ->
  assoc "trainer" cfg = None ->
  truthy (get cfg "test") = true ->
  truthy (get cfg "ckpt_path") && negb (truthy (get cfg "train")) = false ->
  training cfg best
  = ((if truthy (get cfg "training")
      then [Fit; SaveCheckpoint (get cfg "ckpt_path")] else []),
     Some TypeError).
Proof.
  intros Hm Htr Ht Hp. pose proof (training_cases cfg best) as Hc.
  rewrite Hm in Hc. destruct Hc as (flag & Hflag & Hc). cbv zeta in Hc.
  assert (Hg : get cfg "training" = flag) by (unfold get; now rewrite Hflag).
  now rewrite Hc, Ht, (resolve_no_trainer cfg best Hp Htr), Hg.
Qed.

Lemma test_needs_trainer_entry_witness :
  training fit_and_test_flagged "/ckpts/best.ckpt"
  = ((if truthy (get fit_and_test_flagged "training")
      then [Fit; SaveCheckpoint (get fit_and_test_flagged "ckpt_path")]
      else []),
     Some TypeError).
Proof.
  apply (test_needs_trainer_entry fit_and_test_flagged "/ckpts/best.ckpt");
    reflexivity.
Defined.

End EntryProps.

(** ** More on sampling: edge cases of [generate_image], and the
    notebook's sampling loop *)

Module SamplingProps.
Import Schedule Tensor Diffusion DiffusionFacts Sampling.

(** *** File names *)

Lemma string_length_app (s t : string) :
  String.length (s +:+ t) = (String.length s + String.length t)%nat.
Proof. induction s as [|a s IH]; simpl; [reflexivity | now rewrite IH]. Qed.

Lemma string_app_inj_r (s1 s2 t : string) :
  (s1 +:+ t = s2 +:+ t)%string -> s1 = s2.
Proof.
  revert s2. induction s1 as [|a s1 IH]; intros [|b s2] H.
  - reflexivity.
  - apply (f_equal String.length) in H.
    rewrite !string_length_app in H. simpl in H. lia.
  - apply (f_equal String.length) in H.
    rewrite !string_length_app in H. simpl in H. lia.
  - change (String a (s1 +:+ t) = String b (s2 +:+ t)) in H.
    injection H as -> H. f_equal. now apply IH.
Qed.

Lemma img_path_inj (fake : string) (i j : nat) :
  img_path fake i = img_path fake j -> i = j.
Proof.
  unfold img_path. intros H.
  apply (String.app_inj fake) in H.
  apply (String.app_inj "/img_") in H.
  apply string_app_inj_r in H.
  now apply pretty_nat_inj in H.
Qed.

Lemma NoDup_imap_paths {A B} (f : nat -> string) (h : nat -> A -> B)
    (l : list A) :
  (forall i j, f i = f j -> i = j) ->
  NoDup (imap (fun k a => (f k, h k a)) l).*1.
Proof.
  intros Hinj. apply NoDup_alt. intros i j p Hi Hj.
  rewrite list_lookup_fmap, list_lookup_imap in Hi, Hj.
  destruct (l !! i) as [a|]; [|discriminate].
  destruct (l !! j) as [a'|]; [|discriminate].
  simpl in Hi, Hj. apply Hinj. congruence.
Qed.

Section GenerateImageEdges.
Context {batch hidden : Type}.
Variable get_encoder_hidden_states : batch -> nat -> hidden.
Variable unet : tensor -> list Z -> hidden -> tensor.
Hypothesis unet_shape : forall x t h B N,
  has_shape B N x -> has_shape B N (unet x t h).

(** X21.  With [batch_size = 0] and a dataloader that yields a batch,
    [generate_image] runs the thousand inner iterations of the first
    batch on empty tensors and then fails at [x[0]]: it raises
    [IndexError] and no image is written. *)
Theorem generate_image_empty_batches (fake_image_path : string)
    (im_size : nat) (b : batch) (rest : list batch) (g : generator) :
  generate_image get_encoder_hidden_states unet fake_image_path im_size
    (b :: rest) 0 g
  = Raise IndexError.
Proof.
  assert (Hfirst :
    sample_batch get_encoder_hidden_states unet module_schedule 1000 0 im_size
      fake_image_path (None, g, [], 0%nat) b = Raise IndexError).
  { unfold sample_batch.
    rewrite (inner_loop_spec get_encoder_hidden_states unet 0 im_size unet_shape
               module_schedule 1000 b 1000 module_schedule_wf
               module_schedule_steps 0 None g [] ltac:(lia)).
    cbn [mbind result_bind bind].
    destruct (reverse_step_runs get_encoder_hidden_states unet 0 im_size
                unet_shape module_schedule 1000 b (0 + 999)
                (gen_after 0 im_size g 999) module_schedule_wf ltac:(lia)
                module_schedule_steps) as [_ [Hlen _]].
    destruct (step_value get_encoder_hidden_states unet 0 im_size
                module_schedule 1000 b (0 + 999) (gen_after 0 im_size g 999))
      as [|img x]; [reflexivity | discriminate]. }
  unfold generate_image, generate_image_with. cbn [foldM].
  rewrite Hfirst. reflexivity.
Qed.

(** X22.  [generate_image] never writes the same file twice: the paths
    of the images of a run are pairwise distinct, and an empty
    dataloader writes nothing and draws nothing. *)
Theorem generate_image_paths_distinct (fake_image_path : string)
    (im_size batch_size : nat) (dataloader : list batch) (g : generator) :
  (0 < batch_size)%nat ->
  exists g' events,
    generate_image get_encoder_hidden_states unet fake_image_path im_size
      dataloader batch_size g = Ok (g', events)
    /\ NoDup (saved_images events).*1
    /\ (dataloader = [] -> g' = g /\ events = []).
Proof.
  intros HB.
  exists (gen_after batch_size im_size g (length dataloader * 1000)),
         (run_events get_encoder_hidden_states unet batch_size im_size
            module_schedule 1000 fake_image_path g 0 dataloader).
  split; [|split].
  - unfold generate_image.
    apply generate_image_with_spec;
      [assumption | apply module_schedule_wf | apply module_schedule_steps
       | lia | assumption].
  - rewrite saved_images_run.
    apply (NoDup_imap_paths (fun k => img_path fake_image_path (0 + k))).
    intros i j H. apply img_path_inj in H. lia.
  - intros ->. split; [apply gen_after_0 | reflexivity].
Qed.

End GenerateImageEdges.

Lemma generate_image_empty_batches_witness :
  generate_image (fun (_ : unit) (_ : nat) => tt) echo_net "out" 1
    [tt; tt] 0 sample_generator
  = Raise IndexError.
Proof.
  apply (generate_image_empty_batches (fun (_ : unit) (_ : nat) => tt)
           echo_net echo_net_shape "out" 1 tt [tt] sample_generator).
Defined.

Lemma generate_image_paths_distinct_witness :
  exists g' events,
    generate_image (fun (_ : unit) (_ : nat) => tt) echo_net "out" 1
      [tt; tt] 1 sample_generator = Ok (g', events)
    /\ NoDup (saved_images events).*1
    /\ ([tt; tt] = [] -> g' = sample_generator /\ events = []).
Proof.
  apply (generate_image_paths_distinct (fun (_ : unit) (_ : nat) => tt)
           echo_net echo_net_shape "out" 1 1 [tt; tt] sample_generator).
  lia.
Defined.

(** *** The sampling cell of the notebook ([cddpm.py]) *)

(** What the cell does to the outside world: calls of the network and
    writes of image files. *)
Inductive sample_event : Type :=
  | ModelCall (x : tensor) (t : list Z)
  | Save (img : list R) (fp : string).

Section NotebookSampler.
(** [model(x.float(), t.unsqueeze(0))] *)
Variable model : tensor -> list Z -> tensor.

(** The body of [for i in range(n_steps)]: one timestep
    [n_steps - i - 1] for the whole batch, and [x] carried over. *)
Definition sampler_step (sch : schedule) (n_steps : nat)
    (st : tensor * generator * list sample_event) (i : nat)
  : result (tensor * generator * list sample_event) :=
  let '(x, g, events) := st in
  let t := [(Z.of_nat n_steps - Z.of_nat i - 1)%Z] in
  let pred_noise := model x t in
  let events := events ++ [ModelCall x t] in
  stepped ← p_xt sch x pred_noise t g;
  let '(x, g) := stepped in
  Ok (x, g, events).

(** [for i in range(n_images): save_image(x[i], f'{path}/img_{i}.png')] *)
Definition save_images (fake_image_path : string) (x : tensor)
    (n_images : nat) : result (list sample_event) :=
  mapM (fun i => match x !! i with
                 | Some img => Ok (Save img (img_path fake_image_path i))
                 | None => Raise IndexError
                 end) (seq 0 n_images).

(** The cell, from [x = torch.randn(n_images, 3, im_size, im_size)] on. *)
Definition sample_images (sch : schedule) (n_steps n_images im_size : nat)
    (fake_image_path : string) (g : generator)
  : result (generator * list sample_event) :=
  let '(x, g) := randn n_images (3 * im_size * im_size) g in
  final ← foldM (sampler_step sch n_steps) (x, g, []) (seq 0 n_steps);
  let '(x, g, events) := final in
  saves ← save_images fake_image_path x n_images;
  Ok (g, events ++ saves).

(** The tensor that enters iteration [i] of a run started at [g]:
    pure noise for [i = 0], then the reverse step of the one before. *)
Fixpoint x_at (sch : schedule) (n_steps B N : nat) (g : generator) (i : nat)
  : tensor :=
  match i with
  | O => fst (randn B N g)
  | S k =>
      let x := x_at sch n_steps B N g k in
      let t := [(Z.of_nat n_steps - Z.of_nat k - 1)%Z] in
      reverse_value sch x (model x t) t (advance_normal g ((k + 1) * (B * N)))
  end.

Hypothesis model_shape : forall x t B N,
  has_shape B N x -> has_shape B N (model x t).

Lemma sampler_loop_spec (sch : schedule) (n_steps B N : nat) (g : generator) :
  wf_schedule sch -> (n_steps <= Schedule.n_steps sch)%nat ->
  forall k, (k <= n_steps)%nat ->
  has_shape B N (x_at sch n_steps B N g k)
  /\ foldM (sampler_step sch n_steps)
       (x_at sch n_steps B N g 0, advance_normal g (B * N), []) (seq 0 k)
     = Ok (x_at sch n_steps B N g k, advance_normal g ((k + 1) * (B * N)),
           map (fun i => ModelCall (x_at sch n_steps B N g i)
                           [(Z.of_nat n_steps - Z.of_nat i - 1)%Z])
               (seq 0 k)).
Proof.
  intros Hwf Hn. induction k as [|k IH]; intros Hk.
  - split.
    + cbn [x_at]. unfold randn. cbn [fst]. apply has_shape_fresh_rows.
    + cbn [seq foldM map].
      replace ((0 + 1) * (B * N))%nat with (B * N)%nat by lia. reflexivity.
  - destruct (IH ltac:(lia)) as [Hsh Hrun].
    set (x := x_at sch n_steps B N g k) in *.
    set (t := [(Z.of_nat n_steps - Z.of_nat k - 1)%Z]).
    assert (Hr : in_range (Schedule.n_steps sch) t)
      by (repeat constructor; lia).
    destruct (p_xt_run sch B N x (model x t) t
                (advance_normal g ((k + 1) * (B * N))) Hwf Hsh
                (model_shape x t B N Hsh) (or_intror eq_refl) Hr)
      as (x' & Hstep & Hsh' & _).
    assert (Hx' : x_at sch n_steps B N g (S k) = x').
    { cbn [x_at]. fold x. fold t. unfold reverse_value. now rewrite Hstep. }
    split; [now rewrite Hx'|].
    rewrite seq_S, Notebook.foldM_app, Hrun.
    cbn [mbind result_bind bind foldM Nat.add]. unfold sampler_step.
    fold x. fold t. rewrite Hstep. cbn [mbind result_bind bind].
    rewrite Hx', map_app, DiffusionProps.advance_normal_add. cbn [map].
    replace ((k + 1) * (B * N) + B * N)%nat with ((S k + 1) * (B * N))%nat
      by lia.
    reflexivity.
Qed.

Lemma save_images_spec (fake : string) (x : tensor) (n_images : nat) :
  length x = n_images ->
  save_images fake x n_images
  = Ok (map (fun i => Save (nth i x []) (img_path fake i)) (seq 0 n_images)).
Proof.
  intros Hlen. unfold save_images.
  apply (mapM_total _ (fun i => Save (nth i x []) (img_path fake i))).
  apply List.Forall_forall. intros i Hi. apply in_seq in Hi.
  destruct (x !! i) as [img|] eqn:E.
  - now rewrite (nth_lookup_Some x i [] img E).
  - apply lookup_ge_None in E. lia.
Qed.

(** X23.  The sampling cell of the notebook walks the timesteps
    [n_steps - 1, ..., 0] once each, with one timestep for the whole
    batch, and carries [x] from one iteration to the next: the network
    is called [n_steps] times, on the output of the reverse step before
    it; then one file per image is written, [img_i.png] holding row [i]
    of the final [x].  The run draws [(n_steps + 1)] blocks of normal
    variates and nothing else. *)
Theorem sample_images_trace (sch : schedule) (n_steps n_images im_size : nat)
    (fake_image_path : string) (g : generator) :
  wf_schedule sch -> (n_steps <= Schedule.n_steps sch)%nat ->
  let B := n_images in
  let N := (3 * im_size * im_size)%nat in
  let x := x_at sch n_steps B N g in
  let t := fun i : nat => [(Z.of_nat n_steps - Z.of_nat i - 1)%Z] in
  sample_images sch n_steps n_images im_size fake_image_path g
  = Ok (advance_normal g ((n_steps + 1) * (B * N)),
        map (fun i => ModelCall (x i) (t i)) (seq 0 n_steps)
        ++ map (fun i => Save (nth i (x n_steps) [])
                              (img_path fake_image_path i))
               (seq 0 n_images))
  /\ (forall i, (i < n_steps)%nat ->
        p_xt sch (x i) (model (x i) (t i)) (t i)
             (advance_normal g ((i + 1) * (B * N)))
        = Ok (x (S i), advance_normal g ((i + 2) * (B * N))))
  /\ (forall i, (i <= n_steps)%nat -> has_shape B N (x i)).
Proof.
  intros Hwf Hn B N x t.
  assert (Hsh : forall i, (i <= n_steps)%nat -> has_shape B N (x i))
    by (intros i Hi; apply (sampler_loop_spec sch n_steps B N g Hwf Hn i Hi)).
  split; [|split; [|exact Hsh]].
  - unfold sample_images, randn. fold N. fold B.
    destruct (sampler_loop_spec sch n_steps B N g Hwf Hn n_steps ltac:(lia))
      as [Hfin Hrun].
    cbn [x_at] in Hrun. unfold randn in Hrun. cbn [fst] in Hrun.
    rewrite Hrun. cbn [mbind result_bind bind].
    rewrite save_images_spec by (destruct Hfin; assumption).
    reflexivity.
  - intros i Hi.
    assert (Hr : in_range (Schedule.n_steps sch) (t i))
      by (repeat constructor; lia).
    destruct (p_xt_run sch B N (x i) (model (x i) (t i)) (t i)
                (advance_normal g ((i + 1) * (B * N))) Hwf
                (Hsh i ltac:(lia))
                (model_shape (x i) (t i) B N (Hsh i ltac:(lia)))
                (or_intror eq_refl) Hr)
      as (x' & Hstep & _).
    change (x (S i))
      with (reverse_value sch (x i) (model (x i) (t i)) (t i)
              (advance_normal g ((i + 1) * (B * N)))).
    unfold reverse_value. rewrite Hstep.
    rewrite DiffusionProps.advance_normal_add.
    replace ((i + 1) * (B * N) + B * N)%nat with ((i + 2) * (B * N))%nat
      by lia.
    reflexivity.
Qed.

End NotebookSampler.

Lemma sample_images_trace_witness :
  let sch := build_schedule 2 0.0001 0.04 in
  let model := fun (x : tensor) (_ : list Z) => x in
  let x := x_at model sch 2 2 3 sample_generator in
  sample_images model sch 2 2 1 "out" sample_generator
  = Ok (advance_normal sample_generator ((2 + 1) * (2 * 3)),
        [ModelCall (x 0%nat) [1%Z]; ModelCall (x 1%nat) [0%Z];
         Save (nth 0 (x 2%nat) []) (img_path "out" 0);
         Save (nth 1 (x 2%nat) []) (img_path "out" 1)]).
Proof.
  destruct (sample_images_trace (fun (x : tensor) (_ : list Z) => x)
              (fun x t B N H => H) (build_schedule 2 0.0001 0.04) 2 2 1
              "out" sample_generator (wf_build_schedule 2 0.0001 0.04)
              ltac:(simpl; lia)) as [Hrun _].
  exact Hrun.
Defined.

End SamplingProps.

(** ** The U-Net of the notebook, at the level of shapes

    A feature map is followed by its shape only.  What the layers of
    torch accept is part of the model: a group normalisation is built
    only on a number of channels its groups divide and refuses, when
    applied, a size with a single value per group; a convolution needs
    at least one output channel, the input channels of its weight and a
    padded side its kernel fits in; [torch.cat] needs equal sizes outside
    the dimension it joins. *)

Module Unet.

(** The shape [[batch_size, channels, height, width]] of a feature map. *)
Abbreviation shape := (nat * nat * nat * nat)%type (only parsing).

(** The modules of [self.down] and [self.up], with the arguments they are
    built from. *)
Inductive module : Type :=
  | DownBlock (in_channels out_channels time_channels : nat) (has_attn : bool)
  | UpBlock (in_channels out_channels time_channels : nat) (has_attn : bool)
  | Downsample (n_channels : nat)
  | Upsample (n_channels : nat).

Record UNet : Type := {
  image_channels : nat;
  n_channels : nat;
  down : list module;
  middle : nat;
  up : list module;
  final_in : nat
}.

(** The texts torch puts in the [ValueError]s of its group normalisation
    are not part of the repository: the text of the constructor, and the
    text of [F.group_norm], which quotes the size it was given. *)
Section Torch.
Variable not_divisible : string.
Variable single_value : list nat -> string.

(** *** Construction *)

(** [nn.GroupNorm(num_groups, num_channels)] rejects a number of channels
    its groups do not divide. *)
Definition GroupNorm (num_groups num_channels : nat) : result unit :=
  if Nat.eqb (num_channels mod num_groups) 0 then Ok tt
  else Raise (ValueError not_divisible).

(** [ResidualBlock(in_channels, out_channels, time_channels)]: two group
    normalisations with 32 groups. *)
Definition ResidualBlock (in_channels out_channels : nat) : result unit :=
  _ ← GroupNorm 32 in_channels;
  GroupNorm 32 out_channels.

(** [AttentionBlock(n_channels)]: a group normalisation with 32 groups,
    then [self.scale = d_k ** -0.5] with [d_k = n_channels], which raises
    when there is no channel. *)
Definition AttentionBlock (n_channels : nat) : result unit :=
  _ ← GroupNorm 32 n_channels;
  if n_channels =? 0 then Raise ZeroDivisionError else Ok tt.

Definition new_DownBlock (in_channels out_channels time_channels : nat)
    (has_attn : bool) : result module :=
  _ ← ResidualBlock in_channels out_channels;
  _ ← (if has_attn then AttentionBlock out_channels else Ok tt);
  Ok (DownBlock in_channels out_channels time_channels has_attn).

(** [UpBlock]: its residual block takes [in_channels + out_channels]
    channels, the input concatenated with a skip connection. *)
Definition new_UpBlock (in_channels out_channels time_channels : nat)
    (has_attn : bool) : result module :=
  _ ← ResidualBlock (in_channels + out_channels) out_channels;
  _ ← (if has_attn then AttentionBlock out_channels else Ok tt);
  Ok (UpBlock in_channels out_channels time_channels has_attn).

Definition new_MiddleBlock (n_channels : nat) : result unit :=
  _ ← ResidualBlock n_channels n_channels;
  _ ← AttentionBlock n_channels;
  ResidualBlock n_channels n_channels.

(** [l[i]] *)
Definition index {A} (l : list A) (i : nat) : result A :=
  match nth_error l i with
  | Some a => Ok a
  | None => Raise IndexError
  end.

(** [a // b] on non-negative integers. *)
Definition floordiv (a b : nat) : result nat :=
  if Nat.eqb b 0 then Raise ZeroDivisionError else Ok (a / b).

(** The body of [for i in range(n_resolutions)] of the first half; the
    state is [(down, in_channels, out_channels)]. *)
Definition down_resolution (n_channels n_blocks n_resolutions : nat)
    (is_attn : list bool) (st : list module * nat * nat) (im : nat * nat)
  : result (list module * nat * nat) :=
  let '(down, in_channels, _) := st in
  let '(i, mult) := im in
  let out_channels := in_channels * mult in
  blocks ← foldM (fun (s : list module * nat) (_ : nat) =>
                    a ← index is_attn i;
                    blk ← new_DownBlock (snd s) out_channels (n_channels * 4) a;
                    Ok (fst s ++ [blk], out_channels))
                 (down, in_channels) (seq 0 n_blocks);
  let '(down, in_channels) := blocks in
  let down := if i <? n_resolutions - 1
              then down ++ [Downsample in_channels] else down in
  Ok (down, in_channels, out_channels).

(** The body of [for i in reversed(range(n_resolutions))] of the second
    half; the state is [(up, in_channels)]. *)
Definition up_resolution (n_channels n_blocks : nat) (is_attn : list bool)
    (st : list module * nat) (im : nat * nat) : result (list module * nat) :=
  let '(up, in_channels) := st in
  let '(i, mult) := im in
  let out_channels := in_channels in
  up ← foldM (fun (up : list module) (_ : nat) =>
                a ← index is_attn i;
                blk ← new_UpBlock in_channels out_channels (n_channels * 4) a;
                Ok (up ++ [blk]))
             up (seq 0 n_blocks);
  out_channels ← floordiv in_channels mult;
  a ← index is_attn i;
  blk ← new_UpBlock in_channels out_channels (n_channels * 4) a;
  let up := up ++ [blk] in
  let in_channels := out_channels in
  Ok (if 0 <? i then up ++ [Upsample in_channels] else up, in_channels).

(** [UNet.__init__(image_channels, n_channels, ch_mults, is_attn,
    n_blocks)].  The convolutions and linear layers accept any sizes; the
    group normalisations, the attention scale, the indexing of [is_attn]
    and the integer division can fail. *)
Definition init (image_channels n_channels : nat) (ch_mults : list nat)
    (is_attn : list bool) (n_blocks : nat) : result UNet :=
  let n_resolutions := length ch_mults in
  let levels := combine (seq 0 n_resolutions) ch_mults in
  d ← foldM (down_resolution n_channels n_blocks n_resolutions is_attn)
        ([], n_channels, n_channels) levels;
  let '(down, _, out_channels) := d in
  _ ← new_MiddleBlock out_channels;
  u ← foldM (up_resolution n_channels n_blocks is_attn)
        ([], out_channels) (rev levels);
  let '(up, in_channels) := u in
  _ ← GroupNorm 8 n_channels;
  Ok {| image_channels := image_channels;
        n_channels := n_channels;
        down := down;
        middle := out_channels;
        up := up;
        final_in := in_channels |}.

(** *** The forward pass *)

(** [nn.Conv2d(cin, cout, kernel_size=(3, 3), padding=(1, 1))]: the
    weight has at least one output channel, the input has the channels
    the weight expects and a padded size the kernel fits in. *)
Definition Conv2d_3x3 (cin cout : nat) (x : shape) : result shape :=
  let '(b, c, h, w) := x in
  if (1 <=? cout) && (c =? cin) && (1 <=? h) && (1 <=? w)
  then Ok (b, cout, h, w)
  else Raise RuntimeError.

(** [nn.Conv2d(cin, cout, kernel_size=(1, 1))] *)
Definition Conv2d_1x1 (cin cout : nat) (x : shape) : result shape :=
  let '(b, c, h, w) := x in
  if (1 <=? cout) && (c =? cin) && (1 <=? h) && (1 <=? w)
  then Ok (b, cout, h, w)
  else Raise RuntimeError.

(** [nn.Conv2d(c, c, (3, 3), (2, 2), (1, 1))]: a side [h] becomes
    [(h - 1) // 2 + 1]. *)
Definition Downsample_forward (n_channels : nat) (x : shape) : result shape :=
  let '(b, c, h, w) := x in
  if (1 <=? n_channels) && (c =? n_channels) && (1 <=? h) && (1 <=? w)
  then Ok (b, n_channels, (h - 1) / 2 + 1, (w - 1) / 2 + 1)
  else Raise RuntimeError.

(** [nn.ConvTranspose2d(c, c, (4, 4), (2, 2), (1, 1))]: a side [h] becomes
    [(h - 1) * 2 - 2 + 4 = 2 * h]. *)
Definition Upsample_forward (n_channels : nat) (x : shape) : result shape :=
  let '(b, c, h, w) := x in
  if (1 <=? n_channels) && (c =? n_channels) && (1 <=? h) && (1 <=? w)
  then Ok (b, n_channels, 2 * h, 2 * w)
  else Raise RuntimeError.

(** A group normalisation applied to a feature map.  [F.group_norm]
    first looks at the size [[b * c // num_groups, num_groups, h, w]] and
    raises a [ValueError] when the product of its entries other than
    [num_groups] is 1 (a single value per group and sample); the
    normalisation itself takes the channels it was built for. *)
Definition GroupNorm_forward (num_groups num_channels : nat) (x : shape)
  : result unit :=
  let '(b, c, h, w) := x in
  if b * c / num_groups * h * w =? 1
  then Raise (ValueError (single_value [b * c / num_groups; num_groups; h; w]))
  else if c =? num_channels then Ok tt else Raise RuntimeError.

(** [TimeEmbedding(n_channels).forward(t)] for [t] of shape [[bt]]: the
    sinusoidal features have [2 * half_dim] columns, which [lin1] takes
    only if that is [n_channels // 4]; the result has shape
    [[bt, n_channels]]. *)
Definition TimeEmbedding_forward (n_channels bt : nat) : result (nat * nat) :=
  let half_dim := n_channels / 8 in
  if half_dim =? 1 then Raise ZeroDivisionError
  else if 2 * half_dim =? n_channels / 4 then Ok (bt, n_channels)
  else Raise RuntimeError.

(** [ResidualBlock.forward(x, t)].  The time embedding goes through a
    linear layer of [time_channels] inputs and is added in place to the
    feature map, one row per sample or a single row for all. *)
Definition ResidualBlock_forward (in_channels out_channels time_channels : nat)
    (x : shape) (t : nat * nat) : result shape :=
  let '(b, _, _, _) := x in
  _ ← GroupNorm_forward 32 in_channels x;
  h ← Conv2d_3x3 in_channels out_channels x;
  _ ← (if snd t =? time_channels then Ok tt else Raise RuntimeError);
  _ ← (if (fst t =? b) || (fst t =? 1) then Ok tt else Raise RuntimeError);
  _ ← GroupNorm_forward 32 out_channels h;
  h ← Conv2d_3x3 out_channels out_channels h;
  _ ← (if in_channels =? out_channels then Ok x
       else Conv2d_1x1 in_channels out_channels x);
  Ok h.

(** [AttentionBlock.forward(x)]: [x.view(batch_size, n_channels, -1)]
    cannot infer the last size of a tensor with no sample or no channel;
    the projection takes [n_channels] features. *)
Definition AttentionBlock_forward (n_channels : nat) (x : shape)
  : result shape :=
  let '(b, c, _, _) := x in
  if b * c =? 0 then Raise RuntimeError
  else if c =? n_channels then Ok x else Raise RuntimeError.

Definition attn_forward (has_attn : bool) (n_channels : nat) (x : shape)
  : result shape :=
  if has_attn then AttentionBlock_forward n_channels x else Ok x.

(** [m(x, t)] for a module of [self.down] or [self.up]. *)
Definition module_forward (m : module) (x : shape) (t : nat * nat)
  : result shape :=
  match m with
  | DownBlock cin cout tc a =>
      x ← ResidualBlock_forward cin cout tc x t;
      attn_forward a cout x
  | UpBlock cin cout tc a =>
      x ← ResidualBlock_forward (cin + cout) cout tc x t;
      attn_forward a cout x
  | Downsample c => Downsample_forward c x
  | Upsample c => Upsample_forward c x
  end.

(** [MiddleBlock(n_channels, time_channels).forward(x, t)] *)
Definition MiddleBlock_forward (n_channels time_channels : nat)
    (x : shape) (t : nat * nat) : result shape :=
  x ← ResidualBlock_forward n_channels n_channels time_channels x t;
  x ← AttentionBlock_forward n_channels x;
  ResidualBlock_forward n_channels n_channels time_channels x t.

(** [torch.cat((x, s), dim=1)] *)
Definition cat (x s : shape) : result shape :=
  let '(b, c, h, w) := x in
  let '(b', c', h', w') := s in
  if (b =? b') && (h =? h') && (w =? w') then Ok (b, c + c', h, w)
  else Raise RuntimeError.

(** The body of [for m in self.down]; [h] is the list of skip
    connections, the most recent first. *)
Definition down_step (t : nat * nat) (st : shape * list shape) (m : module)
  : result (shape * list shape) :=
  let '(x, h) := st in
  x ← module_forward m x t;
  Ok (x, x :: h).

(** The body of [for m in self.up]. *)
Definition up_step (t : nat * nat) (st : shape * list shape) (m : module)
  : result (shape * list shape) :=
  let '(x, h) := st in
  match m with
  | Upsample _ => x ← module_forward m x t; Ok (x, h)
  | _ =>
      match h with
      | [] => Raise IndexError
      | s :: h =>
          x ← cat x s;
          x ← module_forward m x t;
          Ok (x, h)
      end
  end.

(** [UNet.forward(x, t)] for [x] of shape [x] and [t] of shape [[bt]];
    besides the shape of the output, the skip connections left over. *)
Definition forward_with_stack (u : UNet) (x : shape) (bt : nat)
  : result (shape * list shape) :=
  t ← TimeEmbedding_forward (n_channels u * 4) bt;
  x ← Conv2d_3x3 (image_channels u) (n_channels u) x;
  st ← foldM (down_step t) (x, [x]) (down u);
  let '(x, h) := st in
  x ← MiddleBlock_forward (middle u) (n_channels u * 4) x t;
  st ← foldM (up_step t) (x, h) (up u);
  let '(x, h) := st in
  _ ← GroupNorm_forward 8 (n_channels u) x;
  x ← Conv2d_3x3 (final_in u) (image_channels u) x;
  Ok (x, h).

Definition forward (u : UNet) (x : shape) (bt : nat) : result shape :=
  r ← forward_with_stack u x bt;
  Ok (fst r).

(** *** The modules [__init__] builds, in closed form *)

Section Closed.
Variables (time_channels n_blocks : nat) (is_attn : list bool).

Definition attn_at (i : nat) : bool := nth i is_attn false.

(** The [n_blocks] down blocks of resolution [i], entered with [c]
    channels and multiplier [m]. *)
Definition down_level (c m i : nat) : list module :=
  match n_blocks with
  | O => []
  | S k =>
      DownBlock c (c * m) time_channels (attn_at i)
      :: repeat (DownBlock (c * m) (c * m) time_channels (attn_at i)) k
  end.

(** The [n_blocks + 1] up blocks of resolution [i] and its up-sampling. *)
Definition up_level (c m i : nat) : list module :=
  repeat (UpBlock (c * m) (c * m) time_channels (attn_at i)) n_blocks
  ++ [UpBlock (c * m) c time_channels (attn_at i)]
  ++ (if 0 <? i then [Upsample c] else []).

Fixpoint down_spec (c i : nat) (ms : list nat) : list module :=
  match ms with
  | [] => []
  | m :: ms' =>
      down_level c m i
      ++ match ms' with
         | [] => []
         | _ => Downsample (c * m) :: down_spec (c * m) (S i) ms'
         end
  end.

Fixpoint up_spec (c i : nat) (ms : list nat) : list module :=
  match ms with
  | [] => []
  | m :: ms' => up_spec (c * m) (S i) ms' ++ up_level c m i
  end.

End Closed.

(** The number of channels after the resolutions [ms], entered with
    [c]. *)
Definition channels_after (c : nat) (ms : list nat) : nat :=
  fold_left Nat.mul ms c.

Definition is_UpBlock (m : module) : bool :=
  match m with
  | UpBlock _ _ _ _ => true
  | _ => false
  end.

(** [2 ^ k] divides [h], by repeated halving. *)
Fixpoint fits (k h : nat) : bool :=
  match k with
  | O => true
  | S k' => Nat.even h && fits k' (h / 2)
  end.

(** The side of a feature map after [k] down-samplings. *)
Fixpoint lowest (k h : nat) : nat :=
  match k with
  | O => h
  | S k' => lowest k' ((h - 1) / 2 + 1)
  end.

Lemma lowest_le k : forall h, (1 <= h)%nat -> (lowest k h <= h)%nat.
Proof.
  induction k as [|k IH]; intros h Hh; [reflexivity|].
  cbn [lowest].
  assert (Hhalf : ((h - 1) / 2 + 1 <= h)%nat).
  { pose proof (Nat.Div0.div_le_upper_bound (h - 1) 2 (h - 1)) as Hd.
    assert (((h - 1) / 2 <= h - 1)%nat) by (apply Hd; lia). lia. }
  specialize (IH ((h - 1) / 2 + 1)%nat ltac:(lia)). lia.
Qed.

Lemma lowest_pos k : forall h, (1 <= h)%nat -> (1 <= lowest k h)%nat.
Proof.
  induction k as [|k IH]; intros h Hh; [exact Hh|].
  cbn [lowest]. apply IH. lia.
Qed.

Lemma lowest_large k : forall h, (2 ^ k < h)%nat -> (2 <= lowest k h)%nat.
Proof.
  induction k as [|k IH]; intros h Hh.
  - simpl in Hh. simpl. lia.
  - cbn [lowest]. apply IH. rewrite Nat.pow_succ_r' in Hh.
    assert (Hd : (2 ^ k <= (h - 1) / 2)%nat)
      by (apply Nat.div_le_lower_bound; lia).
    lia.
Qed.

(** **** Construction succeeds on multiples of 32 *)

Lemma GroupNorm_ok g c q : g <> 0%nat -> c = (q * g)%nat -> GroupNorm g c = Ok tt.
Proof.
  intros Hg ->. unfold GroupNorm. now rewrite Nat.Div0.mod_mul.
Qed.

Definition mult32 (c : nat) : Prop := exists q, c = (q * 32)%nat.

Lemma mult32_mul c m : mult32 c -> mult32 (c * m).
Proof. intros [q ->]. exists (q * m)%nat. lia. Qed.

Lemma mult32_add c d : mult32 c -> mult32 d -> mult32 (c + d).
Proof. intros [q ->] [r ->]. exists (q + r)%nat. lia. Qed.

Lemma GroupNorm32 c : mult32 c -> GroupNorm 32 c = Ok tt.
Proof. intros [q ->]. now apply (GroupNorm_ok 32 _ q). Qed.

Lemma AttentionBlock_ok c :
  mult32 c -> (1 <= c)%nat -> AttentionBlock c = Ok tt.
Proof.
  intros H Hc. unfold AttentionBlock. rewrite (GroupNorm32 c H).
  cbn [mbind result_bind bind].
  destruct (Nat.eqb_spec c 0); [lia | reflexivity].
Qed.

Lemma new_DownBlock_ok cin cout tc a :
  mult32 cin -> mult32 cout -> (1 <= cout)%nat ->
  new_DownBlock cin cout tc a = Ok (DownBlock cin cout tc a).
Proof.
  intros H1 H2 Hc. unfold new_DownBlock, ResidualBlock.
  rewrite (GroupNorm32 cin H1). cbn [mbind result_bind bind].
  rewrite (GroupNorm32 cout H2). cbn [mbind result_bind bind].
  destruct a; [|reflexivity]. now rewrite (AttentionBlock_ok cout H2 Hc).
Qed.

Lemma new_UpBlock_ok cin cout tc a :
  mult32 cin -> mult32 cout -> (1 <= cout)%nat ->
  new_UpBlock cin cout tc a = Ok (UpBlock cin cout tc a).
Proof.
  intros H1 H2 Hc. unfold new_UpBlock, ResidualBlock.
  rewrite (GroupNorm32 (cin + cout) (mult32_add _ _ H1 H2)).
  cbn [mbind result_bind bind].
  rewrite (GroupNorm32 cout H2). cbn [mbind result_bind bind].
  destruct a; [|reflexivity]. now rewrite (AttentionBlock_ok cout H2 Hc).
Qed.

Lemma new_MiddleBlock_ok c :
  mult32 c -> (1 <= c)%nat -> new_MiddleBlock c = Ok tt.
Proof.
  intros H Hc. unfold new_MiddleBlock, ResidualBlock.
  rewrite !(GroupNorm32 c H). cbn [mbind result_bind bind].
  now rewrite (AttentionBlock_ok c H Hc).
Qed.

Lemma index_ok {A} (l : list A) i d :
  (i < length l)%nat -> index l i = Ok (nth i l d).
Proof.
  intros Hi. unfold index. now rewrite (nth_error_nth' l d Hi).
Qed.

Lemma down_blocks_ok tc is_attn i cout :
  (i < length is_attn)%nat -> mult32 cout -> (1 <= cout)%nat ->
  forall k a acc cin, mult32 cin ->
  foldM (fun (s : list module * nat) (_ : nat) =>
           a ← index is_attn i;
           blk ← new_DownBlock (snd s) cout tc a;
           Ok (fst s ++ [blk], cout))
        (acc, cin) (seq a k)
  = Ok (acc ++ match k with
               | O => []
               | S k' => DownBlock cin cout tc (attn_at is_attn i)
                         :: repeat (DownBlock cout cout tc (attn_at is_attn i)) k'
               end,
        match k with O => cin | S _ => cout end).
Proof.
  intros Hi Hout Hpos. rewrite (index_ok is_attn i false Hi).
  induction k as [|k IH]; intros a acc cin Hin.
  - simpl. now rewrite app_nil_r.
  - cbn [seq foldM mbind result_bind bind snd fst].
    rewrite (new_DownBlock_ok cin cout tc _ Hin Hout Hpos).
    cbn [mbind result_bind bind fst snd]. rewrite (IH (S a) _ cout Hout).
    rewrite <- app_assoc. unfold attn_at. destruct k; reflexivity.
Qed.

Lemma up_blocks_ok tc is_attn i c :
  (i < length is_attn)%nat -> mult32 c -> (1 <= c)%nat ->
  forall k a acc,
  foldM (fun (up : list module) (_ : nat) =>
           a ← index is_attn i;
           blk ← new_UpBlock c c tc a;
           Ok (up ++ [blk]))
        acc (seq a k)
  = Ok (acc ++ repeat (UpBlock c c tc (attn_at is_attn i)) k).
Proof.
  intros Hi Hc Hpos. rewrite (index_ok is_attn i false Hi).
  cbn [mbind result_bind bind].
  rewrite (new_UpBlock_ok c c tc (nth i is_attn false) Hc Hc Hpos).
  induction k as [|k IH]; intros a acc.
  - simpl. now rewrite app_nil_r.
  - cbn [seq foldM mbind result_bind bind]. rewrite IH.
    rewrite <- app_assoc. reflexivity.
Qed.

Lemma channels_after_cons c m ms :
  channels_after c (m :: ms) = channels_after (c * m) ms.
Proof. reflexivity. Qed.

Lemma mult32_channels_after c ms : mult32 c -> mult32 (channels_after c ms).
Proof.
  revert c. induction ms as [|m ms IH]; intros c Hc; [exact Hc|].
  rewrite channels_after_cons. apply IH. now apply mult32_mul.
Qed.

Lemma channels_after_pos c ms :
  (1 <= c)%nat -> Forall (fun m => 1 <= m)%nat ms ->
  (1 <= channels_after c ms)%nat.
Proof.
  revert c. induction ms as [|m ms IH]; intros c Hc Hpos; [exact Hc|].
  apply List.Forall_cons_iff in Hpos as [Hm Hpos].
  rewrite channels_after_cons. apply IH; [nia | assumption].
Qed.

Lemma down_resolution_ok n nb R is_attn acc c o i m :
  (1 <= nb)%nat -> (i < length is_attn)%nat -> mult32 c ->
  (1 <= c * m)%nat ->
  down_resolution n nb R is_attn (acc, c, o) (i, m)
  = Ok (acc ++ down_level (n * 4) nb is_attn c m i
            ++ (if i <? R - 1 then [Downsample (c * m)] else []),
        (c * m)%nat, (c * m)%nat).
Proof.
  intros Hnb Hi Hc Hcm. unfold down_resolution.
  rewrite (down_blocks_ok (n * 4) is_attn i (c * m) Hi
             (mult32_mul c m Hc) Hcm nb 0 acc c Hc).
  cbn [mbind result_bind bind].
  assert (Hlast : match nb with O => c | S _ => (c * m)%nat end = (c * m)%nat)
    by (destruct nb; [lia | reflexivity]).
  rewrite Hlast. fold (down_level (n * 4) nb is_attn c m i).
  destruct (i <? R - 1); [now rewrite <- app_assoc | now rewrite app_nil_r].
Qed.

Lemma up_resolution_ok n nb is_attn acc c i m :
  (1 <= m)%nat -> (i < length is_attn)%nat -> mult32 c -> (1 <= c)%nat ->
  up_resolution n nb is_attn (acc, (c * m)%nat) (i, m)
  = Ok (acc ++ up_level (n * 4) nb is_attn c m i, c).
Proof.
  intros Hm Hi Hc Hpos. unfold up_resolution.
  rewrite (up_blocks_ok (n * 4) is_attn i (c * m) Hi
             (mult32_mul c m Hc) ltac:(nia) nb 0).
  cbn [mbind result_bind bind]. unfold floordiv.
  destruct (Nat.eqb_spec m 0); [lia|].
  cbn [mbind result_bind bind]. rewrite Nat.div_mul by lia.
  rewrite (index_ok is_attn i false Hi).
  cbn [mbind result_bind bind].
  rewrite (new_UpBlock_ok (c * m) c (n * 4) _ (mult32_mul c m Hc) Hc Hpos).
  cbn [mbind result_bind bind]. unfold up_level, attn_at.
  destruct (0 <? i); rewrite <- !app_assoc; reflexivity.
Qed.

Lemma down_fold_ok n nb R is_attn :
  (1 <= nb)%nat -> (R <= length is_attn)%nat ->
  forall ms c i acc o,
  ms <> [] -> mult32 c -> (1 <= c)%nat ->
  Forall (fun m => 1 <= m)%nat ms -> (i + length ms = R)%nat ->
  foldM (down_resolution n nb R is_attn) (acc, c, o)
        (combine (seq i (length ms)) ms)
  = Ok (acc ++ down_spec (n * 4) nb is_attn c i ms,
        channels_after c ms, channels_after c ms).
Proof.
  intros Hnb HR.
  induction ms as [|m ms IH]; intros c i acc o Hne Hc Hc1 Hpos Hi;
    [contradiction|].
  apply List.Forall_cons_iff in Hpos as [Hm Hpos].
  assert (Hcm : (1 <= c * m)%nat) by nia.
  cbn [length seq combine foldM]. cbn [length] in Hi.
  rewrite (down_resolution_ok n nb R is_attn acc c o i m Hnb ltac:(lia) Hc Hcm).
  cbn [mbind result_bind bind].
  destruct ms as [|m' ms'].
  - cbn [length] in Hi.
    destruct (Nat.ltb_spec i (R - 1)); [lia|].
    cbn [length seq combine foldM down_spec].
    now rewrite !app_nil_r.
  - cbn [length] in Hi.
    destruct (Nat.ltb_spec i (R - 1)); [|lia].
    rewrite (IH (c * m)%nat (S i) _ (c * m)%nat ltac:(discriminate)
               (mult32_mul c m Hc) Hcm Hpos ltac:(cbn [length]; lia)).
    rewrite <- !app_assoc. reflexivity.
Qed.

Lemma up_fold_ok n nb is_attn :
  forall ms c i acc,
  Forall (fun m => 1 <= m)%nat ms -> mult32 c -> (1 <= c)%nat ->
  (i + length ms <= length is_attn)%nat ->
  foldM (up_resolution n nb is_attn) (acc, channels_after c ms)
        (rev (combine (seq i (length ms)) ms))
  = Ok (acc ++ up_spec (n * 4) nb is_attn c i ms, c).
Proof.
  induction ms as [|m ms IH]; intros c i acc Hpos Hc Hc1 Hi.
  - simpl. now rewrite app_nil_r.
  - apply List.Forall_cons_iff in Hpos as [Hm Hpos]. cbn [length] in Hi.
    cbn [length seq combine rev]. rewrite Notebook.foldM_app.
    rewrite channels_after_cons.
    rewrite (IH (c * m)%nat (S i) acc Hpos (mult32_mul c m Hc) ltac:(nia)
               ltac:(lia)).
    cbn [mbind result_bind bind foldM].
    rewrite (up_resolution_ok n nb is_attn _ c i m Hm ltac:(lia) Hc Hc1).
    cbn [mbind result_bind bind up_spec].
    now rewrite <- app_assoc.
Qed.

(** What [__init__] returns for a base width that is a positive multiple
    of 32, positive multipliers, enough [is_attn] flags and at least one
    block per resolution. *)
Lemma init_ok ic n ms is_attn nb :
  mult32 n -> (1 <= n)%nat -> Forall (fun m => 1 <= m)%nat ms ->
  (length ms <= length is_attn)%nat -> (1 <= nb)%nat ->
  init ic n ms is_attn nb
  = Ok {| image_channels := ic;
          n_channels := n;
          down := down_spec (n * 4) nb is_attn n 0 ms;
          middle := channels_after n ms;
          up := up_spec (n * 4) nb is_attn n 0 ms;
          final_in := n |}.
Proof.
  intros Hn Hn1 Hpos Hlen Hnb. unfold init.
  assert (Hd : foldM (down_resolution n nb (length ms) is_attn) ([], n, n)
                 (combine (seq 0 (length ms)) ms)
               = Ok (down_spec (n * 4) nb is_attn n 0 ms,
                     channels_after n ms, channels_after n ms)).
  { destruct ms as [|m ms']; [reflexivity|].
    now rewrite (down_fold_ok n nb (length (m :: ms')) is_attn Hnb Hlen
                   (m :: ms') n 0 [] n ltac:(discriminate) Hn Hn1 Hpos
                   eq_refl). }
  rewrite Hd. cbn [mbind result_bind bind].
  rewrite (new_MiddleBlock_ok _ (mult32_channels_after n ms Hn)
             (channels_after_pos n ms Hn1 Hpos)).
  cbn [mbind result_bind bind].
  rewrite (up_fold_ok n nb is_attn ms n 0 [] Hpos Hn Hn1 Hlen).
  cbn [mbind result_bind bind].
  destruct Hn as [q Hq].
  rewrite (GroupNorm_ok 8 n (q * 4)) by lia.
  reflexivity.
Qed.

(** **** The forward pass on these modules *)

Section ForwardShapes.
Variables (b bt tc : nat).
Hypothesis Hb : (1 <= b)%nat.
Hypothesis Hbt : bt = b \/ bt = 1%nat.

(** Every group of 32 channels of a feature map of [c] channels and
    size [h * w] holds more than one value. *)
Definition roomy (c h w : nat) : Prop := (2 <= b * c / 32 * (h * w))%nat.

Lemma roomy_mono c c' h h' w w' :
  (c <= c')%nat -> (h <= h')%nat -> (w <= w')%nat ->
  roomy c h w -> roomy c' h' w'.
Proof using Type.
  clear Hb Hbt. unfold roomy. intros Hc Hh Hw H.
  assert (Hd : (b * c / 32 <= b * c' / 32)%nat)
    by (apply Nat.Div0.div_le_mono; nia).
  assert (Hm : (h * w <= h' * w')%nat) by nia.
  nia.
Qed.

Lemma le_mul_pos c m : (1 <= c * m)%nat -> (c <= c * m)%nat.
Proof using Type. clear Hb Hbt. destruct m as [|m]; [lia | nia]. Qed.

Lemma leb_true n m : (n <= m)%nat -> (n <=? m) = true.
Proof. apply Nat.leb_le. Qed.

Lemma time_rows_ok : (bt =? b) || (bt =? 1) = true.
Proof.
  destruct Hbt as [-> | ->]; [now rewrite Nat.eqb_refl|].
  now rewrite (Nat.eqb_refl 1), orb_true_r.
Qed.

Lemma GroupNorm_forward_ok g c h w :
  (1 <= g)%nat -> (g <= 32)%nat -> roomy c h w ->
  GroupNorm_forward g c (b, c, h, w) = Ok tt.
Proof using Type.
  clear Hb Hbt. unfold roomy. intros Hg1 Hg2 H. unfold GroupNorm_forward.
  assert (Hd : (b * c / 32 <= b * c / g)%nat)
    by (apply Nat.div_le_compat_l; lia).
  destruct (Nat.eqb_spec (b * c / g * h * w) 1) as [E|_].
  - apply Nat.eq_mul_1 in E as [E Ew]. apply Nat.eq_mul_1 in E as [Eq Eh].
    rewrite Eq in Hd. rewrite Eh, Ew in H. nia.
  - now rewrite Nat.eqb_refl.
Qed.

Lemma Conv2d_3x3_ok cin cout h w :
  (1 <= cout)%nat -> (1 <= h)%nat -> (1 <= w)%nat ->
  Conv2d_3x3 cin cout (b, cin, h, w) = Ok (b, cout, h, w).
Proof.
  intros Hc Hh Hw. unfold Conv2d_3x3.
  now rewrite Nat.eqb_refl, (leb_true 1 cout Hc), (leb_true 1 h Hh),
    (leb_true 1 w Hw).
Qed.

Lemma ResidualBlock_forward_ok cin cout h w :
  (1 <= cout)%nat -> (1 <= h)%nat -> (1 <= w)%nat ->
  roomy cin h w -> roomy cout h w ->
  ResidualBlock_forward cin cout tc (b, cin, h, w) (bt, tc)
  = Ok (b, cout, h, w).
Proof.
  intros Hc Hh Hw Hin Hout. unfold ResidualBlock_forward.
  rewrite (GroupNorm_forward_ok 32 cin h w ltac:(lia) ltac:(lia) Hin).
  cbn [mbind result_bind bind].
  rewrite (Conv2d_3x3_ok cin cout h w Hc Hh Hw).
  cbn [mbind result_bind bind snd fst].
  rewrite Nat.eqb_refl. cbn [mbind result_bind bind].
  rewrite time_rows_ok. cbn [mbind result_bind bind].
  rewrite (GroupNorm_forward_ok 32 cout h w ltac:(lia) ltac:(lia) Hout).
  cbn [mbind result_bind bind].
  rewrite (Conv2d_3x3_ok cout cout h w Hc Hh Hw). cbn [mbind result_bind bind].
  destruct (cin =? cout); [reflexivity|].
  unfold Conv2d_1x1.
  now rewrite Nat.eqb_refl, (leb_true 1 cout Hc), (leb_true 1 h Hh),
    (leb_true 1 w Hw).
Qed.

Lemma attn_forward_ok a c h w :
  (1 <= c)%nat -> attn_forward a c (b, c, h, w) = Ok (b, c, h, w).
Proof.
  intros Hc. unfold attn_forward, AttentionBlock_forward.
  destruct a; [|reflexivity].
  destruct (Nat.eqb_spec (b * c) 0) as [H0|_]; [nia|].
  now rewrite Nat.eqb_refl.
Qed.

Lemma DownBlock_forward_ok cin cout a h w :
  (1 <= cout)%nat -> (1 <= h)%nat -> (1 <= w)%nat ->
  roomy cin h w -> roomy cout h w ->
  module_forward (DownBlock cin cout tc a) (b, cin, h, w) (bt, tc)
  = Ok (b, cout, h, w).
Proof.
  intros Hc Hh Hw Hin Hout. cbn [module_forward].
  rewrite (ResidualBlock_forward_ok cin cout h w Hc Hh Hw Hin Hout).
  cbn [mbind result_bind bind]. now apply attn_forward_ok.
Qed.

Lemma UpBlock_forward_ok cin cout a h w :
  (1 <= cout)%nat -> (1 <= h)%nat -> (1 <= w)%nat -> roomy cout h w ->
  module_forward (UpBlock cin cout tc a) (b, (cin + cout)%nat, h, w) (bt, tc)
  = Ok (b, cout, h, w).
Proof.
  intros Hc Hh Hw Hout. cbn [module_forward].
  rewrite (ResidualBlock_forward_ok (cin + cout) cout h w Hc Hh Hw
             (roomy_mono cout (cin + cout) h h w w ltac:(lia) ltac:(lia)
                ltac:(lia) Hout) Hout).
  cbn [mbind result_bind bind]. now apply attn_forward_ok.
Qed.

Lemma MiddleBlock_forward_ok c h w :
  (1 <= c)%nat -> (1 <= h)%nat -> (1 <= w)%nat -> roomy c h w ->
  MiddleBlock_forward c tc (b, c, h, w) (bt, tc) = Ok (b, c, h, w).
Proof.
  intros Hc Hh Hw Hr. unfold MiddleBlock_forward.
  rewrite (ResidualBlock_forward_ok c c h w Hc Hh Hw Hr Hr).
  cbn [mbind result_bind bind].
  change (AttentionBlock_forward c (b, c, h, w))
    with (attn_forward true c (b, c, h, w)).
  rewrite (attn_forward_ok true c h w Hc). cbn [mbind result_bind bind].
  now apply ResidualBlock_forward_ok.
Qed.

Lemma down_step_ok m x x' stk :
  module_forward m x (bt, tc) = Ok x' ->
  down_step (bt, tc) (x, stk) m = Ok (x', x' :: stk).
Proof. intros H. unfold down_step. now rewrite H. Qed.

Lemma up_step_UpBlock cin cout a x s x1 x2 stk :
  cat x s = Ok x1 ->
  module_forward (UpBlock cin cout tc a) x1 (bt, tc) = Ok x2 ->
  up_step (bt, tc) (x, s :: stk) (UpBlock cin cout tc a) = Ok (x2, stk).
Proof.
  intros H1 H2. unfold up_step. rewrite H1. cbn [mbind result_bind bind].
  now rewrite H2.
Qed.

Lemma repeat_app_cons {A} (x : A) k l :
  repeat x k ++ x :: l = x :: repeat x k ++ l.
Proof. induction k as [|k IH]; simpl; [reflexivity | now rewrite IH]. Qed.

Lemma down_repeat_fwd c a h w k stk :
  (1 <= c)%nat -> (1 <= h)%nat -> (1 <= w)%nat -> roomy c h w ->
  foldM (down_step (bt, tc)) ((b, c, h, w), stk)
        (repeat (DownBlock c c tc a) k)
  = Ok ((b, c, h, w), repeat (b, c, h, w) k ++ stk).
Proof.
  intros Hc Hh Hw Hr. revert stk. induction k as [|k IH]; intros stk;
    [reflexivity|].
  cbn [repeat foldM].
  rewrite (down_step_ok _ _ _ stk
             (DownBlock_forward_ok c c a h w Hc Hh Hw Hr Hr)).
  cbn [mbind result_bind bind]. rewrite IH. now rewrite repeat_app_cons.
Qed.

Lemma down_level_fwd is_attn nb c m i h w stk :
  (1 <= nb)%nat -> (1 <= c * m)%nat -> (1 <= h)%nat -> (1 <= w)%nat ->
  roomy c h w ->
  foldM (down_step (bt, tc)) ((b, c, h, w), stk)
        (down_level tc nb is_attn c m i)
  = Ok ((b, (c * m)%nat, h, w), repeat (b, (c * m)%nat, h, w) nb ++ stk).
Proof.
  intros Hnb Hc Hh Hw Hr. unfold down_level.
  assert (Hrm : roomy (c * m) h w)
    by (apply (roomy_mono c (c * m) h h w w);
        [now apply le_mul_pos | lia | lia | exact Hr]).
  destruct nb as [|k]; [lia|].
  cbn [foldM].
  rewrite (down_step_ok _ _ _ stk
             (DownBlock_forward_ok c (c * m) (attn_at is_attn i) h w Hc Hh Hw
                Hr Hrm)).
  cbn [mbind result_bind bind].
  rewrite (down_repeat_fwd (c * m) _ h w k _ Hc Hh Hw Hrm).
  cbn [repeat]. now rewrite repeat_app_cons.
Qed.

Lemma cat_ok c c' h w : cat (b, c, h, w) (b, c', h, w) = Ok (b, (c + c')%nat, h, w).
Proof. unfold cat. now rewrite !Nat.eqb_refl. Qed.

Lemma up_repeat_fwd c a h w k stk :
  (1 <= c)%nat -> (1 <= h)%nat -> (1 <= w)%nat -> roomy c h w ->
  foldM (up_step (bt, tc)) ((b, c, h, w), repeat (b, c, h, w) k ++ stk)
        (repeat (UpBlock c c tc a) k)
  = Ok ((b, c, h, w), stk).
Proof.
  intros Hc Hh Hw Hr. induction k as [|k IH]; [reflexivity|].
  cbn [repeat foldM app].
  rewrite (up_step_UpBlock c c a _ _ _ _ (repeat (b, c, h, w) k ++ stk)
             (cat_ok c c h w) (UpBlock_forward_ok c c a h w Hc Hh Hw Hr)).
  cbn [mbind result_bind bind]. exact IH.
Qed.

Lemma up_level_fwd is_attn nb c m i h w stk :
  (1 <= c)%nat -> (1 <= c * m)%nat -> (1 <= h)%nat -> (1 <= w)%nat ->
  roomy c h w ->
  foldM (up_step (bt, tc))
        ((b, (c * m)%nat, h, w),
         repeat (b, (c * m)%nat, h, w) nb ++ (b, c, h, w) :: stk)
        (up_level tc nb is_attn c m i)
  = Ok ((b, c, if 0 <? i then (2 * h)%nat else h,
               if 0 <? i then (2 * w)%nat else w), stk).
Proof.
  intros Hc Hcm Hh Hw Hr. unfold up_level.
  assert (Hrm : roomy (c * m) h w)
    by (apply (roomy_mono c (c * m) h h w w);
        [now apply le_mul_pos | lia | lia | exact Hr]).
  rewrite Notebook.foldM_app.
  rewrite (up_repeat_fwd (c * m) _ h w nb _ Hcm Hh Hw Hrm).
  cbn [mbind result_bind bind app foldM].
  rewrite (up_step_UpBlock (c * m) c (attn_at is_attn i) _ _ _ _ stk
             (cat_ok (c * m) c h w)
             (UpBlock_forward_ok (c * m) c (attn_at is_attn i) h w Hc Hh Hw
                Hr)).
  cbn [mbind result_bind bind].
  destruct (0 <? i); [|reflexivity].
  cbn [foldM up_step module_forward]. unfold Upsample_forward.
  now rewrite Nat.eqb_refl, (leb_true 1 c Hc), (leb_true 1 h Hh),
    (leb_true 1 w Hw).
Qed.

Lemma up_level_mismatch is_attn nb c m i h w h2 w2 stk :
  (1 <= nb)%nat -> (h2 =? h) && (w2 =? w) = false ->
  foldM (up_step (bt, tc))
        ((b, (c * m)%nat, h2, w2),
         repeat (b, (c * m)%nat, h, w) nb ++ (b, c, h, w) :: stk)
        (up_level tc nb is_attn c m i)
  = Raise RuntimeError.
Proof.
  intros Hnb Hne. unfold up_level. destruct nb as [|k]; [lia|].
  cbn [repeat app foldM].
  assert (Hcat : cat (b, (c * m)%nat, h2, w2) (b, (c * m)%nat, h, w)
                 = Raise RuntimeError).
  { unfold cat. rewrite Nat.eqb_refl. cbn [andb]. now rewrite Hne. }
  assert (Hstep : forall l,
            up_step (bt, tc) ((b, (c * m)%nat, h2, w2), (b, (c * m)%nat, h, w) :: l)
              (UpBlock (c * m) (c * m) tc (attn_at is_attn i))
            = Raise RuntimeError)
    by (intros l; unfold up_step; now rewrite Hcat).
  now rewrite Hstep.
Qed.

(** The first half on the modules [ds], the middle block, and the
    second half on the modules [us]. *)
Definition run (mid : nat) (ds us : list module) (st : shape * list shape)
  : result (shape * list shape) :=
  st ← foldM (down_step (bt, tc)) st ds;
  x ← MiddleBlock_forward mid tc (fst st) (bt, tc);
  foldM (up_step (bt, tc)) (x, snd st) us.

Lemma run_app mid d1 d2 u2 u1 st :
  run mid (d1 ++ d2) (u2 ++ u1) st
  = (st1 ← foldM (down_step (bt, tc)) st d1;
     st2 ← run mid d2 u2 st1;
     foldM (up_step (bt, tc)) st2 u1).
Proof.
  unfold run. rewrite Notebook.foldM_app.
  destruct (foldM (down_step (bt, tc)) st d1) as [st1|e]; [|reflexivity].
  cbn [mbind result_bind bind].
  destruct (foldM (down_step (bt, tc)) st1 d2) as [st2|e]; [|reflexivity].
  cbn [mbind result_bind bind].
  destruct (MiddleBlock_forward mid tc (fst st2) (bt, tc)) as [x|e];
    [|reflexivity].
  cbn [mbind result_bind bind]. apply Notebook.foldM_app.
Qed.

Lemma run_cons mid d ds us st :
  run mid (d :: ds) us st
  = (st1 ← down_step (bt, tc) st d; run mid ds us st1).
Proof.
  unfold run. cbn [foldM].
  destruct (down_step (bt, tc) st d) as [st1|e]; reflexivity.
Qed.

Lemma half_even h :
  (1 <= h)%nat -> Nat.even h = true ->
  ((h - 1) / 2 + 1 = h / 2)%nat /\ (2 * (h / 2) = h)%nat.
Proof.
  intros Hh He. apply Nat.even_spec in He as [q ->].
  rewrite (Nat.mul_comm 2 q), Nat.div_mul by lia.
  split; [|lia].
  replace (q * 2 - 1)%nat with (1 + (q - 1) * 2)%nat by lia.
  rewrite Nat.div_add by lia. simpl. lia.
Qed.

Lemma half_odd h :
  Nat.even h = false -> (2 * ((h - 1) / 2 + 1) =? h) = false.
Proof.
  intros He. apply Nat.eqb_neq. intros H.
  assert (Hev : Nat.even h = true)
    by (apply Nat.even_spec; exists ((h - 1) / 2 + 1)%nat; lia).
  congruence.
Qed.

(** The U of the resolutions [ms], entered at resolution [i] with [c]
    channels and a feature map that is also the latest skip connection,
    when the smallest feature map is still roomy. *)
Lemma run_levels is_attn nb :
  (1 <= nb)%nat ->
  forall ms c i h w stk,
  ms <> [] -> (1 <= c)%nat -> Forall (fun m => 1 <= m)%nat ms ->
  (1 <= h)%nat -> (1 <= w)%nat ->
  roomy c (lowest (length ms - 1) h) (lowest (length ms - 1) w) ->
  run (channels_after c ms) (down_spec tc nb is_attn c i ms)
      (up_spec tc nb is_attn c i ms)
      ((b, c, h, w), (b, c, h, w) :: stk)
  = if fits (length ms - 1) h && fits (length ms - 1) w
    then Ok ((b, c, if 0 <? i then (2 * h)%nat else h,
                    if 0 <? i then (2 * w)%nat else w), stk)
    else Raise RuntimeError.
Proof.
  intros Hnb.
  induction ms as [|m ms IH]; intros c i h w stk Hne Hc Hpos Hh Hw Hlow;
    [contradiction|].
  apply List.Forall_cons_iff in Hpos as [Hm Hpos].
  assert (Hcm : (1 <= c * m)%nat) by nia.
  assert (Hr : roomy c h w).
  { apply (roomy_mono c c _ h _ w (Nat.le_refl c)
             (lowest_le _ h Hh) (lowest_le _ w Hw) Hlow). }
  assert (Hrm : roomy (c * m) h w)
    by (apply (roomy_mono c (c * m) h h w w);
        [now apply le_mul_pos | lia | lia | exact Hr]).
  destruct ms as [|m' ms'].
  - cbn [down_spec up_spec length Nat.sub fits andb app channels_after fold_left].
    rewrite app_nil_r. unfold run.
    rewrite (down_level_fwd is_attn nb c m i h w _ Hnb Hcm Hh Hw Hr).
    cbn [mbind result_bind bind fst snd].
    rewrite (MiddleBlock_forward_ok (c * m) h w Hcm Hh Hw Hrm).
    cbn [mbind result_bind bind].
    now apply up_level_fwd.
  - change (down_spec tc nb is_attn c i (m :: m' :: ms'))
      with (down_level tc nb is_attn c m i
            ++ (Downsample (c * m)
                :: down_spec tc nb is_attn (c * m) (S i) (m' :: ms'))).
    change (up_spec tc nb is_attn c i (m :: m' :: ms'))
      with (up_spec tc nb is_attn (c * m) (S i) (m' :: ms')
            ++ up_level tc nb is_attn c m i).
    rewrite channels_after_cons, run_app.
    rewrite (down_level_fwd is_attn nb c m i h w _ Hnb Hcm Hh Hw Hr).
    cbn [mbind result_bind bind].
    rewrite run_cons.
    assert (Hds : module_forward (Downsample (c * m)) (b, (c * m)%nat, h, w)
                    (bt, tc)
                  = Ok (b, (c * m)%nat, ((h - 1) / 2 + 1)%nat,
                        ((w - 1) / 2 + 1)%nat)).
    { cbn [module_forward]. unfold Downsample_forward.
      now rewrite Nat.eqb_refl, (leb_true 1 _ Hcm), (leb_true 1 h Hh),
        (leb_true 1 w Hw). }
    rewrite (down_step_ok _ _ _ _ Hds).
    cbn [mbind result_bind bind].
    replace (length (m :: m' :: ms') - 1)%nat
      with (S (length (m' :: ms') - 1)) in Hlow |- * by (cbn [length]; lia).
    set (k := (length (m' :: ms') - 1)%nat) in *.
    cbn [lowest] in Hlow.
    rewrite (IH (c * m)%nat (S i) ((h - 1) / 2 + 1)%nat ((w - 1) / 2 + 1)%nat
               _ ltac:(discriminate) Hcm Hpos ltac:(lia) ltac:(lia)
               (roomy_mono c (c * m) _ _ _ _ (le_mul_pos c m Hcm)
                  (Nat.le_refl _) (Nat.le_refl _) Hlow)).
    fold k.
    cbn [fits]. change (0 <? S i) with true. cbv iota.
    destruct (Nat.even h) eqn:Eh; destruct (Nat.even w) eqn:Ew.
    + destruct (half_even h Hh Eh) as [Hh1 Hh2].
      destruct (half_even w Hw Ew) as [Hw1 Hw2].
      rewrite Hh1, Hw1. cbn [andb].
      destruct (fits k (h / 2) && fits k (w / 2)); [|reflexivity].
      cbn [mbind result_bind bind foldM]. rewrite Hh2, Hw2.
      now apply up_level_fwd.
    + cbn [andb]. rewrite andb_false_r.
      destruct (fits k ((h - 1) / 2 + 1) && fits k ((w - 1) / 2 + 1));
        [|reflexivity].
      cbn [mbind result_bind bind foldM].
      apply up_level_mismatch; [assumption|].
      rewrite (half_odd w Ew). apply andb_false_r.
    + cbn [andb].
      destruct (fits k ((h - 1) / 2 + 1) && fits k ((w - 1) / 2 + 1));
        [|reflexivity].
      cbn [mbind result_bind bind foldM].
      apply up_level_mismatch; [assumption|].
      now rewrite (half_odd h Eh).
    + cbn [andb].
      destruct (fits k ((h - 1) / 2 + 1) && fits k ((w - 1) / 2 + 1));
        [|reflexivity].
      cbn [mbind result_bind bind foldM].
      apply up_level_mismatch; [assumption|].
      now rewrite (half_odd h Eh).
Qed.

(** A group normalisation of a feature map of one sample's worth of 32
    channels and a single pixel. *)
Lemma ResidualBlock_forward_single cin cout :
  (b * cin / 32 = 1)%nat ->
  ResidualBlock_forward cin cout tc (b, cin, 1, 1)%nat (bt, tc)
  = Raise (ValueError (single_value [1; 32; 1; 1]%nat)).
Proof using Type.
  clear Hb Hbt. intros H1. unfold ResidualBlock_forward, GroupNorm_forward.
  now rewrite H1.
Qed.

Lemma roomy_single c h w :
  (b * c / 32 = 1)%nat -> (2 <= h)%nat -> (1 <= w)%nat -> roomy c h w.
Proof using Type. clear Hb Hbt. unfold roomy. intros ->. nia. Qed.

Lemma pow2_pos k : (1 <= 2 ^ k)%nat.
Proof using Type.
  clear Hb Hbt. induction k as [|k IH]; [simpl; lia|].
  rewrite Nat.pow_succ_r'. lia.
Qed.

Lemma half_pow2 k : ((2 ^ S k - 1) / 2 + 1 = 2 ^ k)%nat.
Proof using Type.
  clear Hb Hbt. pose proof (pow2_pos k) as Hp.
  rewrite Nat.pow_succ_r'.
  replace (2 * 2 ^ k - 1)%nat with (1 + (2 ^ k - 1) * 2)%nat by lia.
  rewrite Nat.div_add by lia. simpl. lia.
Qed.

(** The U of the resolutions [ms] on a square feature map of side
    [2 ^ (R - 1)], when the channels do not grow before the last
    resolution and the batch fills a single group: the first group
    normalisation at the lowest resolution raises. *)
Lemma run_levels_single is_attn nb :
  (1 <= nb)%nat ->
  forall ms c i k stk,
  length ms = S k -> Forall (fun m => m = 1%nat) (removelast ms) ->
  (1 <= c)%nat -> (b * c / 32 = 1)%nat ->
  run (channels_after c ms) (down_spec tc nb is_attn c i ms)
      (up_spec tc nb is_attn c i ms)
      ((b, c, 2 ^ k, 2 ^ k)%nat, (b, c, 2 ^ k, 2 ^ k)%nat :: stk)
  = Raise (ValueError (single_value [1; 32; 1; 1]%nat)).
Proof.
  intros Hnb.
  induction ms as [|m ms IH]; intros c i k stk Hlen Hones Hc H1;
    [discriminate|].
  destruct ms as [|m' ms'].
  - injection Hlen as <-. change (2 ^ 0)%nat with 1%nat.
    cbn [down_spec up_spec app]. rewrite app_nil_r. unfold run, down_level.
    destruct nb as [|j]; [lia|].
    cbn [foldM down_step module_forward].
    now rewrite (ResidualBlock_forward_single c (c * m) H1).
  - cbn [length] in Hlen. destruct k as [|k]; [discriminate|].
    change (removelast (m :: m' :: ms')) with (m :: removelast (m' :: ms'))
      in Hones.
    apply List.Forall_cons_iff in Hones as [-> Hones].
    pose proof (pow2_pos (S k)) as Hp. pose proof (pow2_pos k) as Hpk.
    assert (Hbig : (2 <= 2 ^ S k)%nat) by (rewrite Nat.pow_succ_r'; lia).
    change (down_spec tc nb is_attn c i (1%nat :: m' :: ms'))
      with (down_level tc nb is_attn c 1 i
            ++ (Downsample (c * 1)
                :: down_spec tc nb is_attn (c * 1) (S i) (m' :: ms'))).
    change (up_spec tc nb is_attn c i (1%nat :: m' :: ms'))
      with (up_spec tc nb is_attn (c * 1) (S i) (m' :: ms')
            ++ up_level tc nb is_attn c 1 i).
    rewrite channels_after_cons, run_app.
    rewrite (down_level_fwd is_attn nb c 1 i (2 ^ S k) (2 ^ S k) _ Hnb
               ltac:(lia) Hp Hp (roomy_single c _ _ H1 Hbig Hp)).
    cbn [mbind result_bind bind].
    rewrite run_cons.
    assert (Hds : module_forward (Downsample (c * 1))
                    (b, (c * 1)%nat, (2 ^ S k)%nat, (2 ^ S k)%nat) (bt, tc)
                  = Ok (b, (c * 1)%nat, (2 ^ k)%nat, (2 ^ k)%nat)).
    { cbn [module_forward]. unfold Downsample_forward.
      rewrite Nat.eqb_refl, (leb_true 1 (c * 1) ltac:(lia)),
        (leb_true 1 _ Hp). cbn [andb].
      now rewrite half_pow2. }
    rewrite (down_step_ok _ _ _ _ Hds).
    cbn [mbind result_bind bind].
    rewrite (IH (c * 1)%nat (S i) k _ ltac:(cbn [length]; lia) Hones
               ltac:(lia) ltac:(rewrite Nat.mul_1_r; exact H1)).
    reflexivity.
Qed.

End ForwardShapes.

(** **** Counting the modules *)

Lemma length_down_level tc nb is_attn c m i :
  length (down_level tc nb is_attn c m i) = nb.
Proof.
  unfold down_level. destruct nb as [|k]; [reflexivity|].
  simpl. now rewrite repeat_length.
Qed.

Lemma length_down_spec tc nb is_attn ms :
  forall c i,
  length (down_spec tc nb is_attn c i ms)
  = (length ms * nb + (length ms - 1))%nat.
Proof.
  induction ms as [|m ms IH]; intros c i; [reflexivity|].
  cbn [down_spec]. rewrite length_app, length_down_level.
  destruct ms as [|m' ms']; [simpl; lia|].
  cbn [length]. rewrite (IH (c * m)%nat (S i)). cbn [length]. lia.
Qed.

Lemma length_up_level tc nb is_attn c m i :
  length (up_level tc nb is_attn c m i)
  = (nb + 1 + (if 0 <? i then 1 else 0))%nat.
Proof.
  unfold up_level. rewrite !length_app, repeat_length.
  destruct (0 <? i); simpl; lia.
Qed.

Lemma length_up_spec tc nb is_attn ms :
  forall c i,
  length (up_spec tc nb is_attn c i ms)
  = (length ms * (nb + 1)
     + (if 0 <? i then length ms else length ms - 1))%nat.
Proof.
  induction ms as [|m ms IH]; intros c i.
  - simpl. now destruct (0 <? i).
  - cbn [up_spec]. rewrite length_app, length_up_level, (IH (c * m)%nat (S i)).
    change (0 <? S i) with true. cbv iota. cbn [length].
    destruct (0 <? i); lia.
Qed.

Lemma filter_repeat_true {A} (f : A -> bool) x k :
  f x = true -> List.filter f (repeat x k) = repeat x k.
Proof.
  intros H. induction k as [|k IH]; [reflexivity|].
  cbn [repeat List.filter]. now rewrite H, IH.
Qed.

Lemma count_up_level tc nb is_attn c m i :
  length (List.filter is_UpBlock (up_level tc nb is_attn c m i)) = (nb + 1)%nat.
Proof.
  unfold up_level. rewrite !List.filter_app, !length_app.
  rewrite filter_repeat_true by reflexivity. rewrite repeat_length.
  destruct (0 <? i); simpl; lia.
Qed.

Lemma count_up_spec tc nb is_attn ms :
  forall c i,
  length (List.filter is_UpBlock (up_spec tc nb is_attn c i ms))
  = (length ms * (nb + 1))%nat.
Proof.
  induction ms as [|m ms IH]; intros c i; [reflexivity|].
  cbn [up_spec]. rewrite List.filter_app, length_app, count_up_level.
  rewrite (IH (c * m)%nat (S i)). cbn [length]. lia.
Qed.

Lemma mult32_of_mod n : (n mod 32 = 0)%nat -> mult32 n.
Proof.
  intros H. exists (n / 32)%nat.
  pose proof (Nat.div_mod_eq n 32). lia.
Qed.

Lemma fits_divide k : forall h, fits k h = true <-> Nat.divide (2 ^ k) h.
Proof.
  induction k as [|k IH]; intros h.
  - simpl. split; [intros _; apply Nat.divide_1_l | reflexivity].
  - cbn [fits]. rewrite andb_true_iff, Nat.even_spec, IH. split.
    + intros [[q ->] [r Hr]].
      rewrite (Nat.mul_comm 2 q), Nat.div_mul in Hr by lia.
      exists r. rewrite Nat.pow_succ_r'. lia.
    + intros [r Hr]. rewrite Nat.pow_succ_r' in Hr.
      assert (Hh : h = (2 * (r * 2 ^ k))%nat) by lia.
      split; [exists (r * 2 ^ k)%nat; exact Hh|].
      exists r. rewrite Hh, (Nat.mul_comm 2), Nat.div_mul by lia. reflexivity.
Qed.

Lemma TimeEmbedding_forward_ok n bt :
  mult32 n -> (1 <= n)%nat ->
  TimeEmbedding_forward (n * 4) bt = Ok (bt, (n * 4)%nat).
Proof.
  intros [q ->] Hn. unfold TimeEmbedding_forward.
  assert (H8 : (q * 32 * 4 / 8 = q * 16)%nat).
  { replace (q * 32 * 4)%nat with (q * 16 * 8)%nat by lia.
    apply Nat.div_mul. lia. }
  assert (H4 : (q * 32 * 4 / 4 = q * 32)%nat) by (apply Nat.div_mul; lia).
  rewrite H8, H4.
  destruct (Nat.eqb_spec (q * 16) 1); [lia|].
  destruct (Nat.eqb_spec (2 * (q * 16)) (q * 32)); [reflexivity | lia].
Qed.

(** The forward pass of a network built by [init_ok], when the smallest
    feature map is still roomy. *)
Lemma forward_built ic n ms is_attn nb b bt h w :
  (1 <= ic)%nat -> mult32 n -> (1 <= n)%nat -> ms <> [] ->
  Forall (fun m => 1 <= m)%nat ms -> (1 <= nb)%nat ->
  (1 <= b)%nat -> bt = b \/ bt = 1%nat -> (1 <= h)%nat -> (1 <= w)%nat ->
  roomy b n (lowest (length ms - 1) h) (lowest (length ms - 1) w) ->
  forward_with_stack
    {| image_channels := ic;
       n_channels := n;
       down := down_spec (n * 4) nb is_attn n 0 ms;
       middle := channels_after n ms;
       up := up_spec (n * 4) nb is_attn n 0 ms;
       final_in := n |} (b, ic, h, w) bt
  = if fits (length ms - 1) h && fits (length ms - 1) w
    then Ok ((b, ic, h, w), [])
    else Raise RuntimeError.
Proof.
  intros Hic Hn Hn1 Hne Hpos Hnb Hb Hbt Hh Hw Hlow.
  unfold forward_with_stack.
  cbn [n_channels image_channels down middle up final_in].
  rewrite (TimeEmbedding_forward_ok n bt Hn Hn1). cbn [mbind result_bind bind].
  rewrite (Conv2d_3x3_ok b ic n h w Hn1 Hh Hw). cbn [mbind result_bind bind].
  pose proof (run_levels b bt (n * 4) Hb Hbt is_attn nb Hnb ms n 0 h w []
                Hne Hn1 Hpos Hh Hw Hlow) as Hrun.
  unfold run in Hrun. change (0 <? 0) with false in Hrun. cbv iota in Hrun.
  assert (Hr : roomy b n h w).
  { apply (roomy_mono b n n _ h _ w (Nat.le_refl n)
             (lowest_le _ h Hh) (lowest_le _ w Hw) Hlow). }
  destruct (foldM (down_step (bt, (n * 4)%nat)) ((b, n, h, w), [(b, n, h, w)])
              (down_spec (n * 4) nb is_attn n 0 ms)) as [[x1 h1]|e1].
  - cbn [mbind result_bind bind fst snd] in Hrun |- *.
    destruct (MiddleBlock_forward (channels_after n ms) (n * 4) x1
                (bt, (n * 4)%nat)) as [x2|e2].
    + cbn [mbind result_bind bind] in Hrun |- *. rewrite Hrun.
      destruct (fits (length ms - 1) h && fits (length ms - 1) w);
        [|reflexivity].
      cbn [mbind result_bind bind].
      rewrite (GroupNorm_forward_ok b 8 n h w ltac:(lia) ltac:(lia) Hr).
      cbn [mbind result_bind bind].
      now rewrite (Conv2d_3x3_ok b n ic h w Hic Hh Hw).
    + cbn [mbind result_bind bind] in Hrun |- *. rewrite Hrun.
      now destruct (fits (length ms - 1) h && fits (length ms - 1) w).
  - cbn [mbind result_bind bind] in Hrun |- *. rewrite Hrun.
    now destruct (fits (length ms - 1) h && fits (length ms - 1) w).
Qed.

(** A batch of two images or more, a base width of 64 or more, or a
    side larger than [2 ^ k] keeps the feature map roomy after [k]
    down-samplings. *)
Lemma roomy_lowest b n k h w :
  mult32 n -> (1 <= n)%nat -> (1 <= b)%nat -> (1 <= h)%nat -> (1 <= w)%nat ->
  (64 <= b * n)%nat \/ (2 ^ k < h)%nat \/ (2 ^ k < w)%nat ->
  roomy b n (lowest k h) (lowest k w).
Proof.
  intros [q ->] Hn Hb Hh Hw Hg. unfold roomy.
  replace (b * (q * 32))%nat with (b * q * 32)%nat by lia.
  rewrite Nat.div_mul by lia.
  pose proof (lowest_pos k h Hh) as Hlh.
  pose proof (lowest_pos k w Hw) as Hlw.
  destruct Hg as [Hg|[Hg|Hg]].
  - assert (2 <= b * q)%nat by lia. nia.
  - pose proof (lowest_large k h Hg). assert (1 <= b * q)%nat by nia. nia.
  - pose proof (lowest_large k w Hg). assert (1 <= b * q)%nat by nia. nia.
Qed.

Lemma GroupNorm_rejects g c :
  (c mod g <> 0)%nat -> GroupNorm g c = Raise (ValueError not_divisible).
Proof.
  intros H. unfold GroupNorm.
  destruct (Nat.eqb_spec (c mod g) 0); [contradiction | reflexivity].
Qed.

(** **** No channel at all *)

Lemma AttentionBlock_zero : AttentionBlock 0 = Raise ZeroDivisionError.
Proof. reflexivity. Qed.

Lemma down_blocks_zero tc is_attn i :
  (i < length is_attn)%nat ->
  forall l acc,
  foldM (fun (s : list module * nat) (_ : nat) =>
           a ← index is_attn i;
           blk ← new_DownBlock (snd s) 0 tc a;
           Ok (fst s ++ [blk], 0%nat))
        (acc, 0%nat) l = Raise ZeroDivisionError
  \/ exists acc',
       foldM (fun (s : list module * nat) (_ : nat) =>
                a ← index is_attn i;
                blk ← new_DownBlock (snd s) 0 tc a;
                Ok (fst s ++ [blk], 0%nat))
             (acc, 0%nat) l = Ok (acc', 0%nat).
Proof.
  intros Hi. rewrite (index_ok is_attn i false Hi).
  cbn [mbind result_bind bind].
  destruct (nth i is_attn false).
  - intros [|x l] acc; [right; exists acc; reflexivity | left; reflexivity].
  - induction l as [|x l IH]; intros acc.
    + right. exists acc. reflexivity.
    + cbn [foldM snd fst].
      change (new_DownBlock 0 0 tc false) with (Ok (DownBlock 0 0 tc false)).
      cbn [mbind result_bind bind fst snd]. apply IH.
Qed.

Lemma down_resolution_zero n nb R is_attn acc o i m :
  (i < length is_attn)%nat ->
  down_resolution n nb R is_attn (acc, 0%nat, o) (i, m)
  = Raise ZeroDivisionError
  \/ exists acc',
       down_resolution n nb R is_attn (acc, 0%nat, o) (i, m)
       = Ok (acc', 0%nat, 0%nat).
Proof.
  intros Hi. unfold down_resolution. change (0 * m)%nat with 0%nat.
  destruct (down_blocks_zero (n * 4) is_attn i Hi (seq 0 nb) acc)
    as [E|[acc1 E]]; rewrite E; cbn [mbind result_bind bind].
  - now left.
  - right. eexists. reflexivity.
Qed.

Lemma down_fold_zero n nb R is_attn :
  forall ms i acc,
  (i + length ms <= length is_attn)%nat ->
  foldM (down_resolution n nb R is_attn) (acc, 0%nat, 0%nat)
        (combine (seq i (length ms)) ms) = Raise ZeroDivisionError
  \/ exists acc',
       foldM (down_resolution n nb R is_attn) (acc, 0%nat, 0%nat)
             (combine (seq i (length ms)) ms) = Ok (acc', 0%nat, 0%nat).
Proof.
  induction ms as [|m ms IH]; intros i acc Hi.
  - right. exists acc. reflexivity.
  - cbn [length] in Hi. cbn [length seq combine foldM].
    destruct (down_resolution_zero n nb R is_attn acc 0 i m ltac:(lia))
      as [E|[acc1 E]]; rewrite E; cbn [mbind result_bind bind].
    + now left.
    + apply IH. lia.
Qed.

(** The network of the notebook's demonstration: [UNet()] with its
    default arguments, and the one the notebook trains,
    [UNet(n_channels=32)]. *)
Definition default_ch_mults : list nat := [1; 2; 2; 4]%nat.
Definition default_is_attn : list bool := [false; false; true; true].

(** X24.  For a base width that is a positive multiple of 32, positive
    channel multipliers, one [is_attn] flag per resolution and at least
    one block per resolution, [UNet.__init__] succeeds.  With [R]
    resolutions the first half has [R * n_blocks + (R - 1)] modules and
    the second half [R * (n_blocks + 1) + (R - 1)], of which
    [R * (n_blocks + 1)] are up blocks: one per module of the first
    half plus one for the projected image, so that the forward pass
    finds a skip connection for every up block.  The middle block
    works on [n_channels] times the product of the multipliers (not
    [ch_mults[-1] * n_channels]) and the final convolution reads
    [n_channels] channels. *)
Theorem init_builds_matching_halves (ic n : nat) (ms : list nat)
    (is_attn : list bool) (nb : nat) :
  (n mod 32 = 0)%nat -> (1 <= n)%nat -> Forall (fun m => 1 <= m)%nat ms ->
  (length ms <= length is_attn)%nat -> (1 <= nb)%nat ->
  exists u,
    init ic n ms is_attn nb = Ok u
    /\ length (down u) = (length ms * nb + (length ms - 1))%nat
    /\ length (up u) = (length ms * (nb + 1) + (length ms - 1))%nat
    /\ length (List.filter is_UpBlock (up u)) = (length ms * (nb + 1))%nat
    /\ (ms <> [] ->
        length (List.filter is_UpBlock (up u)) = (1 + length (down u))%nat)
    /\ middle u = fold_left Nat.mul ms n
    /\ final_in u = n.
Proof.
  intros Hn Hn1 Hpos Hlen Hnb. eexists. split.
  - apply (init_ok ic n ms is_attn nb (mult32_of_mod n Hn) Hn1 Hpos Hlen Hnb).
  - cbn [down up middle final_in].
    rewrite length_down_spec, length_up_spec, count_up_spec.
    change (0 <? 0) with false. cbv iota.
    split; [reflexivity|]. split; [reflexivity|]. split; [reflexivity|].
    split; [|split; reflexivity].
    intros Hne. destruct ms as [|m ms']; [contradiction|]. cbn [length]. lia.
Qed.

(** X25.  "The output shape matches the input": on a network built as
    in X24 for images of at least one channel, a batch of at least one
    image whose height and width are positive multiples of
    [2 ^ (R - 1)], given one timestep per image or a single timestep,
    goes through the whole forward pass and comes out with the shape it
    had, and every skip connection pushed by the first half has been
    used by the second; provided no group normalisation meets a group
    with a single value, which is so when [batch * n_channels >= 64] (two
    images or more, or a base width of 64 or more) or a side of the
    image is larger than [2 ^ (R - 1)]. *)
Theorem forward_keeps_shape (ic n : nat) (ms : list nat)
    (is_attn : list bool) (nb b bt h w : nat) :
  (1 <= ic)%nat -> (n mod 32 = 0)%nat -> (1 <= n)%nat -> ms <> [] ->
  Forall (fun m => 1 <= m)%nat ms ->
  (length ms <= length is_attn)%nat -> (1 <= nb)%nat ->
  (1 <= b)%nat -> bt = b \/ bt = 1%nat -> (1 <= h)%nat -> (1 <= w)%nat ->
  Nat.divide (2 ^ (length ms - 1)) h -> Nat.divide (2 ^ (length ms - 1)) w ->
  (64 <= b * n)%nat \/ (2 ^ (length ms - 1) < h)%nat
  \/ (2 ^ (length ms - 1) < w)%nat ->
  exists u,
    init ic n ms is_attn nb = Ok u
    /\ forward_with_stack u (b, ic, h, w) bt = Ok ((b, ic, h, w), [])
    /\ forward u (b, ic, h, w) bt = Ok (b, ic, h, w).
Proof.
  intros Hic Hn Hn1 Hne Hpos Hlen Hnb Hb Hbt Hh Hw Hdh Hdw Hg.
  pose proof (mult32_of_mod n Hn) as H32.
  eexists. split; [apply (init_ok ic n ms is_attn nb H32 Hn1 Hpos Hlen Hnb)|].
  assert (Hf : forward_with_stack
                 {| image_channels := ic; n_channels := n;
                    down := down_spec (n * 4) nb is_attn n 0 ms;
                    middle := channels_after n ms;
                    up := up_spec (n * 4) nb is_attn n 0 ms;
                    final_in := n |} (b, ic, h, w) bt
               = Ok ((b, ic, h, w), [])).
  { rewrite (forward_built ic n ms is_attn nb b bt h w Hic H32 Hn1 Hne Hpos Hnb
               Hb Hbt Hh Hw (roomy_lowest b n _ h w H32 Hn1 Hb Hh Hw Hg)).
    apply fits_divide in Hdh. apply fits_divide in Hdw.
    now rewrite Hdh, Hdw. }
  split; [exact Hf|]. unfold forward. now rewrite Hf.
Qed.

(** X26.  An image size that [2 ^ (R - 1)] does not divide is rejected:
    on the same networks, and under the same proviso on the group
    normalisations, the forward pass raises a [RuntimeError] (an
    up-sampled feature map no longer has the size of the skip
    connection it is concatenated with). *)
Theorem forward_rejects_misaligned_size (ic n : nat) (ms : list nat)
    (is_attn : list bool) (nb b bt h w : nat) :
  (1 <= ic)%nat -> (n mod 32 = 0)%nat -> (1 <= n)%nat -> ms <> [] ->
  Forall (fun m => 1 <= m)%nat ms ->
  (length ms <= length is_attn)%nat -> (1 <= nb)%nat ->
  (1 <= b)%nat -> bt = b \/ bt = 1%nat -> (1 <= h)%nat -> (1 <= w)%nat ->
  ~ (Nat.divide (2 ^ (length ms - 1)) h
     /\ Nat.divide (2 ^ (length ms - 1)) w) ->
  (64 <= b * n)%nat \/ (2 ^ (length ms - 1) < h)%nat
  \/ (2 ^ (length ms - 1) < w)%nat ->
  exists u,
    init ic n ms is_attn nb = Ok u
    /\ forward u (b, ic, h, w) bt = Raise RuntimeError.
Proof.
  intros Hic Hn Hn1 Hne Hpos Hlen Hnb Hb Hbt Hh Hw Hnd Hg.
  pose proof (mult32_of_mod n Hn) as H32.
  eexists. split; [apply (init_ok ic n ms is_attn nb H32 Hn1 Hpos Hlen Hnb)|].
  unfold forward.
  rewrite (forward_built ic n ms is_attn nb b bt h w Hic H32 Hn1 Hne Hpos Hnb
             Hb Hbt Hh Hw (roomy_lowest b n _ h w H32 Hn1 Hb Hh Hw Hg)).
  destruct (fits (length ms - 1) h) eqn:Fh;
    destruct (fits (length ms - 1) w) eqn:Fw; try reflexivity.
  exfalso. apply Hnd. split; now apply fits_divide.
Qed.

(** X27.  Arguments [__init__] rejects.  With at least one resolution
    and one block per resolution, a base width that 32 does not divide
    raises the [ValueError] of the first group normalisation, and an
    empty [is_attn] raises [IndexError] whatever the base width is.  A
    base width of 0 raises [ZeroDivisionError], from the scale of the
    first attention block that is built, whatever the number of blocks
    is. *)
Theorem init_rejects_bad_arguments (ic n m : nat) (ms : list nat)
    (a : bool) (is_attn : list bool) (nb : nat) :
  ((1 <= nb)%nat -> (n mod 32 <> 0)%nat ->
   init ic n (m :: ms) (a :: is_attn) nb = Raise (ValueError not_divisible))
  /\ ((1 <= nb)%nat -> init ic n (m :: ms) [] nb = Raise IndexError)
  /\ ((length ms <= length is_attn)%nat ->
      init ic 0 ms is_attn nb = Raise ZeroDivisionError).
Proof.
  split; [|split].
  - intros Hnb Hn. destruct nb as [|k]; [lia|].
    assert (Hfirst : forall R o,
      down_resolution n (S k) R (a :: is_attn) ([], n, o) (0%nat, m)
      = Raise (ValueError not_divisible)).
    { intros R o. unfold down_resolution. cbn [seq foldM].
      unfold index at 1. cbn [nth_error mbind result_bind bind snd].
      unfold new_DownBlock, ResidualBlock.
      now rewrite (GroupNorm_rejects 32 n Hn). }
    unfold init. cbn [length seq combine foldM]. now rewrite Hfirst.
  - intros Hnb. destruct nb as [|k]; [lia|].
    assert (Hfirst : forall R o,
      down_resolution n (S k) R [] ([], n, o) (0%nat, m) = Raise IndexError).
    { intros R o. unfold down_resolution. cbn [seq foldM]. reflexivity. }
    unfold init. cbn [length seq combine foldM]. now rewrite Hfirst.
  - intros Hlen. unfold init.
    destruct (down_fold_zero 0 nb (length ms) is_attn ms 0 [] Hlen)
      as [E|[acc E]]; rewrite E; reflexivity.
Qed.

(** X31.  The case X25 leaves out.  On the network of 32 base channels
    whose multipliers are 1 at every resolution but the last, built for
    images of at least one channel, a single
    image of exactly [2 ^ (R - 1)] by [2 ^ (R - 1)] pixels does not get
    through: at the lowest resolution the feature map has one pixel and
    one group's worth of channels, and the group normalisation of the
    first residual block there raises a [ValueError]. *)
Theorem forward_rejects_single_value_group (ic k m : nat)
    (is_attn : list bool) (nb : nat) :
  (1 <= ic)%nat -> (1 <= m)%nat -> (S k <= length is_attn)%nat ->
  (1 <= nb)%nat ->
  exists u,
    init ic 32 (repeat 1%nat k ++ [m]) is_attn nb = Ok u
    /\ forward u (1, ic, 2 ^ k, 2 ^ k)%nat 1
       = Raise (ValueError (single_value [1; 32; 1; 1]%nat)).
Proof.
  intros _ Hm Hattn Hnb.
  set (ms := repeat 1%nat k ++ [m]).
  assert (Hlen : length ms = S k)
    by (unfold ms; rewrite length_app, repeat_length; simpl; lia).
  assert (Hpos : Forall (fun m => 1 <= m)%nat ms).
  { unfold ms. apply Forall_app. split.
    - apply Forall_forall. intros x Hx.
      apply list_elem_of_In, repeat_spec in Hx. lia.
    - apply List.Forall_cons; [exact Hm | apply List.Forall_nil]. }
  assert (Hones : Forall (fun m => m = 1%nat) (removelast ms)).
  { unfold ms. rewrite removelast_last. apply Forall_forall. intros x Hx.
    now apply list_elem_of_In, repeat_spec in Hx. }
  assert (H32 : mult32 32) by (exists 1%nat; reflexivity).
  eexists. split.
  { apply (init_ok ic 32 ms is_attn nb H32 ltac:(lia) Hpos ltac:(lia) Hnb). }
  unfold forward, forward_with_stack.
  cbn [n_channels image_channels down middle up final_in].
  rewrite (TimeEmbedding_forward_ok 32 1 H32 ltac:(lia)).
  cbn [mbind result_bind bind].
  pose proof (pow2_pos k) as Hp.
  rewrite (Conv2d_3x3_ok 1 ic 32 (2 ^ k) (2 ^ k) ltac:(lia) Hp Hp).
  cbn [mbind result_bind bind].
  pose proof (run_levels_single 1 1 (32 * 4) ltac:(lia) ltac:(now left)
                is_attn nb Hnb ms 32 0 k [] Hlen Hones ltac:(lia) eq_refl)
    as Hrun.
  unfold run in Hrun.
  destruct (foldM (down_step (1%nat, (32 * 4)%nat))
              ((1, 32, 2 ^ k, 2 ^ k)%nat, [(1, 32, 2 ^ k, 2 ^ k)%nat])
              (down_spec (32 * 4) nb is_attn 32 0 ms)) as [[x1 h1]|e1].
  - cbn [mbind result_bind bind fst snd] in Hrun |- *.
    destruct (MiddleBlock_forward (channels_after 32 ms) (32 * 4) x1
                (1%nat, (32 * 4)%nat)) as [x2|e2];
      cbn [mbind result_bind bind] in Hrun |- *;
      [now rewrite Hrun | now injection Hrun as ->].
  - cbn [mbind result_bind bind] in Hrun |- *. now injection Hrun as ->.
Qed.

End Torch.

Lemma init_builds_matching_halves_witness :
  exists u,
    init "not divisible" 3 64 default_ch_mults default_is_attn 2 = Ok u
    /\ length (down u) = (4 * 2 + (4 - 1))%nat
    /\ length (up u) = (4 * (2 + 1) + (4 - 1))%nat
    /\ length (List.filter is_UpBlock (up u)) = (4 * (2 + 1))%nat
    /\ (default_ch_mults <> [] ->
        length (List.filter is_UpBlock (up u)) = (1 + length (down u))%nat)
    /\ middle u = fold_left Nat.mul default_ch_mults 64%nat
    /\ final_in u = 64%nat.
Proof.
  apply (init_builds_matching_halves "not divisible" 3 64 default_ch_mults
           default_is_attn 2).
  - reflexivity.
  - lia.
  - repeat constructor.
  - simpl. lia.
  - lia.
Defined.

(** The text of [F.group_norm] in the witnesses below. *)
Definition quote_size (size : list nat) : string :=
  "one value per channel, size " +:+ pretty (length size).

(** The network the notebook trains, on one image of 32 by 32 pixels. *)
Lemma forward_keeps_shape_witness :
  exists u,
    init "not divisible" 3 32 default_ch_mults default_is_attn 2 = Ok u
    /\ forward_with_stack quote_size u (1, 3, 32, 32)%nat 1
       = Ok ((1, 3, 32, 32)%nat, [])
    /\ forward quote_size u (1, 3, 32, 32)%nat 1 = Ok (1, 3, 32, 32)%nat.
Proof.
  apply (forward_keeps_shape "not divisible" quote_size 3 32 default_ch_mults
           default_is_attn 2 1 1 32 32); try lia.
  - reflexivity.
  - discriminate.
  - repeat constructor.
  - simpl. lia.
  - exists 4%nat. reflexivity.
  - exists 4%nat. reflexivity.
  - right. left. simpl. lia.
Defined.

Lemma forward_rejects_misaligned_size_witness :
  exists u,
    init "not divisible" 3 64 default_ch_mults default_is_attn 2 = Ok u
    /\ forward quote_size u (10, 3, 28, 28)%nat 10 = Raise RuntimeError.
Proof.
  apply (forward_rejects_misaligned_size "not divisible" quote_size 3 64
           default_ch_mults default_is_attn 2 10 10 28 28); try lia.
  - reflexivity.
  - discriminate.
  - repeat constructor.
  - simpl. lia.
  - intros [[q Hq] _]. simpl in Hq. lia.
Defined.

(** One image of 8 by 8 pixels on four resolutions of 32 channels. *)
Lemma forward_rejects_single_value_group_witness :
  exists u,
    init "not divisible" 3 32 [1; 1; 1; 1]%nat default_is_attn 2 = Ok u
    /\ forward quote_size u (1, 3, 8, 8)%nat 1
       = Raise (ValueError (quote_size [1; 32; 1; 1]%nat)).
Proof.
  apply (forward_rejects_single_value_group "not divisible" quote_size
           3 3 1 default_is_attn 2); simpl; lia.
Defined.

Lemma init_rejects_bad_arguments_witness :
  init "not divisible" 3 48 default_ch_mults default_is_attn 2
  = Raise (ValueError "not divisible")
  /\ init "not divisible" 3 48 default_ch_mults [] 2 = Raise IndexError
  /\ init "not divisible" 3 0 [2; 2; 4]%nat [false; true; true] 2
     = Raise ZeroDivisionError.
Proof.
  destruct (init_rejects_bad_arguments "not divisible" 3 48 1 [2; 2; 4]%nat
              false [false; true; true] 2)
    as (Hvalue & Hindex & Hzero).
  split; [apply Hvalue; [lia | discriminate]|].
  split; [apply Hindex; lia | apply Hzero; simpl; lia].
Defined.

End Unet.

(** ** [log_hyperparameters] *)

Module Hparams.
Import Ema Entry.

(** [p.numel()] *)
Definition numel (p : Param) : nat := length (data p).

(** The values stored in [hparams]: parts of the configuration, and the
    three parameter counts. *)
Inductive hvalue : Type :=
  | FromCfg (v : pyval)
  | Count (n : nat).

(** [object_dict], as far as the function reads it: the entries ["cfg"],
    ["model"] (its [parameters()]) and ["trainer"] (whether
    [trainer.logger] is truthy), each possibly missing. *)
Record object_dict : Type := {
  od_cfg : option config;
  od_model : option (list Param);
  od_trainer : option bool
}.

(** [object_dict[key]] *)
Definition item {A} (key : string) (entry : option A) : result A :=
  match entry with
  | Some a => Ok a
  | None => Raise (KeyError key)
  end.

(** [sum(p.numel() for p in model.parameters() if keep(p))] *)
Definition count_params (keep : Param -> bool) (params : list Param) : nat :=
  list_sum (map numel (List.filter keep params)).

(** The body of [log_hyperparameters(object_dict)], as run on rank zero:
    the dictionary handed to [trainer.logger.log_hyperparams], in
    insertion order, or [None] when there is no logger and the function
    returns early. *)
Definition log_hyperparameters (o : object_dict)
  : result (option (list (string * hvalue))) :=
  cfg ← item "cfg" (od_cfg o);
  model ← item "model" (od_model o);
  trainer ← item "trainer" (od_trainer o);
  if negb trainer then Ok None
  else
    m ← subscript (PDict cfg) "model";
    let total := count_params (fun _ => true) model in
    let trainable := count_params requires_grad model in
    let non_trainable := count_params (fun p => negb (requires_grad p)) model in
    d ← subscript (PDict cfg) "datamodule";
    t ← subscript (PDict cfg) "trainer";
    Ok (Some [("model", FromCfg m);
              ("model/params/total", Count total);
              ("model/params/trainable", Count trainable);
              ("model/params/non_trainable", Count non_trainable);
              ("datamodule", FromCfg d);
              ("trainer", FromCfg t);
              ("callbacks", FromCfg (get cfg "callbacks"));
              ("extras", FromCfg (get cfg "extras"));
              ("task_name", FromCfg (get cfg "task_name"));
              ("tags", FromCfg (get cfg "tags"));
              ("ckpt_path", FromCfg (get cfg "ckpt_path"));
              ("seed", FromCfg (get cfg "seed"))]%string).

Fixpoint hlookup (key : string) (h : list (string * hvalue)) : option hvalue :=
  match h with
  | [] => None
  | (k, v) :: h' => if String.eqb k key then Some v else hlookup key h'
  end.

Lemma count_params_split (params : list Param) :
  count_params (fun _ => true) params
  = (count_params requires_grad params
     + count_params (fun p => negb (requires_grad p)) params)%nat.
Proof.
  unfold count_params. induction params as [|p l IH]; [reflexivity|].
  simpl in IH |- *. destruct (requires_grad p); simpl; lia.
Qed.

(** X28.  Whenever [log_hyperparameters] logs, the dictionary it hands
    to the logger has the twelve keys below in this order, and the
    three counts are consistent: the total number of parameter entries
    is the number of trainable ones plus the number of frozen ones. *)
Theorem logged_counts_add_up (o : object_dict) (h : list (string * hvalue)) :
  log_hyperparameters o = Ok (Some h) ->
  map fst h
  = ["model"; "model/params/total"; "model/params/trainable";
     "model/params/non_trainable"; "datamodule"; "trainer"; "callbacks";
     "extras"; "task_name"; "tags"; "ckpt_path"; "seed"]%string
  /\ exists total trainable non_trainable,
       hlookup "model/params/total" h = Some (Count total)
       /\ hlookup "model/params/trainable" h = Some (Count trainable)
       /\ hlookup "model/params/non_trainable" h = Some (Count non_trainable)
       /\ total = (trainable + non_trainable)%nat.
Proof.
  unfold log_hyperparameters. intros H.
  destruct (item "cfg" (od_cfg o)) as [cfg|]; [|discriminate].
  destruct (item "model" (od_model o)) as [model|]; [|discriminate].
  destruct (item "trainer" (od_trainer o)) as [trainer|]; [|discriminate].
  cbn [mbind result_bind bind] in H.
  destruct trainer; [|discriminate]. cbn [negb] in H.
  destruct (subscript (PDict cfg) "model") as [m|]; [|discriminate].
  cbn [mbind result_bind bind] in H.
  destruct (subscript (PDict cfg) "datamodule") as [d|]; [|discriminate].
  cbn [mbind result_bind bind] in H.
  destruct (subscript (PDict cfg) "trainer") as [t|]; [|discriminate].
  cbn [mbind result_bind bind] in H.
  injection H as <-. split; [reflexivity|].
  exists (count_params (fun _ => true) model),
         (count_params requires_grad model),
         (count_params (fun p => negb (requires_grad p)) model).
  split; [reflexivity|]. split; [reflexivity|]. split; [reflexivity|].
  apply count_params_split.
Qed.

(** A logged run: a two-parameter model, one of them frozen. *)
Definition logged_run : object_dict :=
  {| od_cfg := Some [("model", PStr "unet"); ("datamodule", PStr "faces");
                     ("trainer", PDict [("max_epochs", PInt 100)]);
                     ("seed", PInt 42)]%string;
     od_model := Some [ {| data := [1; 2; 3]%R; requires_grad := true; ndim := 1 |};
                        {| data := [4; 5]%R; requires_grad := false; ndim := 1 |} ];
     od_trainer := Some true |}.

Lemma logged_counts_add_up_witness :
  exists h,
    log_hyperparameters logged_run = Ok (Some h)
    /\ map fst h
       = ["model"; "model/params/total"; "model/params/trainable";
          "model/params/non_trainable"; "datamodule"; "trainer"; "callbacks";
          "extras"; "task_name"; "tags"; "ckpt_path"; "seed"]%string
    /\ exists total trainable non_trainable,
         hlookup "model/params/total" h = Some (Count total)
         /\ hlookup "model/params/trainable" h = Some (Count trainable)
         /\ hlookup "model/params/non_trainable" h = Some (Count non_trainable)
         /\ total = (trainable + non_trainable)%nat.
Proof.
  eexists. split; [reflexivity|].
  apply (logged_counts_add_up logged_run). reflexivity.
Defined.

(** X29.  Without a logger nothing is read from the configuration and
    nothing is logged: the call returns [None] whatever the
    configuration holds.  With a logger, a configuration that lacks
    ["model"], ["datamodule"] or ["trainer"] ends the call with a
    [KeyError] for the first of them that is missing, before anything
    is logged; otherwise twelve entries are logged, the other six read
    with [cfg.get] and possibly absent from the configuration. *)
Theorem logging_needs_three_config_keys (cfg : config) (params : list Param)
    (has_logger : bool) :
  let o := {| od_cfg := Some cfg; od_model := Some params;
              od_trainer := Some has_logger |} in
  let needed := ["model"; "datamodule"; "trainer"]%string in
  match has_logger, find (EntryProps.missing cfg) needed with
  | false, _ => log_hyperparameters o = Ok None
  | true, Some k => log_hyperparameters o = Raise (KeyError k)
  | true, None =>
      exists h, log_hyperparameters o = Ok (Some h) /\ length h = 12%nat
  end.
Proof.
  intros o needed. unfold log_hyperparameters, o, needed.
  cbn [od_cfg od_model od_trainer item mbind result_bind bind].
  destruct has_logger; [|reflexivity]. cbn [negb find].
  unfold EntryProps.missing, subscript.
  destruct (assoc "model" cfg) as [m|]; [|reflexivity].
  cbn [mbind result_bind bind].
  destruct (assoc "datamodule" cfg) as [d|]; [|reflexivity].
  cbn [mbind result_bind bind].
  destruct (assoc "trainer" cfg) as [t|]; [|reflexivity].
  cbn [mbind result_bind bind]. eexists. split; reflexivity.
Qed.

End Hparams.
